(** * The BCV overlap engine of BankEfficiency.c

    A shallow embedding of the matched-filter core of
    [lalapps/src/findchirp/BankEfficiency.c]: the best-match tracker
    [KeepHighestValues], the noise-moment calculator
    [LALCreateMomentVector], the orthogonalizer
    [LALGetOrthogonalFilterBCV2], the power-vector builder
    [LALCreateVectorFreqPower] / [BECreatePowerVector], the filter
    constructor [LALCreateFilters] and the maximizer [LALWaveOverlapBCV].

    Conventions of the embedding.
    - [REAL4] and [REAL8] values are modelled by one type [REAL]: a real
      number or one of the IEEE special values +Inf, -Inf, NaN.  Finite
      arithmetic is exact (no rounding, no overflow); the special values
      arise and propagate as in IEEE arithmetic, with an unsigned zero
      that behaves like +0.
    - The module [Binary] gives the rounding of a value to [REAL4] and to
      [REAL8].  The computation done on every sample of the maximization
      loop is embedded a second time with these roundings written out,
      so that what the exact arithmetic proves of it can be compared with
      what the stored values do.
    - A [REAL4Vector] is a [list REAL]; its [length] field is the length
      of the list.  An access outside the vector is undefined behaviour in
      C and makes the embedded function return [None].
    - [UINT4] and [INT4] quantities are integers in [Z] with the wrap-around
      written out where the source can wrap; a loop index inside a vector
      is a [nat].
    - The structures are declared in BankEfficiency.h and in the LAL
      headers, which are not among the sources: a record keeps the fields
      that the functions embedded here read or write.
    - The functions of the C library ([pow], [sqrt], [atan2], ...) are
      the ones of the module [IEEE]; the files written when printing is
      requested are not modelled. *)

From Stdlib Require Import Reals ZArith Lia Lra Psatz.
From stdpp Require Import base list.

(** ** Real arithmetic with the IEEE special values *)

Module IEEE.
Local Open Scope R_scope.

Inductive REAL : Type :=
| Fin (r : R)
| PInf
| NInf
| NaN.

Definition is_finite (x : REAL) : bool :=
  match x with Fin _ => true | _ => false end.

Definition is_nan (x : REAL) : bool :=
  match x with NaN => true | _ => false end.

(** The sign of a real number, as a three-way comparison with zero. *)
Definition Rsgn (r : R) : comparison :=
  match total_order_T r 0 with
  | inleft (left _) => Lt
  | inleft (right _) => Eq
  | inright _ => Gt
  end.

(** The infinity of a given sign; a zero sign stands for 0 * Inf or 0 / 0. *)
Definition signed_inf (c : comparison) : REAL :=
  match c with Lt => NInf | Eq => NaN | Gt => PInf end.

Definition fzero : REAL := Fin 0.
Definition fone : REAL := Fin 1.
Definition of_Z (z : Z) : REAL := Fin (IZR z).

Definition fneg (a : REAL) : REAL :=
  match a with
  | Fin x => Fin (- x)
  | PInf => NInf
  | NInf => PInf
  | NaN => NaN
  end.

Definition fadd (a b : REAL) : REAL :=
  match a, b with
  | NaN, _ | _, NaN => NaN
  | Fin x, Fin y => Fin (x + y)
  | PInf, NInf | NInf, PInf => NaN
  | PInf, _ | _, PInf => PInf
  | NInf, _ | _, NInf => NInf
  end.

Definition fsub (a b : REAL) : REAL := fadd a (fneg b).

Definition fmul (a b : REAL) : REAL :=
  match a, b with
  | NaN, _ | _, NaN => NaN
  | Fin x, Fin y => Fin (x * y)
  | Fin x, PInf | PInf, Fin x => signed_inf (Rsgn x)
  | Fin x, NInf | NInf, Fin x => signed_inf (CompOpp (Rsgn x))
  | PInf, PInf | NInf, NInf => PInf
  | PInf, NInf | NInf, PInf => NInf
  end.

Definition fdiv (a b : REAL) : REAL :=
  match a, b with
  | NaN, _ | _, NaN => NaN
  | Fin x, Fin y =>
      if Req_dec_T y 0 then signed_inf (Rsgn x) else Fin (x / y)
  | Fin _, PInf | Fin _, NInf => Fin 0
  | PInf, Fin y => match Rsgn y with Lt => NInf | _ => PInf end
  | NInf, Fin y => match Rsgn y with Lt => PInf | _ => NInf end
  | _, _ => NaN
  end.

Definition fsqrt (a : REAL) : REAL :=
  match a with
  | Fin x => if Rlt_dec x 0 then NaN else Fin (sqrt x)
  | PInf => PInf
  | NInf | NaN => NaN
  end.

Definition fcos (a : REAL) : REAL :=
  match a with Fin x => Fin (cos x) | _ => NaN end.

Definition fsin (a : REAL) : REAL :=
  match a with Fin x => Fin (sin x) | _ => NaN end.

Definition ftan (a : REAL) : REAL := fdiv (fsin a) (fcos a).

Definition fatan (a : REAL) : REAL :=
  match a with
  | Fin x => Fin (atan x)
  | PInf => Fin (PI / 2)
  | NInf => Fin (- (PI / 2))
  | NaN => NaN
  end.

(** [atan2 (y, x)], the angle of the point (x, y) in [-PI, PI]. *)
Definition fatan2 (y x : REAL) : REAL :=
  match y, x with
  | NaN, _ | _, NaN => NaN
  | Fin yr, Fin xr =>
      match Rsgn xr with
      | Gt => Fin (atan (yr / xr))
      | Lt => if Rlt_dec yr 0 then Fin (atan (yr / xr) - PI)
              else Fin (atan (yr / xr) + PI)
      | Eq => match Rsgn yr with
              | Gt => Fin (PI / 2)
              | Lt => Fin (- (PI / 2))
              | Eq => Fin 0
              end
      end
  | PInf, Fin _ => Fin (PI / 2)
  | NInf, Fin _ => Fin (- (PI / 2))
  | Fin _, PInf => Fin 0
  | Fin yr, NInf => if Rlt_dec yr 0 then Fin (- PI) else Fin PI
  | PInf, PInf => Fin (PI / 4)
  | NInf, PInf => Fin (- (PI / 4))
  | PInf, NInf => Fin (3 * PI / 4)
  | NInf, NInf => Fin (- (3 * PI / 4))
  end.

Definition is_integer (y : R) : bool :=
  if Req_dec_T (IZR (Int_part y)) y then true else false.

Definition is_odd_integer (y : R) : bool :=
  is_integer y && Z.odd (Int_part y).

(** [pow (x, y)] with the special cases of the C library. *)
Definition fpow (x y : REAL) : REAL :=
  match x, y with
  | _, Fin yr =>
      if Req_dec_T yr 0 then Fin 1 else
      match x with
      | Fin xr =>
          match Rsgn xr with
          | Gt => Fin (Rpower xr yr)
          | Eq => if Rlt_dec yr 0 then PInf else Fin 0
          | Lt => if is_integer yr
                  then Fin ((if Z.odd (Int_part yr) then -1 else 1)
                            * Rpower (- xr) yr)
                  else NaN
          end
      | PInf => if Rlt_dec yr 0 then Fin 0 else PInf
      | NInf => if Rlt_dec yr 0 then Fin 0
                else if is_odd_integer yr then NInf else PInf
      | NaN => NaN
      end
  | Fin xr, PInf =>
      if Req_dec_T xr 1 then Fin 1
      else if Req_dec_T xr (-1) then Fin 1
      else if Rlt_dec (Rabs xr) 1 then Fin 0 else PInf
  | Fin xr, NInf =>
      if Req_dec_T xr 1 then Fin 1
      else if Req_dec_T xr (-1) then Fin 1
      else if Rlt_dec (Rabs xr) 1 then PInf else Fin 0
  | PInf, PInf | NInf, PInf => PInf
  | PInf, NInf | NInf, NInf => Fin 0
  | Fin xr, NaN => if Req_dec_T xr 1 then Fin 1 else NaN
  | _, NaN | NaN, _ => NaN
  end.

Definition ffloor (a : REAL) : REAL :=
  match a with Fin x => Fin (IZR (Int_part x)) | _ => a end.

(** Comparisons: every comparison with NaN is false. *)
Definition flt (a b : REAL) : bool :=
  match a, b with
  | Fin x, Fin y => if Rlt_dec x y then true else false
  | NInf, Fin _ | NInf, PInf | Fin _, PInf => true
  | _, _ => false
  end.

Definition fle (a b : REAL) : bool :=
  match a, b with
  | Fin x, Fin y => if Rle_dec x y then true else false
  | NInf, Fin _ | NInf, PInf | Fin _, PInf | NInf, NInf | PInf, PInf => true
  | _, _ => false
  end.

Definition fgt (a b : REAL) : bool := flt b a.
Definition fge (a b : REAL) : bool := fle b a.

(** The value of a [REAL] used as a C condition: true unless it is zero. *)
Definition ftruth (a : REAL) : bool :=
  match a with
  | Fin x => if Req_dec_T x 0 then false else true
  | _ => true
  end.

(** Truncation toward zero, the rounding of a C conversion to an integer. *)
Definition Rtrunc (r : R) : Z :=
  if Rlt_dec r 0 then (- Int_part (- r))%Z else Int_part r.

(** Conversion to an unsigned integer of [w] bits; it is undefined when the
    truncated value cannot be represented. *)
Definition to_unsigned (w : Z) (a : REAL) : option Z :=
  match a with
  | Fin x =>
      let z := Rtrunc x in
      if ((0 <=? z) && (z <? 2 ^ w))%Z then Some z else None
  | _ => None
  end.

End IEEE.
Import IEEE.

(** ** The binary formats of REAL4 and REAL8 *)

Module Binary.
Local Open Scope R_scope.

Section Format.

(** A binary format: [prec] bits of significand, [2 ^ emin] the smallest
    positive (subnormal) number, and [2 ^ emax] the magnitude from which
    a rounded value is infinite. *)
Variables prec emin emax : Z.

(** [floor (log2 |x|)], for [x <> 0]. *)
Definition binary_magnitude (x : R) : Z := Int_part (ln (Rabs x) / ln 2).

(** The exponent of the unit in the last place of [x]: [prec] bits below
    its leading bit, but never under [emin]. *)
Definition ulp_exponent (x : R) : Z :=
  Z.max (binary_magnitude x + 1 - prec) emin.

(** The nearest integer, a tie going to the even one. *)
Definition nearest_even (r : R) : Z :=
  let f := Int_part r in
  match Rsgn (r - IZR f - 1 / 2) with
  | Lt => f
  | Gt => (f + 1)%Z
  | Eq => if Z.even f then f else (f + 1)%Z
  end.

(** Rounding to nearest of a real number: the nearest multiple of the
    unit in the last place, or an infinity when that is out of range. *)
Definition round_finite (x : R) : REAL :=
  let e := ulp_exponent x in
  let r := IZR (nearest_even (x * powerRZ 2 (- e))) * powerRZ 2 e in
  if Rle_dec (powerRZ 2 emax) (Rabs r) then signed_inf (Rsgn x) else Fin r.

Definition round_format (a : REAL) : REAL :=
  match a with Fin x => round_finite x | _ => a end.

End Format.

(** IEEE single precision: 24 bits, subnormal numbers down to [2 ^ -149],
    finite values below [2 ^ 128]. *)
Definition to_REAL4 : REAL -> REAL := round_format 24 (-149) 128.

(** IEEE double precision: 53 bits, subnormal numbers down to
    [2 ^ -1074], finite values below [2 ^ 1024]. *)
Definition to_REAL8 : REAL -> REAL := round_format 53 (-1074) 1024.

End Binary.
Import Binary.

(** ** Vectors, memory accesses and loops *)

Abbreviation REAL4Vector := (list REAL).

(** [data[i] = x]; writing outside the vector is undefined. *)
Definition store (v : REAL4Vector) (i : nat) (x : REAL) : option REAL4Vector :=
  if decide (i < length v) then Some (<[i:=x]> v) else None.

(** [data[i]]; reading outside the vector is undefined. *)
Definition load (v : REAL4Vector) (i : nat) : option REAL :=
  v !! i.

(** The memory [LALCalloc] returns: [n] zeros. *)
Definition LALCalloc (n : nat) : REAL4Vector := replicate n fzero.

(** [for (i = i0; count iterations; i++) body], stopping at the first
    undefined step. *)
Fixpoint for_loop {St : Type} (body : nat -> St -> option St)
    (i count : nat) (s : St) : option St :=
  match count with
  | O => Some s
  | S c =>
      match body i s with
      | Some s' => for_loop body (S i) c s'
      | None => None
      end
  end.

(** [for (i = a; i < b; i++) body]. *)
Definition for_range {St : Type} (body : nat -> St -> option St)
    (a b : nat) (s : St) : option St :=
  for_loop body a (b - a) s.

Definition UINT4_MAX1 : Z := 2 ^ 32.

(** ** The best-match tracker *)

(** The fields of [OverlapOutputIn] that BankEfficiency.c reads and
    writes: the constrained sub-record and the unconstrained one. *)
Record OverlapOutputIn : Type := mkOverlapOutputIn {
  rhoMax : REAL;
  phase : REAL;
  alpha : REAL;
  rhoBin : Z;
  freq : REAL;
  layer : Z;
  templateNumber : Z;
  rhoMaxU : REAL;
  phaseU : REAL;
  alphaU : REAL;
  rhoBinU : Z;
  freqU : REAL;
  layerU : Z;
  templateNumberU : Z
}.

(** [BEInitOverlapOutputIn]. *)
Definition BEInitOverlapOutputIn : OverlapOutputIn :=
  {| rhoMax := Fin (-1); phase := Fin (-1); alpha := Fin (-1);
     rhoBin := 0; freq := Fin (-1); layer := 0; templateNumber := 0;
     rhoMaxU := Fin (-1); phaseU := Fin (-1); alphaU := Fin (-1);
     rhoBinU := 0; freqU := Fin (-1); layerU := 0; templateNumberU := 0 |}.

(** [KeepHighestValues (resultThisTemplate, &resultBestTemplate)]: the
    result is the new contents of [*resultBestTemplate]. *)
Definition KeepHighestValues
    (resultThisTemplate resultBestTemplate : OverlapOutputIn)
  : OverlapOutputIn :=
  let best1 :=
    if fgt (rhoMax resultThisTemplate) (rhoMax resultBestTemplate) then
      {| rhoMax := rhoMax resultThisTemplate;
         phase := phase resultThisTemplate;
         alpha := alpha resultThisTemplate;
         rhoBin := rhoBin resultThisTemplate;
         freq := freq resultThisTemplate;
         layer := layer resultThisTemplate;
         templateNumber := templateNumber resultThisTemplate;
         rhoMaxU := rhoMaxU resultBestTemplate;
         phaseU := phaseU resultBestTemplate;
         alphaU := alphaU resultBestTemplate;
         rhoBinU := rhoBinU resultBestTemplate;
         freqU := freqU resultBestTemplate;
         layerU := layerU resultBestTemplate;
         templateNumberU := templateNumberU resultBestTemplate |}
    else resultBestTemplate in
  if fgt (rhoMaxU resultThisTemplate) (rhoMaxU best1) then
    {| rhoMax := rhoMax best1;
       phase := phase best1;
       alpha := alpha best1;
       rhoBin := rhoBin best1;
       freq := freq best1;
       layer := layer best1;
       templateNumber := templateNumber best1;
       rhoMaxU := rhoMaxU resultThisTemplate;
       phaseU := phaseU resultThisTemplate;
       alphaU := alphaU resultThisTemplate;
       rhoBinU := rhoBinU resultThisTemplate;
       freqU := freqU resultThisTemplate;
       layerU := layerU resultThisTemplate;
       templateNumberU := templateNumberU resultThisTemplate |}
  else best1.

(** The two sub-records of an [OverlapOutputIn]. *)
Definition constrained_part (r : OverlapOutputIn)
  : REAL * REAL * REAL * Z * REAL * Z * Z :=
  (rhoMax r, phase r, alpha r, rhoBin r, freq r, layer r, templateNumber r).

Definition unconstrained_part (r : OverlapOutputIn)
  : REAL * REAL * REAL * Z * REAL * Z * Z :=
  (rhoMaxU r, phaseU r, alphaU r, rhoBinU r, freqU r, layerU r,
   templateNumberU r).

(** ** The orthogonalizer *)

(** One iteration of the loop of [LALGetOrthogonalFilterBCV2]. *)
Definition orthogonal_body (n : nat) (i : nat) (data : REAL4Vector)
  : option REAL4Vector :=
  temp ← load data i;
  x ← load data (n - i);
  data1 ← store data i (fneg x);
  store data1 (n - i) temp.

Definition LALGetOrthogonalFilterBCV2 (filter : REAL4Vector)
  : option REAL4Vector :=
  let n := length filter in
  let nby2 := (n / 2)%nat in
  for_range (orthogonal_body n) 1 nby2 filter.

(** ** The frequency-power vectors *)

(** The fields of [InspiralTemplate] the engine uses. *)
Record InspiralTemplate : Type := mkInspiralTemplate {
  fLower : REAL;
  tSampling : REAL;
  fFinal : REAL;
  fCutoff : REAL;
  psi0 : REAL;
  psi3 : REAL;
  nStartPad : Z;
  startPhase : REAL
}.

(** [LALCreateVectorFreqPower (vector, params, a, b)]: the result is the
    new contents of [vector]. *)
Definition LALCreateVectorFreqPower (vector : REAL4Vector)
    (params : InspiralTemplate) (a b : Z) : option REAL4Vector :=
  let n := length vector in
  let power := fdiv (of_Z a) (of_Z b) in
  let df := fdiv (fdiv (tSampling params) (of_Z (Z.of_nat n))) (Fin 2) in
  v0 ← store vector 0 fzero;
  for_range
    (fun i v => let f := fmul (of_Z (Z.of_nat i)) df in store v i (fpow f power))
    1 n v0.

Record BEPowerVector : Type := mkBEPowerVector {
  fm5_3 : REAL4Vector;
  fm2_3 : REAL4Vector;
  fm7_6 : REAL4Vector;
  fm1_2 : REAL4Vector
}.

(** The length field [length / 2] of an [INT4] stored in a [UINT4]. *)
Definition half_length (length : Z) : nat :=
  Z.to_nat ((Z.quot length 2) mod UINT4_MAX1).

(** [BECreatePowerVector (status, powerVector, randIn, length)], with
    [param] the field [randIn.param]. *)
Definition BECreatePowerVector (param : InspiralTemplate) (length : Z)
  : option BEPowerVector :=
  let n := half_length length in
  v53 ← LALCreateVectorFreqPower (LALCalloc n) param (-5) 3;
  v23 ← LALCreateVectorFreqPower (LALCalloc n) param (-2) 3;
  v76 ← LALCreateVectorFreqPower (LALCalloc n) param (-7) 6;
  v12 ← LALCreateVectorFreqPower (LALCalloc n) param (-1) 2;
  Some {| fm5_3 := v53; fm2_3 := v23; fm7_6 := v76; fm1_2 := v12 |}.

(** ** The noise-moment calculator *)

Record REAL8FrequencySeries : Type := mkREAL8FrequencySeries {
  f0 : REAL;
  deltaF : REAL;
  data : list REAL
}.

Record BEMoments : Type := mkBEMoments {
  a11 : REAL4Vector;
  a22 : REAL4Vector;
  a21 : REAL4Vector
}.

(** The variables the accumulation loop of [LALCreateMomentVector]
    updates: the running sums and the three output vectors. *)
Record MomentLoop : Type := mkMomentLoop {
  m7 : REAL;
  m5 : REAL;
  m3 : REAL;
  moments : BEMoments
}.

(** Body of the first loop: the bins below the cutoff. *)
Definition moment_skip_body (k : nat) (mo : BEMoments) : option BEMoments :=
  v11 ← store (a11 mo) k fzero;
  v21 ← store (a21 mo) k fzero;
  v22 ← store (a22 mo) k fzero;
  Some {| a11 := v11; a22 := v22; a21 := v21 |}.

(** The frequency of bin [k]. *)
Definition bin_frequency (psd : REAL8FrequencySeries) (k : nat) : REAL :=
  fadd (f0 psd) (fmul (of_Z (Z.of_nat k)) (deltaF psd)).

(** The term [pow (f, -e) / S(f) * deltaF / norm] added to a running sum. *)
Definition moment_term (psd : REAL8FrequencySeries) (norm : REAL)
    (e : REAL) (f p : REAL) : REAL :=
  fdiv (fmul (fdiv (fpow f (fneg e)) p) (deltaF psd)) norm.

(** Body of the second loop: the bins from the cutoff on. *)
Definition moment_body (psd : REAL8FrequencySeries) (norm : REAL)
    (k : nat) (st : MomentLoop) : option MomentLoop :=
  let f := bin_frequency psd k in
  p ← load (data psd) k;
  if ftruth p then
    let m7' := fadd (m7 st) (moment_term psd norm (fdiv (Fin 7) (Fin 3)) f p) in
    let m5' := fadd (m5 st) (moment_term psd norm (fdiv (Fin 5) (Fin 3)) f p) in
    let m3' := fadd (m3 st) (moment_term psd norm (Fin 1) f p) in
    v11 ← store (a11 (moments st)) k (fdiv (Fin 1) (fsqrt m7'));
    v22 ← store (a22 (moments st)) k
          (fdiv (Fin 1) (fsqrt (fsub m3' (fdiv (fmul m5' m5') m7'))));
    x22 ← load v22 k;
    v21 ← store (a21 (moments st)) k (fmul (fdiv (fneg m5') m7') x22);
    Some {| m7 := m7'; m5 := m5'; m3 := m3';
            moments := {| a11 := v11; a22 := v22; a21 := v21 |} |}
  else Some st.

(** The two loops of [LALCreateMomentVector], from the freshly allocated
    vectors of length [n]. *)
Definition moment_loops (psd : REAL8FrequencySeries) (norm : REAL)
    (n kMin kMax : nat) : option MomentLoop :=
  let mo := {| a11 := LALCalloc n; a22 := LALCalloc n; a21 := LALCalloc n |} in
  mo1 ← for_range moment_skip_body 0 kMin mo;
  for_range (moment_body psd norm) kMin kMax
    {| m7 := Fin 0; m5 := Fin 0; m3 := Fin 0; moments := mo1 |}.

(** [in.norm]: [1./4.] times the square of the sampling rate. *)
Definition moment_norm (params : InspiralTemplate) : REAL :=
  fmul (fdiv (Fin 1) (Fin 4)) (fmul (tSampling params) (tSampling params)).

(** [(UINT8) floor ((x - f0) / deltaF)] stored in a [UINT4]. *)
Definition frequency_bin (psd : REAL8FrequencySeries) (x : REAL) : option nat :=
  k ← to_unsigned 64 (ffloor (fdiv (fsub x (f0 psd)) (deltaF psd)));
  Some (Z.to_nat (k mod UINT4_MAX1)).

(** [LALCreateMomentVector (moments, psd, params, length)]: the result is
    the contents of [*moments]. *)
Definition LALCreateMomentVector (psd : REAL8FrequencySeries)
    (params : InspiralTemplate) (length : Z) : option BEMoments :=
  let n := half_length length in
  let xmin := fLower params in
  let xmax := fdiv (tSampling params) (Fin 2) in
  let norm := moment_norm params in
  kMin ← frequency_bin psd xmin;
  kMax ← frequency_bin psd xmax;
  st ← moment_loops psd norm n kMin kMax;
  Some (moments st).

(** ** The filter pair constructor *)

(** Body of the first loop of [LALCreateFilters]. *)
Definition filters_zero_body (i : nat) (fs : REAL4Vector * REAL4Vector)
  : option (REAL4Vector * REAL4Vector) :=
  f1 ← store fs.1 i fzero;
  f2 ← store fs.2 i fzero;
  Some (f1, f2).

(** Body of the second loop of [LALCreateFilters]. *)
Definition filters_fill_body (powerVector : BEPowerVector) (n : nat)
    (c11 c21 c22 p0 p3 : REAL) (i : nat) (fs : REAL4Vector * REAL4Vector)
  : option (REAL4Vector * REAL4Vector) :=
  x53 ← load (fm5_3 powerVector) i;
  x23 ← load (fm2_3 powerVector) i;
  let amplitude0 := fadd (fmul p0 x53) (fmul p3 x23) in
  let cos_phase := fcos amplitude0 in
  let sin_phase := fsin amplitude0 in
  x76 ← load (fm7_6 powerVector) i;
  let amplitude1 := fmul c11 x76 in
  f1 ← store fs.1 i (fmul amplitude1 cos_phase);
  f1' ← store f1 (n - i) (fmul (fneg amplitude1) sin_phase);
  x12 ← load (fm1_2 powerVector) i;
  let amplitude2 := fadd (fmul c21 x76) (fmul c22 x12) in
  f2 ← store fs.2 i (fmul amplitude2 cos_phase);
  f2' ← store f2 (n - i) (fmul (fneg amplitude2) sin_phase);
  Some (f1', f2').

(** [LALCreateFilters (FilterBCV1, FilterBCV2, powerVector, moments, kMin,
    kMax, psi0, psi3)]: the result is the new contents of the two filters.
    [kMin] and [kMax] are [UINT4] values; [kMin - 1] wraps around. *)
Definition LALCreateFilters (FilterBCV1 FilterBCV2 : REAL4Vector)
    (powerVector : BEPowerVector) (mo : BEMoments) (kMin kMax : Z)
    (p0 p3 : REAL) : option (REAL4Vector * REAL4Vector) :=
  let n := length FilterBCV1 in
  let nby2 := (n / 2)%nat in
  c11 ← load (a11 mo) (Z.to_nat kMax);
  c22 ← load (a22 mo) (Z.to_nat kMax);
  c21 ← load (a21 mo) (Z.to_nat kMax);
  fs ← for_range filters_zero_body 0
         (Z.to_nat ((kMin - 1) mod UINT4_MAX1)) (FilterBCV1, FilterBCV2);
  for_range (filters_fill_body powerVector n c11 c21 c22 p0 p3)
    (Z.to_nat kMin) nby2 fs.

(** ** The overlap maximizer *)

(** How a call of a function of the program can end. *)
Inductive outcome (A : Type) : Type :=
| Returned (a : A)
    (* the function returns normally *)
| StatusError
    (* CHECKSTATUSPTR: a callee reported an error, the function returns
       at once with an error status *)
| Exited (code : Z) (report : list REAL)
    (* fprintf (stderr, ...) of the values [report], then exit (code) *)
| Undefined.
    (* undefined behaviour: an access outside a vector, an
       unrepresentable conversion *)

Arguments Returned {A} a.
Arguments StatusError {A}.
Arguments Exited {A} code report.
Arguments Undefined {A}.

Definition outcome_bind {A B : Type} (f : A -> outcome B) (m : outcome A)
  : outcome B :=
  match m with
  | Returned a => f a
  | StatusError => StatusError
  | Exited c r => Exited c r
  | Undefined => Undefined
  end.

#[global] Instance outcome_mbind : MBind outcome := @outcome_bind.

(** A memory access or a conversion inside a function that can exit. *)
Definition defined {A : Type} (o : option A) : outcome A :=
  match o with Some a => Returned a | None => Undefined end.

(** [for (i = i0; count iterations; i++) body] for a body that can exit. *)
Fixpoint for_loop_outcome {St : Type} (body : nat -> St -> outcome St)
    (i count : nat) (s : St) : outcome St :=
  match count with
  | O => Returned s
  | S c => s' ← body i s; for_loop_outcome body (S i) c s'
  end.

Definition for_range_outcome {St : Type} (body : nat -> St -> outcome St)
    (a b : nat) (s : St) : outcome St :=
  for_loop_outcome body a (b - a) s.

Inductive AlphaFConstraint : Type := ALPHAFConstraint | ALPHAFUnconstraint.

(** The fields of [OtherParamIn] read by [LALWaveOverlapBCV]. *)
Record OtherParamIn : Type := mkOtherParamIn {
  printBestOverlap : bool;
  extraFinalPrinting : bool;
  printSNRHisto : bool;
  alphaFConstraint : AlphaFConstraint
}.

Record InspiralWaveOverlapIn : Type := mkInspiralWaveOverlapIn {
  nBegin : Z;
  nEnd : Z;
  psd : list REAL;
  signal : REAL4Vector;
  param : InspiralTemplate
}.

Record InspiralWaveCorrelateIn : Type := mkInspiralWaveCorrelateIn {
  corr_fCutoff : REAL;
  samplingRate : REAL;
  df : REAL;
  corr_psd : list REAL;
  signal1 : REAL4Vector;
  signal2 : REAL4Vector
}.

(** Modelled from the spec: [LAL_PI], declared in LALConstants.h which is
    not among the sources, is the constant pi. *)
Definition LAL_PI : REAL := Fin PI.

(** The three angular sectors of the maximization and the case the source
    marks "must not enter here". *)
Inductive sector : Type :=
| SectorUnconstrained
| SectorV1
| SectorThetaB
| SectorNone.

Definition tolerance : REAL := Fin (1 / 10000).

(** The chain of conditions on [thetab] and [thetav]. *)
Definition sector_decision (thetab thetav : REAL) : sector :=
  if fge thetab (Fin 0) then
    if fle (Fin 0) thetav && fle thetav (fmul (Fin 2) thetab)
    then SectorUnconstrained
    else if fle (fsub thetab LAL_PI) thetav && flt thetav (Fin 0)
    then SectorV1
    else if (flt (fmul (Fin 2) thetab) thetav
             && fle thetav (fadd LAL_PI tolerance))
            || (fle (fsub (fneg LAL_PI) tolerance) thetav
                && flt thetav (fadd (fneg LAL_PI) thetab))
    then SectorThetaB
    else SectorNone
  else
    if fle (fmul (Fin 2) thetab) thetav && fle thetav (Fin 0)
    then SectorUnconstrained
    else if flt (Fin 0) thetav && fle thetav (fadd LAL_PI thetab)
    then SectorV1
    else if (fle (fsub (fneg LAL_PI) tolerance) thetav
             && flt thetav (fmul (Fin 2) thetab))
            || (fle (fadd LAL_PI thetab) thetav
                && fle thetav (fadd LAL_PI tolerance))
    then SectorThetaB
    else SectorNone.

Definition sample_V0 (x1 x2 x3 x4 : REAL) : REAL :=
  fadd (fadd (fadd (fmul x1 x1) (fmul x2 x2)) (fmul x3 x3)) (fmul x4 x4).

Definition sample_V1 (x1 x2 x3 x4 : REAL) : REAL :=
  fsub (fsub (fadd (fmul x1 x1) (fmul x3 x3)) (fmul x2 x2)) (fmul x4 x4).

Definition sample_V2 (x1 x2 x3 x4 : REAL) : REAL :=
  fmul (Fin 2) (fadd (fmul x1 x2) (fmul x3 x4)).

(** [sqrt ((V0 + sqrt (V1*V1 + V2*V2)) / 2.)] *)
Definition rho_unconstraint (V0 V1 V2 : REAL) : REAL :=
  fsqrt (fdiv (fadd V0 (fsqrt (fadd (fmul V1 V1) (fmul V2 V2)))) (Fin 2)).

(** [sqrt ((V0 + V1) / 2.)] *)
Definition rho_V1 (V0 V1 : REAL) : REAL :=
  fsqrt (fdiv (fadd V0 V1) (Fin 2)).

(** [sqrt ((V0 + V1*cos (2*thetab) + V2*sin (2*thetab)) / 2.)] *)
Definition rho_thetab (thetab V0 V1 V2 : REAL) : REAL :=
  fsqrt (fdiv (fadd (fadd V0 (fmul V1 (fcos (fmul (Fin 2) thetab))))
                    (fmul V2 (fsin (fmul (Fin 2) thetab))))
              (Fin 2)).

(** [-(a22 * tan (ph)) / (a11 + a21 * tan (ph))] *)
Definition alpha_of (c11 c21 c22 ph : REAL) : REAL :=
  fdiv (fneg (fmul c22 (ftan ph))) (fadd c11 (fmul c21 (ftan ph))).

(** The constrained SNR of a sample, or the exit of the program. *)
Definition constrained_snr (thetab thetav V0 V1 V2 : REAL) (i : nat)
  : outcome REAL :=
  match sector_decision thetab thetav with
  | SectorUnconstrained => Returned (rho_unconstraint V0 V1 V2)
  | SectorV1 => Returned (rho_V1 V0 V1)
  | SectorThetaB => Returned (rho_thetab thetab V0 V1 V2)
  | SectorNone =>
      if fge thetab (Fin 0) then Exited 0 [thetav; thetab]
      else Exited 0 [thetav; thetab; V1; V2; of_Z (Z.of_nat i)]
  end.

(** *** The sample computation with its roundings

    The same lines of the loop with the rounding of every operation
    written out.  [x1 .. x4], [V0], [V1], [V2], [thetab], [thetav] and
    the two SNR values are [REAL4] variables.  An operation between two
    [REAL4] values (the integer constant 2 counts as one) is done and
    rounded in [REAL4]; an operation with a [REAL8] operand, such as the
    constants [2.], [1e-4] and [LAL_PI] or the result of a function of
    the C library, is done in [REAL8]; an assignment rounds to [REAL4].
    The functions of the C library take and return [REAL8] values and
    are taken as correctly rounded; [LAL_PI], whose declaration is not
    among the sources, is taken as a [REAL8] constant.  [to4] and [to8]
    are the two roundings. *)
Section RoundedSample.
Variables to4 to8 : REAL -> REAL.

Definition mul4 (a b : REAL) : REAL := to4 (fmul a b).
Definition add4 (a b : REAL) : REAL := to4 (fadd a b).
Definition sub4 (a b : REAL) : REAL := to4 (fsub a b).
Definition mul8 (a b : REAL) : REAL := to8 (fmul a b).
Definition add8 (a b : REAL) : REAL := to8 (fadd a b).
Definition sub8 (a b : REAL) : REAL := to8 (fsub a b).
Definition div8 (a b : REAL) : REAL := to8 (fdiv a b).
Definition sqrt8 (a : REAL) : REAL := to8 (fsqrt a).
Definition cos8 (a : REAL) : REAL := to8 (fcos a).
Definition sin8 (a : REAL) : REAL := to8 (fsin a).
Definition atan2_8 (y x : REAL) : REAL := to8 (fatan2 y x).

(** [V0 = x1_2 + x2_2 + x3_2 + x4_2] with [xk_2 = xk * xk] *)
Definition rounded_V0 (x1 x2 x3 x4 : REAL) : REAL :=
  add4 (add4 (add4 (mul4 x1 x1) (mul4 x2 x2)) (mul4 x3 x3)) (mul4 x4 x4).

(** [V1 = x1_2 + x3_2 - x2_2 - x4_2] *)
Definition rounded_V1 (x1 x2 x3 x4 : REAL) : REAL :=
  sub4 (sub4 (add4 (mul4 x1 x1) (mul4 x3 x3)) (mul4 x2 x2)) (mul4 x4 x4).

(** [V2 = 2*(x1*x2 + x3*x4)] *)
Definition rounded_V2 (x1 x2 x3 x4 : REAL) : REAL :=
  mul4 (Fin 2) (add4 (mul4 x1 x2) (mul4 x3 x4)).

(** [rhoUnconstraint = sqrt ((V0 + sqrt (V1*V1 + V2*V2)) / 2.)]: the sum
    of the squares is a [REAL4] value, the rest is done in [REAL8]. *)
Definition rounded_rho_unconstraint (V0 V1 V2 : REAL) : REAL :=
  to4 (sqrt8 (div8 (add8 V0 (sqrt8 (add4 (mul4 V1 V1) (mul4 V2 V2))))
                   (Fin 2))).

(** [thetav = atan2 (V2, V1)] *)
Definition rounded_thetav (V2 V1 : REAL) : REAL := to4 (atan2_8 V2 V1).

(** [rhoConstraint = sqrt ((V0 + V1) / 2.)]: the sum is a [REAL4] value. *)
Definition rounded_rho_V1 (V0 V1 : REAL) : REAL :=
  to4 (sqrt8 (div8 (add4 V0 V1) (Fin 2))).

(** [rhoConstraint = sqrt ((V0 + V1*cos (2*thetab) + V2*sin (2*thetab)) / 2.)] *)
Definition rounded_rho_thetab (thetab V0 V1 V2 : REAL) : REAL :=
  to4 (sqrt8 (div8 (add8 (add8 V0 (mul8 V1 (cos8 (mul4 (Fin 2) thetab))))
                         (mul8 V2 (sin8 (mul4 (Fin 2) thetab))))
                   (Fin 2))).

(** The chain of conditions: [2*thetab] is a [REAL4] value, the sums and
    differences with [LAL_PI] and [1e-4] are [REAL8] values. *)
Definition rounded_sector_decision (thetab thetav : REAL) : sector :=
  if fge thetab (Fin 0) then
    if fle (Fin 0) thetav && fle thetav (mul4 (Fin 2) thetab)
    then SectorUnconstrained
    else if fle (sub8 thetab (to8 LAL_PI)) thetav && flt thetav (Fin 0)
    then SectorV1
    else if (flt (mul4 (Fin 2) thetab) thetav
             && fle thetav (add8 (to8 LAL_PI) (to8 tolerance)))
            || (fle (sub8 (fneg (to8 LAL_PI)) (to8 tolerance)) thetav
                && flt thetav (add8 (fneg (to8 LAL_PI)) thetab))
    then SectorThetaB
    else SectorNone
  else
    if fle (mul4 (Fin 2) thetab) thetav && fle thetav (Fin 0)
    then SectorUnconstrained
    else if flt (Fin 0) thetav && fle thetav (add8 (to8 LAL_PI) thetab)
    then SectorV1
    else if (fle (sub8 (fneg (to8 LAL_PI)) (to8 tolerance)) thetav
             && flt thetav (mul4 (Fin 2) thetab))
            || (fle (add8 (to8 LAL_PI) thetab) thetav
                && fle thetav (add8 (to8 LAL_PI) (to8 tolerance)))
    then SectorThetaB
    else SectorNone.

Definition rounded_constrained_snr (thetab thetav V0 V1 V2 : REAL) (i : nat)
  : outcome REAL :=
  match rounded_sector_decision thetab thetav with
  | SectorUnconstrained => Returned (rounded_rho_unconstraint V0 V1 V2)
  | SectorV1 => Returned (rounded_rho_V1 V0 V1)
  | SectorThetaB => Returned (rounded_rho_thetab thetab V0 V1 V2)
  | SectorNone =>
      if fge thetab (Fin 0) then Exited 0 [thetav; thetab]
      else Exited 0 [thetav; thetab; V1; V2; of_Z (Z.of_nat i)]
  end.

End RoundedSample.

(** No rounding at all: the arithmetic of the rest of the embedding. *)
Definition unrounded (a : REAL) : REAL := a.

(** The computation as the program does it. *)
Definition REAL4_sample_V0 : REAL -> REAL -> REAL -> REAL -> REAL :=
  rounded_V0 to_REAL4.
Definition REAL4_sample_V1 : REAL -> REAL -> REAL -> REAL -> REAL :=
  rounded_V1 to_REAL4.
Definition REAL4_sample_V2 : REAL -> REAL -> REAL -> REAL -> REAL :=
  rounded_V2 to_REAL4.
Definition REAL4_thetav : REAL -> REAL -> REAL :=
  rounded_thetav to_REAL4 to_REAL8.
Definition REAL4_rho_unconstraint : REAL -> REAL -> REAL -> REAL :=
  rounded_rho_unconstraint to_REAL4 to_REAL8.
Definition REAL4_constrained_snr
  : REAL -> REAL -> REAL -> REAL -> REAL -> nat -> outcome REAL :=
  rounded_constrained_snr to_REAL4 to_REAL8.

(** The variables the maximization loop updates. *)
Record MaxLoop : Type := mkMaxLoop {
  rhoMaxConstraint : REAL;
  rhoBinConstraint : Z;
  phaseConstraint : REAL;
  alphaConstraint : REAL;
  rhoMaxUnconstraint : REAL;
  rhoBinUnconstraint : Z;
  phaseUnconstraint : REAL;
  alphaUnconstraint : REAL;
  correlation : REAL4Vector
}.

Definition printing (otherIn : OtherParamIn) : bool :=
  printBestOverlap otherIn && extraFinalPrinting otherIn.

(** Body of the loop over the samples of the four correlations. *)
Definition overlap_body (otherIn : OtherParamIn)
    (x1 x2 x3 x4 : REAL4Vector) (c11 c21 c22 thetab fp23 : REAL)
    (i : nat) (st : MaxLoop) : outcome MaxLoop :=
  s1 ← defined (load x1 i);
  s2 ← defined (load x2 i);
  s3 ← defined (load x3 i);
  s4 ← defined (load x4 i);
  let V0 := sample_V0 s1 s2 s3 s4 in
  let V1 := sample_V1 s1 s2 s3 s4 in
  let V2 := sample_V2 s1 s2 s3 s4 in
  let rhoUnconstraint := rho_unconstraint V0 V1 V2 in
  let thetav := fatan2 V2 V1 in
  rhoConstraint ← constrained_snr thetab thetav V0 V1 V2 i;
  let alphaFU :=
    fmul (alpha_of c11 c21 c22 (fmul (Fin (1 / 2)) thetav)) fp23 in
  corr ←
    match alphaFConstraint otherIn with
    | ALPHAFConstraint =>
        if printBestOverlap otherIn || printSNRHisto otherIn
        then defined (store (correlation st) i rhoConstraint)
        else Returned (correlation st)
    | ALPHAFUnconstraint =>
        if printBestOverlap otherIn || printSNRHisto otherIn
        then
          if fle alphaFU (Fin 1)
          then defined (store (correlation st) i rhoUnconstraint)
          else defined (store (correlation st) i (Fin (-1)))
        else Returned (correlation st)
    end;
  let st1 :=
    if fgt rhoConstraint (rhoMaxConstraint st) then
      {| rhoMaxConstraint := rhoConstraint;
         rhoBinConstraint := Z.of_nat i;
         phaseConstraint := fmul (Fin (1 / 2)) thetav;
         alphaConstraint :=
           alpha_of c11 c21 c22 (fmul (Fin (1 / 2)) thetav);
         rhoMaxUnconstraint := rhoMaxUnconstraint st;
         rhoBinUnconstraint := rhoBinUnconstraint st;
         phaseUnconstraint := phaseUnconstraint st;
         alphaUnconstraint := alphaUnconstraint st;
         correlation := corr |}
    else
      {| rhoMaxConstraint := rhoMaxConstraint st;
         rhoBinConstraint := rhoBinConstraint st;
         phaseConstraint := phaseConstraint st;
         alphaConstraint := alphaConstraint st;
         rhoMaxUnconstraint := rhoMaxUnconstraint st;
         rhoBinUnconstraint := rhoBinUnconstraint st;
         phaseUnconstraint := phaseUnconstraint st;
         alphaUnconstraint := alphaUnconstraint st;
         correlation := corr |} in
  Returned
    (if fgt rhoUnconstraint (rhoMaxUnconstraint st1) && fle alphaFU (Fin 1)
     then
       {| rhoMaxConstraint := rhoMaxConstraint st1;
          rhoBinConstraint := rhoBinConstraint st1;
          phaseConstraint := phaseConstraint st1;
          alphaConstraint := alphaConstraint st1;
          rhoMaxUnconstraint := rhoUnconstraint;
          rhoBinUnconstraint := Z.of_nat i;
          phaseUnconstraint := fmul (Fin (1 / 2)) thetav;
          alphaUnconstraint :=
            alpha_of c11 c21 c22 (fmul (Fin (1 / 2)) thetav);
          correlation := correlation st1 |}
     else st1).

(** The state [LALWaveOverlapBCV] works on through its pointer arguments. *)
Record OverlapState : Type := mkOverlapState {
  st_correlation : REAL4Vector;
  st_overlapin : InspiralWaveOverlapIn;
  st_FilterBCV1 : REAL4Vector;
  st_FilterBCV2 : REAL4Vector;
  st_OverlapOutput : OverlapOutputIn
}.

(** The sample written to [correlation] by the final printing:
    [x1*cphase*cphi + x2*sphase*cphi + x3*cphase*sphi + x4*sphase*sphi]. *)
Definition combined_sample (ph phi s1 s2 s3 s4 : REAL) : REAL :=
  let cphase := fcos ph in
  let cphi := fcos phi in
  let sphase := fsqrt (fsub (Fin 1) (fmul cphase cphase)) in
  let sphi := fsqrt (fsub (Fin 1) (fmul cphi cphi)) in
  fadd (fadd (fadd (fmul (fmul s1 cphase) cphi) (fmul (fmul s2 sphase) cphi))
             (fmul (fmul s3 cphase) sphi))
       (fmul (fmul s4 sphase) sphi).

Definition combine_body (ph phi : REAL) (x1 x2 x3 x4 : REAL4Vector)
    (i : nat) (corr : REAL4Vector) : option REAL4Vector :=
  s1 ← load x1 i;
  s2 ← load x2 i;
  s3 ← load x3 i;
  s4 ← load x4 i;
  store corr i (combined_sample ph phi s1 s2 s3 s4).

Section Overlap.

(** Modelled from the spec: [LALInspiralWaveCorrelate], a function of the
    LAL library that is not among the sources.  It is the correlation
    engine: it reads the correlation input (signal, filter, spectrum),
    writes nothing but its output vector, and reports success ([true]) or
    an error status ([false]); the result is the contents of the output
    vector after the call. *)
Variable LALInspiralWaveCorrelate : InspiralWaveCorrelateIn -> bool * REAL4Vector.

(** A correlation followed by [CHECKSTATUSPTR]. *)
Definition correlate_checked (corrin : InspiralWaveCorrelateIn)
  : outcome REAL4Vector :=
  let r := LALInspiralWaveCorrelate corrin in
  if r.1 then Returned r.2 else StatusError.

Definition with_signal2 (corrin : InspiralWaveCorrelateIn)
    (filter : REAL4Vector) : InspiralWaveCorrelateIn :=
  {| corr_fCutoff := corr_fCutoff corrin;
     samplingRate := samplingRate corrin;
     df := df corrin;
     corr_psd := corr_psd corrin;
     signal1 := signal1 corrin;
     signal2 := filter |}.

(** [LALWaveOverlapBCV (status, correlation, overlapin, FilterBCV1,
    FilterBCV2, otherIn, OverlapOutput, moments)]: the result is the state
    behind the pointer arguments when the function returns.  The files the
    function writes when printing is requested are not part of the state. *)
Definition LALWaveOverlapBCV (s : OverlapState) (otherIn : OtherParamIn)
    (mo : BEMoments) : outcome OverlapState :=
  let n := length (st_correlation s) in
  let overlapin :=
    {| nBegin := nBegin (st_overlapin s);
       nEnd := nEnd (st_overlapin s);
       psd := psd (st_overlapin s);
       signal := signal (st_overlapin s);
       param :=
         {| fLower := fLower (param (st_overlapin s));
            tSampling := tSampling (param (st_overlapin s));
            fFinal := fFinal (param (st_overlapin s));
            fCutoff := fCutoff (param (st_overlapin s));
            psi0 := psi0 (param (st_overlapin s));
            psi3 := psi3 (param (st_overlapin s));
            nStartPad := 0;
            startPhase := Fin 0 |} |} in
  let corrin :=
    {| corr_fCutoff := fFinal (param overlapin);
       samplingRate := tSampling (param overlapin);
       df := fdiv (tSampling (param overlapin))
                  (of_Z (Z.of_nat (length (signal overlapin))));
       corr_psd := psd overlapin;
       signal1 := signal overlapin;
       signal2 := [] |} in
  (* Filter h1 and its orthonormal h1* *)
  x1 ← correlate_checked (with_signal2 corrin (st_FilterBCV1 s));
  F1 ← defined (LALGetOrthogonalFilterBCV2 (st_FilterBCV1 s));
  x3 ← correlate_checked (with_signal2 corrin F1);
  (* Filter h2 and its orthonormal filter *)
  x2 ← correlate_checked (with_signal2 corrin (st_FilterBCV2 s));
  F2 ← defined (LALGetOrthogonalFilterBCV2 (st_FilterBCV2 s));
  let x4 := (LALInspiralWaveCorrelate (with_signal2 corrin F2)).2 in
  let nBegin_ := Z.to_nat (nBegin overlapin mod UINT4_MAX1) in
  let nEnd_ :=
    Z.to_nat ((Z.of_nat (length F1) - nEnd overlapin) mod UINT4_MAX1) in
  let df_ :=
    fdiv (fdiv (tSampling (param overlapin))
               (fdiv (of_Z (Z.of_nat n)) (Fin 2)))
         (Fin 2) in
  k ← defined (to_unsigned 32 (ffloor (fdiv (fFinal (param overlapin)) df_)));
  c11 ← defined (load (a11 mo) (Z.to_nat k));
  c22 ← defined (load (a22 mo) (Z.to_nat k));
  c21 ← defined (load (a21 mo) (Z.to_nat k));
  let fm23 := fpow (corr_fCutoff corrin) (fdiv (Fin (-2)) (Fin 3)) in
  let fp23 := fpow (corr_fCutoff corrin) (fdiv (Fin 2) (Fin 3)) in
  let alphaMax := fm23 in
  let thetab :=
    fatan (fdiv (fneg (fmul c11 alphaMax)) (fadd c22 (fmul c21 alphaMax))) in
  st ← for_range_outcome
         (overlap_body otherIn x1 x2 x3 x4 c11 c21 c22 thetab fp23)
         nBegin_ nEnd_
         {| rhoMaxConstraint := Fin 0; rhoBinConstraint := 0;
            phaseConstraint := Fin 0; alphaConstraint := Fin 0;
            rhoMaxUnconstraint := Fin 0; rhoBinUnconstraint := 0;
            phaseUnconstraint := Fin 0; alphaUnconstraint := Fin 0;
            correlation := st_correlation s |};
  let out :=
    {| rhoMax := rhoMaxConstraint st;
       phase := phaseConstraint st;
       alpha := alphaConstraint st;
       rhoBin := rhoBinConstraint st;
       freq := freq (st_OverlapOutput s);
       layer := layer (st_OverlapOutput s);
       templateNumber := templateNumber (st_OverlapOutput s);
       rhoMaxU := rhoMaxUnconstraint st;
       phaseU := phaseUnconstraint st;
       alphaU := alphaUnconstraint st;
       rhoBinU := rhoBinUnconstraint st;
       freqU := freqU (st_OverlapOutput s);
       layerU := layerU (st_OverlapOutput s);
       templateNumberU := templateNumberU (st_OverlapOutput s) |} in
  if printing otherIn then
    (* print the final template given phase, alpha and so on *)
    corr ← defined
             (for_range
                (combine_body (Fin 0) (startPhase (param overlapin))
                   x1 x2 x3 x4)
                0 n (correlation st));
    F1' ← defined (LALGetOrthogonalFilterBCV2 F1);
    F2' ← defined (LALGetOrthogonalFilterBCV2 F2);
    Returned
      {| st_correlation := corr; st_overlapin := overlapin;
         st_FilterBCV1 := F1'; st_FilterBCV2 := F2';
         st_OverlapOutput := out |}
  else
    Returned
      {| st_correlation := correlation st; st_overlapin := overlapin;
         st_FilterBCV1 := F1; st_FilterBCV2 := F2;
         st_OverlapOutput := out |}.

End Overlap.

(** ** The caller of the filter constructor and of the maximizer *)

(** [(INT4) x] for a floating value [x]: the value truncated toward zero;
    the conversion is undefined when the result cannot be represented. *)
Definition to_INT4 (a : REAL) : option Z :=
  match a with
  | Fin x =>
      let z := Rtrunc x in
      if ((- 2 ^ 31 <=? z) && (z <? 2 ^ 31))%Z then Some z else None
  | _ => None
  end.

(** The [INT4] that receives a [UINT4] value. *)
Definition INT4_of_UINT4 (z : Z) : Z :=
  if (z <? 2 ^ 31)%Z then z else (z - 2 ^ 32)%Z.

(** An entry of the template bank; [LALInspiralOverlapBCV] reads and
    writes its field [params]. *)
Record InspiralTemplateList : Type := mkInspiralTemplateList {
  params : InspiralTemplate
}.

(** The entry [templateNumber] of the bank; an index outside the bank is
    undefined. *)
Definition bank_entry (list : list InspiralTemplateList) (templateNumber : Z)
  : option InspiralTemplateList :=
  if (templateNumber <? 0)%Z then None else list !! Z.to_nat templateNumber.

Definition with_fFinal (p : InspiralTemplate) (x : REAL) : InspiralTemplate :=
  {| fLower := fLower p; tSampling := tSampling p; fFinal := x;
     fCutoff := fCutoff p; psi0 := psi0 p; psi3 := psi3 p;
     nStartPad := nStartPad p; startPhase := startPhase p |}.

Definition with_fCutoff (p : InspiralTemplate) (x : REAL) : InspiralTemplate :=
  {| fLower := fLower p; tSampling := tSampling p; fFinal := fFinal p;
     fCutoff := x; psi0 := psi0 p; psi3 := psi3 p;
     nStartPad := nStartPad p; startPhase := startPhase p |}.

Definition with_param (o : InspiralWaveOverlapIn) (p : InspiralTemplate)
  : InspiralWaveOverlapIn :=
  {| nBegin := nBegin o; nEnd := nEnd o; psd := psd o; signal := signal o;
     param := p |}.

(** [overlapout->rhoMax = x]. *)
Definition with_rhoMax (r : OverlapOutputIn) (x : REAL) : OverlapOutputIn :=
  {| rhoMax := x; phase := phase r; alpha := alpha r; rhoBin := rhoBin r;
     freq := freq r; layer := layer r; templateNumber := templateNumber r;
     rhoMaxU := rhoMaxU r; phaseU := phaseU r; alphaU := alphaU r;
     rhoBinU := rhoBinU r; freqU := freqU r; layerU := layerU r;
     templateNumberU := templateNumberU r |}.

(** The state [LALInspiralOverlapBCV] works on through its pointer
    arguments: the bank and the state of the maximizer. *)
Record BankState : Type := mkBankState {
  bank_list : list InspiralTemplateList;
  bank_overlap : OverlapState
}.

(** [LALInspiralOverlapBCV (status, list, powerVector, otherIn, randIn,
    templateNumber, FilterBCV1, FilterBCV2, overlapin, overlapout,
    correlation, moments)]: the result is the state behind the pointer
    arguments when the function returns.  [signal_is_BCV] is the test
    [otherIn->signal == BCV] and [randIn_param] the field [randIn->param].
    The field [ifExtOutput] of [overlapin], which no function embedded
    here reads, is left out.  [LAL_CALL] hands an error status of the
    callee to the error handler of the application: the call does not
    return, which the outcome [StatusError] stands for. *)
Definition LALInspiralOverlapBCV
    (LALInspiralWaveCorrelate : InspiralWaveCorrelateIn -> bool * REAL4Vector)
    (s : BankState) (powerVector : BEPowerVector) (otherIn : OtherParamIn)
    (signal_is_BCV : bool) (randIn_param : InspiralTemplate)
    (templateNumber : Z) (mo : BEMoments) : outcome BankState :=
  let o := bank_overlap s in
  let n :=
    INT4_of_UINT4 (Z.of_nat (length (st_FilterBCV1 o)) mod UINT4_MAX1) in
  let df :=
    fdiv (fdiv (tSampling randIn_param) (of_Z (Z.quot n 2))) (Fin 2) in
  kMin ← defined (to_INT4 (ffloor (fdiv (fLower randIn_param) df)));
  entry ← defined (bank_entry (bank_list s) templateNumber);
  (* if we want to test the BCV metric by injected BCV signal, we have to
     get the same final frequency for both template and signal *)
  let entry1 :=
    if signal_is_BCV
    then {| params := with_fFinal (params entry) (fFinal randIn_param) |}
    else entry in
  let fendBCV := fFinal (params entry1) in
  let overlapin1 :=
    with_param (st_overlapin o) (with_fFinal (param (st_overlapin o)) fendBCV) in
  let overlapin2 :=
    with_param overlapin1 (with_fCutoff (param overlapin1) fendBCV) in
  let overlapin3 := with_param overlapin2 (params entry1) in
  let overlapout := with_rhoMax (st_OverlapOutput o) (Fin (-1)) in
  kMax ← defined (to_INT4 (ffloor (fdiv fendBCV df)));
  (* Template creation *)
  fs ← defined
         (LALCreateFilters (st_FilterBCV1 o) (st_FilterBCV2 o) powerVector mo
            (kMin mod UINT4_MAX1) (kMax mod UINT4_MAX1)
            (psi0 (params entry1)) (psi3 (params entry1)));
  (* The overlap given two filters and the input signal *)
  o' ← LALWaveOverlapBCV LALInspiralWaveCorrelate
         {| st_correlation := st_correlation o; st_overlapin := overlapin3;
            st_FilterBCV1 := fs.1; st_FilterBCV2 := fs.2;
            st_OverlapOutput := overlapout |} otherIn mo;
  Returned
    {| bank_list := <[Z.to_nat templateNumber := entry1]> (bank_list s);
       bank_overlap := o' |}.

(** ** The noise curve of the VIRGO detector *)

(** [LALVIRGOPsd (status, psd, f)] of LALVIRGOPsd.c: the result is the value
    stored in [*psd].  The constants [500.], [10.2e-46], [7.87] and [-4.8]
    are written as fractions. *)
Definition LALVIRGOPsd (f : REAL) : REAL :=
  let x := fdiv f (Fin 500) in
  let s0 := Fin (102 / 10 ^ 47) in
  fmul s0
    (fadd (fadd (fadd (fpow (fmul (Fin (787 / 100)) x) (Fin (- (48 / 10))))
                      (fdiv (fdiv (Fin 6) (Fin 17)) x))
                (Fin 1))
          (fmul x x)).

(** ** Closed forms used in the statements *)

(** The bins of a vector of length [n] that the orthogonalizer touches:
    [1 <= i < n/2] and their mirror images [n - n/2 < i < n]. *)
Definition swapped_bin (n i : nat) : bool :=
  bool_decide ((1 <= i < n / 2)%nat \/ (n - n / 2 < i < n)%nat).

(** The contents of a vector after the first [j - 1] iterations of the
    orthogonalizer loop on [f]. *)
Definition orthogonal_upto (f : REAL4Vector) (j t : nat) : option REAL :=
  if decide (1 <= t < j)%nat then fneg <$> f !! (length f - t)%nat
  else if decide (length f - j < t < length f)%nat then f !! (length f - t)%nat
  else f !! t.

(** Element [i] of the power vector that [LALCreateVectorFreqPower]
    builds in a vector of [n] elements: 0 at index 0 and
    [(i * df) ^ (a / b)] with [df = rate / n / 2.] elsewhere. *)
Definition frequency_power (n : nat) (rate : REAL) (a b : Z) (i : nat) : REAL :=
  match i with
  | O => fzero
  | S _ =>
      fpow (fmul (of_Z (Z.of_nat i))
              (fdiv (fdiv rate (of_Z (Z.of_nat n))) (Fin 2)))
           (fdiv (of_Z a) (of_Z b))
  end.

Definition frequency_power_vector (n : nat) (rate : REAL) (a b : Z)
  : list REAL :=
  map (frequency_power n rate a b) (seq 0 n).

(** The element the specification gives for a signal of length [N]: 0 at
    index 0 and [(i * deltaF) ^ (a / b)] with
    [deltaF = samplingRate / N / 2] elsewhere. *)
Definition specified_frequency_power (N : Z) (samplingRate : REAL) (a b : Z)
    (i : nat) : REAL :=
  match i with
  | O => fzero
  | S _ =>
      fpow (fmul (of_Z (Z.of_nat i))
              (fdiv (fdiv samplingRate (of_Z N)) (Fin 2)))
           (fdiv (of_Z a) (of_Z b))
  end.

(** The moment vectors as [LALCalloc] returns them. *)
Definition zero_moments (n : nat) : BEMoments :=
  {| a11 := LALCalloc n; a22 := LALCalloc n; a21 := LALCalloc n |}.

(** A vector without NaN or infinite entries. *)
Definition all_finite (v : list REAL) : Prop :=
  Forall (fun x => is_finite x = true) v.

(** The cumulative noise-weighted sums of the specification: the terms
    [f^(-e) / S(f) * deltaF / norm] of the bins [kMin .. kMin + count - 1]
    whose PSD is not zero, added in the order of the bins. *)
Definition moment_sum_step (psd : REAL8FrequencySeries) (norm e : REAL)
    (acc : REAL) (j : nat) : REAL :=
  match load (data psd) j with
  | Some p =>
      if ftruth p
      then fadd acc (moment_term psd norm e (bin_frequency psd j) p)
      else acc
  | None => acc
  end.

Definition moment_sum (psd : REAL8FrequencySeries) (norm e : REAL)
    (kMin count : nat) : REAL :=
  foldl (moment_sum_step psd norm e) (Fin 0) (seq kMin count).

(** The three coefficients the specification defines from the cumulative
    sums [m7], [m5], [m3]. *)
Definition coefficient_a11 (M7 : REAL) : REAL :=
  fdiv (Fin 1) (fsqrt M7).

Definition coefficient_a22 (M7 M5 M3 : REAL) : REAL :=
  fdiv (Fin 1) (fsqrt (fsub M3 (fdiv (fmul M5 M5) M7))).

Definition coefficient_a21 (M7 M5 M3 : REAL) : REAL :=
  fmul (fdiv (fneg M5) M7) (coefficient_a22 M7 M5 M3).

(** The quantities V0, V1, V2 of a sample with real correlations. *)
Definition real_V0 (x1 x2 x3 x4 : R) : R :=
  (x1 * x1 + x2 * x2 + x3 * x3 + x4 * x4)%R.

Definition real_V1 (x1 x2 x3 x4 : R) : R :=
  (x1 * x1 + x3 * x3 + - (x2 * x2) + - (x4 * x4))%R.

Definition real_V2 (x1 x2 x3 x4 : R) : R :=
  (2 * (x1 * x2 + x3 * x4))%R.

(** The frequency [f0 + k * deltaF] of bin [k] and its power 2/3. *)
Definition real_frequency (F0 dF : R) (k : nat) : R :=
  (F0 + IZR (Z.of_nat k) * dF)%R.

Definition frequency_two_thirds (F0 dF : R) (k : nat) : R :=
  Rpower (real_frequency F0 dF k) (2 / 3).

(** A bin whose PSD is present, finite and not zero: the loop accumulates
    it. *)
Definition accumulated_bin (psd : REAL8FrequencySeries) (j : nat) : Prop :=
  exists r, data psd !! j = Some (Fin r) /\ r <> 0%R.

(** The properties of the running sums [M7], [M5], [M3] after the bins
    [kMin .. kMin + c - 1] that the positivity proof carries along: with
    [Q g = M3 - 2 g M5 + g^2 M7], [Q] is nowhere negative, the determinant
    [M3 M7 - M5^2] is not negative, [Q] is positive beyond the powers 2/3
    of the frequencies seen once a bin has been accumulated, and the
    determinant is positive once two bins have been accumulated. *)
Definition moment_sums_invariant_at (psd : REAL8FrequencySeries)
    (F0 dF : R) (kMin c : nat) (M7 M5 M3 : R) : Prop :=
  (0 <= M7)%R
  /\ (0 <= M3 * M7 - M5 * M5)%R
  /\ (forall g, 0 <= M3 - 2 * g * M5 + g * g * M7)%R
  /\ ((exists j, (kMin <= j < kMin + c)%nat /\ accumulated_bin psd j) ->
      (0 < M7)%R
      /\ forall g, (frequency_two_thirds F0 dF (kMin + c) <= g)%R ->
           (0 < M3 - 2 * g * M5 + g * g * M7)%R)
  /\ ((exists j1 j2, (kMin <= j1 < j2)%nat /\ (j2 < kMin + c)%nat
                     /\ accumulated_bin psd j1 /\ accumulated_bin psd j2) ->
      (0 < M3 * M7 - M5 * M5)%R).

(** Element [t] of the vector the orthogonalizer makes of [f]. *)
Definition orthogonalized (f : REAL4Vector) (t : nat) : option REAL :=
  let n := length f in
  if decide (1 <= t < n / 2)%nat then fneg <$> f !! (n - t)%nat
  else if decide (n - n / 2 < t < n)%nat then f !! (n - t)%nat
  else f !! t.

(** The inner product of two vectors: the sum of the products of their
    elements. *)
Definition inner_product (u v : list REAL) : REAL :=
  foldr fadd fzero (zip_with fmul u v).

(** The real value of element [t] of a vector, 0 where there is none. *)
Definition real_at (v : list REAL) (t : nat) : R :=
  match v !! t with Some (Fin r) => r | _ => 0%R end.

(** The sum of [h t] for [i <= t < i + c]. *)
Definition Rsum (h : nat -> R) (i c : nat) : R :=
  foldr Rplus 0%R (map h (seq i c)).

(** The best match once the candidates [results] have been offered to
    [KeepHighestValues] one after the other, starting from the record
    [BEInitOverlapOutputIn] makes: what the loop of [main] over the bank
    leaves in [OverlapOutputBestTemplate], given the result of each
    template. *)
Definition best_of (results : list OverlapOutputIn) : OverlapOutputIn :=
  foldl (fun best this => KeepHighestValues this best)
    BEInitOverlapOutputIn results.

(** The input of the correlation of the signal with [filter], as
    [LALWaveOverlapBCV] sets it up from [overlapin]. *)
Definition correlation_input (overlapin : InspiralWaveOverlapIn)
    (filter : REAL4Vector) : InspiralWaveCorrelateIn :=
  {| corr_fCutoff := fFinal (param overlapin);
     samplingRate := tSampling (param overlapin);
     df := fdiv (tSampling (param overlapin))
                (of_Z (Z.of_nat (length (signal overlapin))));
     corr_psd := psd overlapin;
     signal1 := signal overlapin;
     signal2 := filter |}.

(** The angle [thetab] that [LALWaveOverlapBCV] computes from the moments
    of the cutoff bin and the cutoff frequency. *)
Definition overlap_thetab (c11 c21 c22 fFinal_ : REAL) : REAL :=
  fatan (fdiv (fneg (fmul c11 (fpow fFinal_ (fdiv (Fin (-2)) (Fin 3)))))
              (fadd c22 (fmul c21 (fpow fFinal_ (fdiv (Fin (-2)) (Fin 3)))))).

(** The state of the maximization loop when it starts. *)
Definition initial_maxima (correlation : REAL4Vector) : MaxLoop :=
  {| rhoMaxConstraint := Fin 0; rhoBinConstraint := 0;
     phaseConstraint := Fin 0; alphaConstraint := Fin 0;
     rhoMaxUnconstraint := Fin 0; rhoBinUnconstraint := 0;
     phaseUnconstraint := Fin 0; alphaUnconstraint := Fin 0;
     correlation := correlation |}.

(** The quantities of sample [i] of the four correlations: the angle
    [thetav], the constrained SNR (or the exit of the program), the
    unconstrained SNR and the value [alphaF] compared with 1. *)
Definition sample_thetav (x1 x2 x3 x4 : REAL4Vector) (i : nat) : option REAL :=
  s1 ← load x1 i;
  s2 ← load x2 i;
  s3 ← load x3 i;
  s4 ← load x4 i;
  Some (fatan2 (sample_V2 s1 s2 s3 s4) (sample_V1 s1 s2 s3 s4)).

Definition sample_constrained_snr (x1 x2 x3 x4 : REAL4Vector) (thetab : REAL)
    (i : nat) : outcome REAL :=
  s1 ← defined (load x1 i);
  s2 ← defined (load x2 i);
  s3 ← defined (load x3 i);
  s4 ← defined (load x4 i);
  constrained_snr thetab
    (fatan2 (sample_V2 s1 s2 s3 s4) (sample_V1 s1 s2 s3 s4))
    (sample_V0 s1 s2 s3 s4) (sample_V1 s1 s2 s3 s4) (sample_V2 s1 s2 s3 s4) i.

Definition sample_unconstrained_snr (x1 x2 x3 x4 : REAL4Vector) (i : nat)
  : option REAL :=
  s1 ← load x1 i;
  s2 ← load x2 i;
  s3 ← load x3 i;
  s4 ← load x4 i;
  Some (rho_unconstraint (sample_V0 s1 s2 s3 s4) (sample_V1 s1 s2 s3 s4)
          (sample_V2 s1 s2 s3 s4)).

Definition sample_alphaF (x1 x2 x3 x4 : REAL4Vector) (c11 c21 c22 fp23 : REAL)
    (i : nat) : option REAL :=
  thetav ← sample_thetav x1 x2 x3 x4 i;
  Some (fmul (alpha_of c11 c21 c22 (fmul (Fin (1 / 2)) thetav)) fp23).

(** What the maximization loop has established about the constrained
    maximum once the samples [a <= i < j] are processed, from the state
    [st0]: no processed sample beats the running maximum, and the running
    maximum is still the initial one or the constrained SNR of a processed
    sample, the first one that reaches it, whose index and half angle are
    the recorded bin and phase. *)
Definition constrained_maximum_upto (x1 x2 x3 x4 : REAL4Vector) (tb : REAL)
    (a : nat) (st0 : MaxLoop) (j : nat) (st : MaxLoop) : Prop :=
  (forall i, (a <= i < j)%nat ->
     exists rho, sample_constrained_snr x1 x2 x3 x4 tb i = Returned rho
                 /\ fgt rho (rhoMaxConstraint st) = false)
  /\ ((rhoMaxConstraint st = rhoMaxConstraint st0
       /\ rhoBinConstraint st = rhoBinConstraint st0
       /\ phaseConstraint st = phaseConstraint st0)
      \/ exists i thetav, (a <= i < j)%nat
           /\ sample_constrained_snr x1 x2 x3 x4 tb i
              = Returned (rhoMaxConstraint st)
           /\ rhoBinConstraint st = Z.of_nat i
           /\ sample_thetav x1 x2 x3 x4 i = Some thetav
           /\ phaseConstraint st = fmul (Fin (1 / 2)) thetav
           /\ sector_decision tb thetav <> SectorNone
           /\ flt (rhoMaxConstraint st0) (rhoMaxConstraint st) = true
           /\ forall i', (a <= i' < i)%nat ->
                exists rho',
                  sample_constrained_snr x1 x2 x3 x4 tb i' = Returned rho'
                  /\ fle (rhoMaxConstraint st) rho' = false).

(** The same for the unconstrained maximum, which only takes the samples
    whose [alphaF] is at most 1. *)
Definition unconstrained_maximum_upto (x1 x2 x3 x4 : REAL4Vector)
    (c11 c21 c22 tb fp23 : REAL) (a : nat) (st0 : MaxLoop) (j : nat)
    (st : MaxLoop) : Prop :=
  (forall i, (a <= i < j)%nat ->
     exists rhoU aF,
       sample_unconstrained_snr x1 x2 x3 x4 i = Some rhoU
       /\ sample_alphaF x1 x2 x3 x4 c11 c21 c22 fp23 i = Some aF
       /\ (fle aF (Fin 1) = true ->
           fgt rhoU (rhoMaxUnconstraint st) = false))
  /\ ((rhoMaxUnconstraint st = rhoMaxUnconstraint st0
       /\ rhoBinUnconstraint st = rhoBinUnconstraint st0
       /\ phaseUnconstraint st = phaseUnconstraint st0)
      \/ exists i thetav aF, (a <= i < j)%nat
           /\ sample_unconstrained_snr x1 x2 x3 x4 i
              = Some (rhoMaxUnconstraint st)
           /\ sample_alphaF x1 x2 x3 x4 c11 c21 c22 fp23 i = Some aF
           /\ fle aF (Fin 1) = true
           /\ rhoBinUnconstraint st = Z.of_nat i
           /\ sample_thetav x1 x2 x3 x4 i = Some thetav
           /\ phaseUnconstraint st = fmul (Fin (1 / 2)) thetav
           /\ sector_decision tb thetav <> SectorNone
           /\ flt (rhoMaxUnconstraint st0) (rhoMaxUnconstraint st) = true).

(** ** Concrete inputs used to exercise the functions *)

(** A state of the maximizer on vectors of four samples: sampling rate 4,
    cutoff frequency 1, so the cutoff bin is [k = 1]. *)
Definition example_overlap_state : OverlapState :=
  {| st_correlation := replicate 4 (Fin 0);
     st_overlapin :=
       {| nBegin := 0; nEnd := 0; psd := []; signal := replicate 4 (Fin 0);
          param := {| fLower := Fin 1; tSampling := Fin 4; fFinal := Fin 1;
                      fCutoff := Fin 1; psi0 := Fin 0; psi3 := Fin 0;
                      nStartPad := 5; startPhase := Fin 3 |} |};
     st_FilterBCV1 := [Fin 1; Fin 2; Fin 3; Fin 4];
     st_FilterBCV2 := [Fin 5; Fin 6; Fin 7; Fin 8];
     st_OverlapOutput := BEInitOverlapOutputIn |}.

Definition example_otherIn : OtherParamIn :=
  {| printBestOverlap := false; extraFinalPrinting := false;
     printSNRHisto := false; alphaFConstraint := ALPHAFConstraint |}.

Definition example_moments : BEMoments :=
  {| a11 := [Fin 1; Fin 1]; a22 := [Fin 1; Fin 1]; a21 := [Fin 0; Fin 0] |}.

(** A correlation that always succeeds and returns four samples 1. *)
Definition example_correlate (c : InspiralWaveCorrelateIn)
  : bool * list REAL :=
  (true, replicate 4 (Fin 1)).

(** A template with sampling rate 4. *)
Definition example_template : InspiralTemplate :=
  {| fLower := Fin 1; tSampling := Fin 4; fFinal := Fin 1; fCutoff := Fin 1;
     psi0 := Fin 0; psi3 := Fin 0; nStartPad := 0; startPhase := Fin 0 |}.

(** A noise spectrum with bins of width 1 starting at frequency 0, whose
    bin 2 has no power. *)
Definition example_psd : REAL8FrequencySeries :=
  {| f0 := Fin 0; deltaF := Fin 1;
     data := [Fin 1; Fin 1; Fin 0; Fin 1; Fin 1] |}.

(** A template with lower cutoff 1 and sampling rate 8: for [example_psd]
    the cutoff bin is 1 and the Nyquist bin is 4. *)
Definition example_moment_template : InspiralTemplate :=
  {| fLower := Fin 1; tSampling := Fin 8; fFinal := Fin 1; fCutoff := Fin 1;
     psi0 := Fin 0; psi3 := Fin 0; nStartPad := 0; startPhase := Fin 0 |}.

(** A template whose lower cutoff 3 is beyond the Nyquist frequency 2 of
    its sampling rate 4. *)
Definition example_invalid_template : InspiralTemplate :=
  {| fLower := Fin 3; tSampling := Fin 4; fFinal := Fin 1; fCutoff := Fin 1;
     psi0 := Fin 0; psi3 := Fin 0; nStartPad := 0; startPhase := Fin 0 |}.

(** Power vectors and moments of four elements 1, and two filters of
    eight samples that hold the value 7 left by an earlier template. *)
Definition example_powers : BEPowerVector :=
  {| fm5_3 := replicate 4 (Fin 1); fm2_3 := replicate 4 (Fin 1);
     fm7_6 := replicate 4 (Fin 1); fm1_2 := replicate 4 (Fin 1) |}.

Definition example_unit_moments : BEMoments :=
  {| a11 := replicate 4 (Fin 1); a22 := replicate 4 (Fin 1);
     a21 := replicate 4 (Fin 1) |}.

Definition example_filter : REAL4Vector := replicate 8 (Fin 7).

(** A correlation that returns the samples of [example_correlate] but
    reports an error when the last sample of the filter is 6: of the four
    filters correlated for [example_overlap_state], only the orthogonal
    second filter [5; -8; 7; 6]. *)
Definition example_failing_correlate (c : InspiralWaveCorrelateIn)
  : bool * list REAL :=
  (match signal2 c !! 3%nat with
   | Some (Fin r) => if Req_dec_T r 6 then false else true
   | _ => true
   end,
   replicate 4 (Fin 1)).

(** A bank of one template and the state of the maximizer above; and a
    signal whose lower cutoff 1/2 is below the bin width 1 that its
    sampling rate 4 gives for filters of four samples. *)
Definition example_bank_state : BankState :=
  {| bank_list := [ {| params := example_template |} ];
     bank_overlap := example_overlap_state |}.


(** A template with sampling rate 16: for [example_psd], which has five
    samples, the Nyquist bin is 8. *)
Definition example_fast_template : InspiralTemplate :=
  {| fLower := Fin 1; tSampling := Fin 16; fFinal := Fin 1; fCutoff := Fin 1;
     psi0 := Fin 0; psi3 := Fin 0; nStartPad := 0; startPhase := Fin 0 |}.

(** The size of the correlations of a weak sample: [2 ^ -50], whose
    fourth power is below the smallest positive [REAL4] value. *)
Definition example_scale : R := powerRZ 2 (- 50).

(** * Properties *)

(** Case analysis on the comparisons of real numbers in the goal. *)
Ltac decide_reals :=
  repeat match goal with
         | |- context [Rle_dec ?a ?b] =>
             destruct (Rle_dec a b); cbn [andb orb]
         | |- context [Rlt_dec ?a ?b] =>
             destruct (Rlt_dec a b); cbn [andb orb]
         end.

(** ** The best-match tracker *)

(** C8.  [KeepHighestValues] replaces the whole constrained sub-record by
    the candidate's exactly when the candidate's [rhoMax] is strictly
    greater than the best's, and leaves every field of it unchanged
    otherwise; independently, the same holds for the unconstrained
    sub-record and [rhoMaxU]. *)
Theorem KeepHighestValues_merge (this best : OverlapOutputIn) :
  constrained_part (KeepHighestValues this best) =
    (if fgt (rhoMax this) (rhoMax best)
     then constrained_part this else constrained_part best)
  /\ unconstrained_part (KeepHighestValues this best) =
    (if fgt (rhoMaxU this) (rhoMaxU best)
     then unconstrained_part this else unconstrained_part best).
Proof.
  unfold KeepHighestValues, constrained_part, unconstrained_part.
  destruct (fgt (rhoMax this) (rhoMax best)) eqn:Hc; cbn [rhoMaxU];
    destruct (fgt (rhoMaxU this) (rhoMaxU best)) eqn:Hu; cbn; auto.
Qed.

(** ** Loops *)

Lemma for_loop_snoc {St : Type} (body : nat -> St -> option St)
    (c i : nat) (s : St) :
  for_loop body i (S c) s = for_loop body i c s ≫= body (i + c)%nat.
Proof.
  revert i s. induction c as [|c IH]; intros i s.
  - cbn. rewrite Nat.add_0_r. destruct (body i s); reflexivity.
  - change (for_loop body i (S (S c)) s)
      with (match body i s with
            | Some s' => for_loop body (S i) (S c) s'
            | None => None
            end).
    destruct (body i s) as [s'|] eqn:Hb.
    + rewrite IH. cbn [for_loop]. rewrite Hb.
      replace (S i + c)%nat with (i + S c)%nat by lia. reflexivity.
    + cbn [for_loop]. rewrite Hb. reflexivity.
Qed.

Lemma store_Some (v : REAL4Vector) (i : nat) (x : REAL) :
  (i < length v)%nat -> store v i x = Some (<[i:=x]> v).
Proof. intros H. unfold store. rewrite decide_True; auto. Qed.

Lemma store_inv (v v' : REAL4Vector) (i : nat) (x : REAL) :
  store v i x = Some v' -> (i < length v)%nat /\ v' = <[i:=x]> v.
Proof.
  unfold store. destruct (decide (i < length v)%nat); intros H;
    inversion H; auto.
Qed.

(** ** The orthogonalizer *)

Lemma orthogonal_body_step (f d : REAL4Vector) (j : nat) :
  (1 <= j)%nat -> (j < length f / 2)%nat ->
  length d = length f ->
  (forall t, d !! t = orthogonal_upto f j t) ->
  exists d', orthogonal_body (length f) j d = Some d'
    /\ length d' = length f
    /\ forall t, d' !! t = orthogonal_upto f (S j) t.
Proof.
  intros Hj1 Hj2 Hlen Hinv.
  set (n := length f) in *.
  assert (Hn : (2 * j + 1 < n)%nat).
  { pose proof (Nat.div_mod_eq n 2) as Hd.
    pose proof (Nat.mod_upper_bound n 2). lia. }
  assert (Hdj : d !! j = f !! j).
  { rewrite Hinv. unfold orthogonal_upto. fold n.
    rewrite decide_False by lia. rewrite decide_False by lia. reflexivity. }
  assert (Hdnj : d !! (n - j)%nat = f !! (n - j)%nat).
  { rewrite Hinv. unfold orthogonal_upto. fold n.
    rewrite decide_False by lia. rewrite decide_False by lia. reflexivity. }
  destruct (lookup_lt_is_Some_2 f j) as [xj Hxj]; [fold n; lia|].
  destruct (lookup_lt_is_Some_2 f (n - j)) as [xn Hxn]; [fold n; lia|].
  exists (<[(n - j)%nat := xj]> (<[j := fneg xn]> d)).
  split; [|split].
  - unfold orthogonal_body, load. rewrite Hdj, Hxj. cbn.
    rewrite Hdnj, Hxn. cbn.
    rewrite store_Some by lia. cbn.
    rewrite store_Some by (rewrite length_insert; lia). reflexivity.
  - rewrite !length_insert. exact Hlen.
  - intros t. unfold orthogonal_upto. fold n.
    destruct (decide (t = (n - j)%nat)) as [->|Hne1].
    + rewrite list_lookup_insert_eq by (rewrite length_insert; lia).
      rewrite decide_False by lia. rewrite decide_True by lia.
      replace (n - (n - j))%nat with j by lia. auto.
    + rewrite list_lookup_insert_ne by auto.
      destruct (decide (t = j)) as [->|Hne2].
      * rewrite list_lookup_insert_eq by lia.
        rewrite decide_True by lia. rewrite Hxn. reflexivity.
      * rewrite list_lookup_insert_ne by auto.
        rewrite Hinv. unfold orthogonal_upto. fold n.
        repeat case_decide; try lia; reflexivity.
Qed.

Lemma orthogonal_loop (f : REAL4Vector) (c : nat) :
  (1 + c <= Nat.max 1 (length f / 2))%nat ->
  exists d', for_loop (orthogonal_body (length f)) 1 c f = Some d'
    /\ length d' = length f
    /\ forall t, d' !! t = orthogonal_upto f (1 + c) t.
Proof.
  induction c as [|c IH]; intros Hc.
  - exists f. split; [reflexivity|]. split; [reflexivity|].
    intros t. unfold orthogonal_upto.
    rewrite decide_False by lia. rewrite decide_False by lia. reflexivity.
  - destruct IH as (d & Hd & Hlen & Hinv); [lia|].
    destruct (orthogonal_body_step f d (1 + c)) as (d' & Hb & Hlen' & Hinv');
      auto; try lia.
    exists d'. split; [|split]; auto.
    rewrite for_loop_snoc, Hd. cbn. exact Hb.
Qed.

(** The orthogonalizer never leaves the vector and computes the closed
    form [orthogonal_upto] at [n/2]. *)
Lemma LALGetOrthogonalFilterBCV2_spec (f : REAL4Vector) :
  exists g, LALGetOrthogonalFilterBCV2 f = Some g
    /\ length g = length f
    /\ forall t, g !! t = orthogonal_upto f (Nat.max 1 (length f / 2)) t.
Proof.
  unfold LALGetOrthogonalFilterBCV2, for_range.
  destruct (orthogonal_loop f (length f / 2 - 1)) as (g & Hg & Hlen & Hinv);
    [lia|].
  exists g. split; [exact Hg|]. split; [exact Hlen|].
  intros t. rewrite Hinv. f_equal. lia.
Qed.

(** On five entries the loop runs once: bins 1 and 4 are swapped with a
    change of sign, bins 0, 2 and 3 are left alone. *)
Example LALGetOrthogonalFilterBCV2_five :
  LALGetOrthogonalFilterBCV2 [Fin 1; Fin 2; Fin 3; Fin 4; Fin 5]
  = Some [Fin 1; Fin (- 5); Fin 3; Fin 4; Fin 2].
Proof. reflexivity. Qed.

(** C5, as amended.  Applying [LALGetOrthogonalFilterBCV2] twice gives
    back every entry up to a sign that depends on the index: the entries
    at the swapped bins [1 <= i < N/2] and [N - N/2 < i < N] come back
    negated, the entries at index 0 and at the middle (index N/2) come
    back unchanged.  The result is in general neither the original vector
    nor its opposite. *)
Theorem LALGetOrthogonalFilterBCV2_twice (f : list REAL) :
  exists g h,
    LALGetOrthogonalFilterBCV2 f = Some g
    /\ LALGetOrthogonalFilterBCV2 g = Some h
    /\ length h = length f
    /\ forall (i : nat) (x : REAL), f !! i = Some x ->
         h !! i = Some (if swapped_bin (length f) i then fneg x else x)
         /\ (h !! i = Some x \/ h !! i = Some (fneg x)).
Proof.
  destruct (LALGetOrthogonalFilterBCV2_spec f) as (g & Hg & Hlg & Hgt).
  destruct (LALGetOrthogonalFilterBCV2_spec g) as (h & Hh & Hlh & Hht).
  exists g, h. split; [exact Hg|]. split; [exact Hh|].
  split; [congruence|].
  intros i x Hx.
  assert (Hi : (i < length f)%nat) by (eapply lookup_lt_Some; eauto).
  assert (Hmain : h !! i =
            Some (if swapped_bin (length f) i then fneg x else x)).
  { rewrite Hht, Hlg. unfold orthogonal_upto. rewrite Hlg.
    set (n := length f) in *. set (q := (n / 2)%nat).
    assert (Hq : (2 * q <= n)%nat).
    { pose proof (Nat.div_mod_eq n 2). fold q in H. lia. }
    unfold swapped_bin. fold n q.
    destruct (decide (1 <= i < Nat.max 1 q)%nat) as [H1|H1].
    - rewrite bool_decide_eq_true_2 by lia.
      rewrite Hgt. unfold orthogonal_upto. fold n q.
      rewrite decide_False by lia. rewrite decide_True by lia.
      replace (n - (n - i))%nat with i by lia. rewrite Hx. reflexivity.
    - destruct (decide (n - Nat.max 1 q < i < n)%nat) as [H2|H2].
      + rewrite bool_decide_eq_true_2 by lia.
        rewrite Hgt. unfold orthogonal_upto. fold n q.
        rewrite decide_True by lia.
        replace (n - (n - i))%nat with i by lia. rewrite Hx. reflexivity.
      + rewrite bool_decide_eq_false_2 by lia.
        rewrite Hgt. unfold orthogonal_upto. fold n q.
        rewrite decide_False by lia. rewrite decide_False by lia.
        exact Hx. }
  split; [exact Hmain|].
  rewrite Hmain. destruct (swapped_bin (length f) i); auto.
Qed.

(** C5 as stated fails: on four entries the loop runs once and swaps
    bins 1 and 3 with a change of sign, so [1; 2; 3; 4] becomes
    [1; -4; 3; 2] and then [1; -2; 3; -4].  Bins 0 and 2 kept their sign
    and bins 1 and 3 changed it: two applications give neither the
    original vector nor the original vector with the other sign. *)
Lemma LALGetOrthogonalFilterBCV2_twice_counterexample :
  let f := [Fin 1; Fin 2; Fin 3; Fin 4] in
  exists g h,
    LALGetOrthogonalFilterBCV2 f = Some g
    /\ LALGetOrthogonalFilterBCV2 g = Some h
    /\ g = [Fin 1; Fin (- 4); Fin 3; Fin 2]
    /\ h = [Fin 1; Fin (- 2); Fin 3; Fin (- 4)]
    /\ h <> f
    /\ h <> map fneg f.
Proof.
  cbv zeta.
  exists [Fin 1; Fin (- 4); Fin 3; Fin 2], [Fin 1; Fin (- 2); Fin 3; Fin (- 4)].
  split; [reflexivity|]. split; [reflexivity|].
  split; [reflexivity|]. split; [reflexivity|]. split.
  - intros E. injection E as E2 _. lra.
  - cbn [map fneg]. intros E. injection E as E1 _. lra.
Qed.

(** ** The filter pair constructor *)

Lemma filters_zero_body_inv (i : nat) (fs gs : list REAL * list REAL) :
  filters_zero_body i fs = Some gs ->
  (i < length fs.1)%nat /\ (i < length fs.2)%nat
  /\ gs = (<[i:=fzero]> fs.1, <[i:=fzero]> fs.2).
Proof.
  unfold filters_zero_body. intros H.
  destruct (store fs.1 i fzero) as [f1|] eqn:H1; [|discriminate].
  destruct (store fs.2 i fzero) as [f2|] eqn:H2; [|discriminate].
  apply store_inv in H1 as [? ->]. apply store_inv in H2 as [? ->].
  cbn in H. inversion H. auto.
Qed.

Lemma filters_zero_loop (c i : nat) (fs gs : list REAL * list REAL) :
  for_loop filters_zero_body i c fs = Some gs ->
  length gs.1 = length fs.1 /\ length gs.2 = length fs.2
  /\ (forall t, (t < i \/ i + c <= t)%nat ->
        gs.1 !! t = fs.1 !! t /\ gs.2 !! t = fs.2 !! t)
  /\ (forall t, (i <= t < i + c)%nat ->
        gs.1 !! t = Some fzero /\ gs.2 !! t = Some fzero).
Proof.
  revert i fs. induction c as [|c IH]; intros i fs H.
  - cbn in H. inversion H; subst. repeat split; auto; intros; lia.
  - cbn [for_loop] in H.
    destruct (filters_zero_body i fs) as [fs'|] eqn:Hb; [|discriminate].
    apply filters_zero_body_inv in Hb as (Hi1 & Hi2 & ->).
    apply IH in H as (Hl1 & Hl2 & Hframe & Hzero). cbn [fst snd] in *.
    rewrite length_insert in Hl1, Hl2.
    split; [exact Hl1|]. split; [exact Hl2|]. split.
    + intros t Ht. destruct (Hframe t) as [E1 E2]; [lia|].
      rewrite E1, E2. rewrite !list_lookup_insert_ne by lia. auto.
    + intros t Ht. destruct (decide (t = i)) as [->|Hne].
      * destruct (Hframe i) as [E1 E2]; [lia|].
        rewrite E1, E2. rewrite !list_lookup_insert_eq by lia. auto.
      * apply Hzero. lia.
Qed.

Lemma filters_fill_body_inv (pv : BEPowerVector) (n : nat)
    (c11 c21 c22 p0 p3 : REAL) (i : nat) (fs gs : list REAL * list REAL) :
  filters_fill_body pv n c11 c21 c22 p0 p3 i fs = Some gs ->
  exists v1 w1 v2 w2,
    gs = (<[(n - i)%nat := w1]> (<[i := v1]> fs.1),
          <[(n - i)%nat := w2]> (<[i := v2]> fs.2))
    /\ (i < length fs.1)%nat /\ (n - i < length fs.1)%nat
    /\ (i < length fs.2)%nat /\ (n - i < length fs.2)%nat.
Proof.
  unfold filters_fill_body, load. intros H.
  destruct (fm5_3 pv !! i) as [x53|]; [|discriminate]. cbn in H.
  destruct (fm2_3 pv !! i) as [x23|]; [|discriminate]. cbn in H.
  destruct (fm7_6 pv !! i) as [x76|]; [|discriminate]. cbn in H.
  match type of H with
  | context [store fs.1 i ?v] =>
      destruct (store fs.1 i v) as [f1|] eqn:H1; [|discriminate]
  end. cbn in H.
  match type of H with
  | context [store f1 (n - i)%nat ?v] =>
      destruct (store f1 (n - i)%nat v) as [f1'|] eqn:H1'; [|discriminate]
  end. cbn in H.
  destruct (fm1_2 pv !! i) as [x12|]; [|discriminate]. cbn in H.
  match type of H with
  | context [store fs.2 i ?v] =>
      destruct (store fs.2 i v) as [f2|] eqn:H2; [|discriminate]
  end. cbn in H.
  match type of H with
  | context [store f2 (n - i)%nat ?v] =>
      destruct (store f2 (n - i)%nat v) as [f2'|] eqn:H2'; [|discriminate]
  end. cbn in H.
  apply store_inv in H1 as [? ->]. apply store_inv in H1' as [? ->].
  apply store_inv in H2 as [? ->]. apply store_inv in H2' as [? ->].
  rewrite length_insert in *.
  inversion H. do 4 eexists. split; [reflexivity|]. auto.
Qed.

(** The second loop writes the bins [i, i + c) and their mirror images
    only. *)
Lemma filters_fill_loop (pv : BEPowerVector) (n : nat)
    (c11 c21 c22 p0 p3 : REAL) (c i : nat) (fs gs : list REAL * list REAL) :
  for_loop (filters_fill_body pv n c11 c21 c22 p0 p3) i c fs = Some gs ->
  (i + c <= n)%nat ->
  forall t, (t < i \/ i + c <= t)%nat -> (t + (i + c) <= n \/ n < t + i)%nat ->
    gs.1 !! t = fs.1 !! t /\ gs.2 !! t = fs.2 !! t.
Proof.
  revert i fs. induction c as [|c IH]; intros i fs H Hc t Ht Hm.
  - cbn in H. inversion H; subst. auto.
  - cbn [for_loop] in H.
    destruct (filters_fill_body pv n c11 c21 c22 p0 p3 i fs) as [fs'|] eqn:Hb;
      [|discriminate].
    apply filters_fill_body_inv in Hb
      as (v1 & w1 & v2 & w2 & -> & Hi1 & Hn1 & Hi2 & Hn2).
    destruct (IH _ _ H) with (t := t) as [E1 E2]; [lia|lia|lia|].
    rewrite E1, E2. cbn [fst snd].
    rewrite !list_lookup_insert_ne by lia. auto.
Qed.

(** What [LALCreateFilters] does below [kMin]: the first loop stops at
    [kMin - 1], so the bins [0 .. kMin - 2] are set to zero and the bin
    [kMin - 1] keeps whatever the buffers held before the call. *)
Lemma LALCreateFilters_below_kMin (F1 F2 : list REAL) (pv : BEPowerVector)
    (mo : BEMoments) (kMin kMax : Z) (p0 p3 : REAL) (G1 G2 : list REAL) :
  (1 <= kMin < UINT4_MAX1)%Z ->
  LALCreateFilters F1 F2 pv mo kMin kMax p0 p3 = Some (G1, G2) ->
  (forall t, (Z.of_nat t < kMin - 1)%Z ->
     G1 !! t = Some fzero /\ G2 !! t = Some fzero)
  /\ G1 !! Z.to_nat (kMin - 1) = F1 !! Z.to_nat (kMin - 1)
  /\ G2 !! Z.to_nat (kMin - 1) = F2 !! Z.to_nat (kMin - 1).
Proof.
  intros Hk H. unfold LALCreateFilters, load, for_range in H.
  destruct (a11 mo !! Z.to_nat kMax) as [c11|]; [|discriminate].
  destruct (a22 mo !! Z.to_nat kMax) as [c22|]; [|discriminate].
  destruct (a21 mo !! Z.to_nat kMax) as [c21|]; [|discriminate].
  cbn [mbind option_bind] in H.
  rewrite Z.mod_small in H by (unfold UINT4_MAX1 in *; lia).
  destruct (for_loop filters_zero_body 0
              (Z.to_nat (kMin - 1) - 0) (F1, F2)) as [fs|] eqn:Hz;
    [|discriminate].
  cbn [mbind option_bind] in H.
  apply filters_zero_loop in Hz as (Hl1 & Hl2 & Hframe & Hzero).
  cbn [fst snd] in *.
  set (n := length F1) in *. set (q := (n / 2)%nat) in *.
  assert (Hq : (2 * q <= n)%nat).
  { pose proof (Nat.div_mod_eq n 2) as Hd. fold q in Hd. lia. }
  assert (Hkeep : forall t, (t < Z.to_nat kMin)%nat ->
            G1 !! t = fs.1 !! t /\ G2 !! t = fs.2 !! t).
  { intros t Ht. destruct (decide (Z.to_nat kMin <= q)%nat) as [Hle|Hgt].
    - apply (filters_fill_loop _ _ _ _ _ _ _ _ _ _ _ H); lia.
    - replace (q - Z.to_nat kMin)%nat with 0%nat in H by lia.
      cbn in H. inversion H; subst. auto. }
  split; [|split].
  - intros t Ht. destruct (Hkeep t) as [E1 E2]; [lia|].
    rewrite E1, E2. apply Hzero. lia.
  - destruct (Hkeep (Z.to_nat (kMin - 1))) as [E1 _]; [lia|].
    rewrite E1. apply Hframe. lia.
  - destruct (Hkeep (Z.to_nat (kMin - 1))) as [_ E2]; [lia|].
    rewrite E2. apply Hframe. lia.
Qed.

(** C3.  A run of [LALCreateFilters] on reused buffers: the vectors have
    length 8, [kMin = 2], and both buffers hold 7 everywhere before the
    call.  The call succeeds; afterwards bin 0 is zero but bin 1, which is
    below [kMin], still holds 7 in both filters. *)
Theorem LALCreateFilters_reused_buffer :
  let old := replicate 8 (Fin 7) in
  let ones := replicate 4 (Fin 1) in
  let pv := {| fm5_3 := ones; fm2_3 := ones; fm7_6 := ones; fm1_2 := ones |} in
  let mo := {| a11 := ones; a22 := ones; a21 := ones |} in
  exists G1 G2,
    LALCreateFilters old old pv mo 2 3 (Fin 0) (Fin 0) = Some (G1, G2)
    /\ G1 !! 0%nat = Some fzero /\ G2 !! 0%nat = Some fzero
    /\ G1 !! 1%nat = Some (Fin 7) /\ G2 !! 1%nat = Some (Fin 7)
    /\ Fin 7 <> fzero.
Proof.
  cbv zeta. eexists. eexists.
  split; [reflexivity|].
  repeat split.
  unfold fzero. intros H. inversion H. lra.
Qed.

(** ** Arithmetic on finite values *)

Section FiniteArithmetic.
Local Open Scope R_scope.

Lemma Rsgn_pos (x : R) : 0 < x -> Rsgn x = Gt.
Proof.
  intros H. unfold Rsgn.
  destruct (total_order_T x 0) as [[Hlt|Heq]|Hgt]; auto; lra.
Qed.

Lemma Rsgn_neg (x : R) : x < 0 -> Rsgn x = Lt.
Proof.
  intros H. unfold Rsgn.
  destruct (total_order_T x 0) as [[Hlt|Heq]|Hgt]; auto; lra.
Qed.

Lemma Rsgn_zero : Rsgn 0 = Eq.
Proof.
  unfold Rsgn.
  destruct (total_order_T 0 0) as [[Hlt|Heq]|Hgt]; auto; lra.
Qed.

Lemma fdiv_fin (x y : R) : y <> 0 -> fdiv (Fin x) (Fin y) = Fin (x / y).
Proof.
  intros H. unfold fdiv. destruct (Req_dec_T y 0); [contradiction|reflexivity].
Qed.

Lemma fsqrt_fin (x : R) : 0 <= x -> fsqrt (Fin x) = Fin (sqrt x).
Proof.
  intros H. unfold fsqrt. destruct (Rlt_dec x 0); [lra|reflexivity].
Qed.

Lemma fpow_fin (x y : R) :
  0 < x -> y <> 0 -> fpow (Fin x) (Fin y) = Fin (Rpower x y).
Proof.
  intros Hx Hy. unfold fpow.
  destruct (Req_dec_T y 0); [contradiction|].
  rewrite Rsgn_pos by assumption. reflexivity.
Qed.

Lemma fle_fin (x y : R) : fle (Fin x) (Fin y) = true <-> x <= y.
Proof.
  unfold fle. destruct (Rle_dec x y); split; auto; discriminate.
Qed.

Lemma flt_fin (x y : R) : flt (Fin x) (Fin y) = true <-> x < y.
Proof.
  unfold flt. destruct (Rlt_dec x y); split; auto; discriminate.
Qed.

Lemma fle_fin_false (x y : R) : fle (Fin x) (Fin y) = false <-> y < x.
Proof.
  unfold fle. destruct (Rle_dec x y); split; auto; try discriminate; lra.
Qed.


Lemma ftruth_fin (x : R) : ftruth (Fin x) = true <-> x <> 0.
Proof.
  unfold ftruth. destruct (Req_dec_T x 0); split; auto; try discriminate;
    try contradiction.
Qed.

Lemma ftruth_false (p : REAL) : ftruth p = false <-> p = Fin 0.
Proof.
  unfold ftruth. destruct p as [x| | |]; try (split; discriminate).
  destruct (Req_dec_T x 0); split; auto; try discriminate.
  - intros _. subst. reflexivity.
  - intros H. inversion H. contradiction.
Qed.

(** [atan] never returns an infinity. *)
Lemma fatan_cases (t : REAL) :
  fatan t = NaN \/ exists th, fatan t = Fin th /\ - PI / 2 <= th <= PI / 2.
Proof.
  destruct t as [x| | |]; cbn [fatan]; auto; right.
  - exists (atan x). split; auto. pose proof (atan_bound x). lra.
  - exists (PI / 2). split; auto. pose proof PI_RGT_0. lra.
  - exists (- (PI / 2)). split; auto. pose proof PI_RGT_0. lra.
Qed.

(** [atan2] of two finite values is an angle in [-PI, PI]. *)
Lemma fatan2_fin (y x : R) :
  exists th, fatan2 (Fin y) (Fin x) = Fin th /\ - PI <= th <= PI.
Proof.
  pose proof PI_RGT_0 as Hpi. pose proof (atan_bound (y / x)) as Hb.
  unfold fatan2.
  destruct (total_order_T x 0) as [[Hlt|Heq]|Hgt].
  - rewrite Rsgn_neg by assumption.
    assert (Hx : / x < 0) by (apply Rinv_lt_0_compat; assumption).
    destruct (Rlt_dec y 0) as [Hy|Hy].
    + eexists. split; [reflexivity|].
      assert (0 < y / x) by (unfold Rdiv; nra).
      assert (0 < atan (y / x)).
      { rewrite <- atan_0. apply atan_increasing. assumption. }
      lra.
    + eexists. split; [reflexivity|].
      assert (y / x <= 0) by (unfold Rdiv; nra).
      assert (atan (y / x) <= 0).
      { rewrite <- atan_0. destruct H as [H|H].
        - left. apply atan_increasing. assumption.
        - right. rewrite H. reflexivity. }
      lra.
  - subst x. rewrite Rsgn_zero.
    destruct (Rsgn y); eexists; (split; [reflexivity|lra]).
  - rewrite Rsgn_pos by assumption.
    eexists. split; [reflexivity|]. lra.
Qed.

End FiniteArithmetic.

(** ** The sector decision of the maximizer *)

(** For a finite boundary angle and an angle [thetav] within the
    tolerance of [-PI, PI], one of the three sectors is selected. *)
Lemma sector_decision_total (thetab thetav : R) :
  (- PI - 1 / 10000 <= thetav <= PI + 1 / 10000)%R ->
  sector_decision (Fin thetab) (Fin thetav) <> SectorNone.
Proof.
  intros Hv.
  unfold sector_decision, fge, fle, flt, fmul, fsub, fadd, fneg, LAL_PI,
    tolerance.
  decide_reals; try discriminate; exfalso; lra.
Qed.

Lemma constrained_snr_returned (tb tv V0 V1 V2 : REAL) (i : nat) (rho : REAL) :
  constrained_snr tb tv V0 V1 V2 i = Returned rho ->
  sector_decision tb tv <> SectorNone
  /\ (rho = rho_unconstraint V0 V1 V2 \/ rho = rho_V1 V0 V1
      \/ rho = rho_thetab tb V0 V1 V2).
Proof.
  unfold constrained_snr.
  destruct (sector_decision tb tv); intros H.
  - inversion H. split; [discriminate|auto].
  - inversion H. split; [discriminate|auto].
  - inversion H. split; [discriminate|auto].
  - destruct (fge tb (Fin 0)); discriminate.
Qed.

Lemma constrained_snr_exited (tb tv V0 V1 V2 : REAL) (i : nat) :
  sector_decision tb tv = SectorNone ->
  exists report,
    constrained_snr tb tv V0 V1 V2 i = Exited 0 report
    /\ tv ∈ report /\ tb ∈ report.
Proof.
  intros H. unfold constrained_snr. rewrite H.
  destruct (fge tb (Fin 0)); eexists; (split; [reflexivity|]);
    split; repeat constructor.
Qed.

Lemma outcome_bind_returned {A B : Type} (m : outcome A)
    (f : A -> outcome B) (b : B) :
  m ≫= f = Returned b -> exists a, m = Returned a /\ f a = Returned b.
Proof.
  destruct m; cbn; intros H; try discriminate. eauto.
Qed.

Lemma defined_returned {A : Type} (o : option A) (a : A) :
  defined o = Returned a -> o = Some a.
Proof. destruct o; cbn; intros H; inversion H; auto. Qed.

(** A sample the loop body processes and returns from has been loaded
    from the four correlations and has been given a constrained SNR. *)
Lemma overlap_body_returned (otherIn : OtherParamIn)
    (x1 x2 x3 x4 : list REAL) (c11 c21 c22 tb fp23 : REAL) (i : nat)
    (st st' : MaxLoop) :
  overlap_body otherIn x1 x2 x3 x4 c11 c21 c22 tb fp23 i st = Returned st' ->
  exists s1 s2 s3 s4 rho,
    x1 !! i = Some s1 /\ x2 !! i = Some s2
    /\ x3 !! i = Some s3 /\ x4 !! i = Some s4
    /\ constrained_snr tb
         (fatan2 (sample_V2 s1 s2 s3 s4) (sample_V1 s1 s2 s3 s4))
         (sample_V0 s1 s2 s3 s4) (sample_V1 s1 s2 s3 s4)
         (sample_V2 s1 s2 s3 s4) i = Returned rho.
Proof.
  unfold overlap_body, load. intros H.
  apply outcome_bind_returned in H as (s1 & H1 & H).
  apply outcome_bind_returned in H as (s2 & H2 & H).
  apply outcome_bind_returned in H as (s3 & H3 & H).
  apply outcome_bind_returned in H as (s4 & H4 & H).
  apply outcome_bind_returned in H as (rho & Hr & H).
  apply defined_returned in H1, H2, H3, H4.
  exists s1, s2, s3, s4, rho. auto.
Qed.

(** A loop that returns has returned from every iteration. *)
Lemma for_loop_outcome_returned {St : Type} (body : nat -> St -> outcome St)
    (c i : nat) (s s' : St) :
  for_loop_outcome body i c s = Returned s' ->
  forall j, (i <= j < i + c)%nat -> exists sj sj', body j sj = Returned sj'.
Proof.
  revert i s. induction c as [|c IH]; intros i s H j Hj; [lia|].
  cbn [for_loop_outcome] in H.
  apply outcome_bind_returned in H as (s1 & Hb & H).
  destruct (decide (j = i)) as [->|Hne]; [eauto|].
  apply (IH _ _ H). lia.
Qed.

(** C1.  For every sample whose angle [thetav] lies in [-PI, PI] and
    whose boundary angle [thetab] lies in (-PI/2, PI/2), the sector
    decision selects one of the three sectors, so the constrained SNR is
    one of the three closed-form values and the "must not enter here"
    branch is not reached.  A sample outside all three sectors makes the
    program print the offending angles on stderr and exit: the loop over
    the samples returns only if every sample it processed fell into one of
    the three sectors. *)
Theorem sector_decision_exhaustive (thetab thetav : R) :
  (- PI <= thetav <= PI)%R ->
  (- PI / 2 < thetab < PI / 2)%R ->
  sector_decision (Fin thetab) (Fin thetav) <> SectorNone
  /\ (forall (V0 V1 V2 : REAL) (i : nat),
        exists rho,
          constrained_snr (Fin thetab) (Fin thetav) V0 V1 V2 i = Returned rho
          /\ (rho = rho_unconstraint V0 V1 V2 \/ rho = rho_V1 V0 V1
              \/ rho = rho_thetab (Fin thetab) V0 V1 V2))
  /\ (forall (tb tv V0 V1 V2 : REAL) (i : nat),
        sector_decision tb tv = SectorNone ->
        exists report,
          constrained_snr tb tv V0 V1 V2 i = Exited 0 report
          /\ tv ∈ report /\ tb ∈ report)
  /\ (forall (otherIn : OtherParamIn) (x1 x2 x3 x4 : list REAL)
             (c11 c21 c22 tb fp23 : REAL) (a b : nat) (st st' : MaxLoop),
        for_range_outcome
          (overlap_body otherIn x1 x2 x3 x4 c11 c21 c22 tb fp23) a b st
          = Returned st' ->
        forall i, (a <= i < b)%nat ->
          exists s1 s2 s3 s4,
            x1 !! i = Some s1 /\ x2 !! i = Some s2
            /\ x3 !! i = Some s3 /\ x4 !! i = Some s4
            /\ sector_decision tb
                 (fatan2 (sample_V2 s1 s2 s3 s4) (sample_V1 s1 s2 s3 s4))
               <> SectorNone).
Proof.
  intros Hv Hb.
  assert (Hs : sector_decision (Fin thetab) (Fin thetav) <> SectorNone).
  { apply sector_decision_total. lra. }
  split; [exact Hs|]. split; [|split].
  - intros V0 V1 V2 i. unfold constrained_snr.
    destruct (sector_decision (Fin thetab) (Fin thetav));
      try contradiction; eexists; split; try reflexivity; auto.
  - intros tb tv V0 V1 V2 i. apply constrained_snr_exited.
  - intros otherIn x1 x2 x3 x4 c11 c21 c22 tb fp23 a b st st' Hloop i Hi.
    unfold for_range_outcome in Hloop.
    destruct (for_loop_outcome_returned _ _ _ _ _ Hloop i) as (sj & sj' & Hbody);
      [lia|].
    apply overlap_body_returned in Hbody
      as (s1 & s2 & s3 & s4 & rho & H1 & H2 & H3 & H4 & Hr).
    apply constrained_snr_returned in Hr as [Hne _].
    exists s1, s2, s3, s4. auto.
Qed.

(** The hypotheses of [sector_decision_exhaustive] hold at the angles
    [thetav = 0] and [thetab = 0]. *)
Lemma sector_decision_exhaustive_witness :
  (- PI <= 0 <= PI)%R /\ (- PI / 2 < 0 < PI / 2)%R
  /\ sector_decision (Fin 0) (Fin 0) <> SectorNone.
Proof.
  assert (H1 : (- PI <= 0 <= PI)%R) by (pose proof PI_RGT_0; lra).
  assert (H2 : (- PI / 2 < 0 < PI / 2)%R) by (pose proof PI_RGT_0; lra).
  split; [exact H1|]. split; [exact H2|].
  exact (proj1 (sector_decision_exhaustive 0 0 H1 H2)).
Defined.

(** ** Constrained against unconstrained SNR *)

Section SampleBounds.
Local Open Scope R_scope.

Lemma square_bound (p s : R) : 0 <= s -> p * p <= s * s -> - s <= p <= s.
Proof.
  intros Hs Hp. split; apply Rnot_lt_le; intros Hc.
  - assert (s * s < p * p) by nra. lra.
  - assert (s * s < p * p) by nra. lra.
Qed.

Variables x1 x2 x3 x4 : R.

Local Abbreviation v0 := (real_V0 x1 x2 x3 x4).
Local Abbreviation v1 := (real_V1 x1 x2 x3 x4).
Local Abbreviation v2 := (real_V2 x1 x2 x3 x4).

Lemma sample_V_fin :
  sample_V0 (Fin x1) (Fin x2) (Fin x3) (Fin x4) = Fin v0
  /\ sample_V1 (Fin x1) (Fin x2) (Fin x3) (Fin x4) = Fin v1
  /\ sample_V2 (Fin x1) (Fin x2) (Fin x3) (Fin x4) = Fin v2.
Proof. repeat split. Qed.

Lemma sample_norm_nonneg : 0 <= v1 * v1 + v2 * v2.
Proof. nra. Qed.

Lemma sample_V0_nonneg : 0 <= v0.
Proof. unfold real_V0. nra. Qed.

(** The length of the vector (V1, V2) is at most V0. *)
Lemma sample_norm_le_V0 : sqrt (v1 * v1 + v2 * v2) <= v0.
Proof.
  pose proof sample_V0_nonneg as H0.
  rewrite <- (sqrt_square v0) by exact H0.
  apply sqrt_le_1_alt.
  assert (E : v0 * v0 - (v1 * v1 + v2 * v2)
              = 4 * ((x1 * x4 - x2 * x3) * (x1 * x4 - x2 * x3))).
  { unfold real_V0, real_V1, real_V2. ring. }
  pose proof (Rle_0_sqr (x1 * x4 - x2 * x3)) as Hsq. unfold Rsqr in Hsq.
  lra.
Qed.

(** A projection of (V1, V2) on a unit vector is at most its length. *)
Lemma sample_projection (c s : R) :
  c * c + s * s = 1 ->
  - sqrt (v1 * v1 + v2 * v2) <= v1 * c + v2 * s <= sqrt (v1 * v1 + v2 * v2).
Proof.
  intros Hcs.
  pose proof sample_norm_nonneg as HA.
  pose proof (sqrt_pos (v1 * v1 + v2 * v2)) as HS.
  pose proof (sqrt_sqrt _ HA) as HSS.
  set (S := sqrt (v1 * v1 + v2 * v2)) in *.
  assert (E : v1 * v1 + v2 * v2 - (v1 * c + v2 * s) * (v1 * c + v2 * s)
              = (v1 * s - v2 * c) * (v1 * s - v2 * c)).
  { transitivity ((v1 * v1 + v2 * v2) * (c * c + s * s)
                  - (v1 * c + v2 * s) * (v1 * c + v2 * s)).
    - rewrite Hcs. ring.
    - ring. }
  pose proof (Rle_0_sqr (v1 * s - v2 * c)) as Hsq. unfold Rsqr in Hsq.
  apply square_bound; [exact HS|lra].
Qed.

Lemma rho_unconstraint_fin :
  rho_unconstraint (Fin v0) (Fin v1) (Fin v2)
  = Fin (sqrt ((v0 + sqrt (v1 * v1 + v2 * v2)) / 2)).
Proof.
  unfold rho_unconstraint. cbn [fmul fadd].
  rewrite fsqrt_fin by apply sample_norm_nonneg.
  cbn [fadd]. rewrite fdiv_fin by lra.
  rewrite fsqrt_fin; [reflexivity|].
  pose proof sample_V0_nonneg. pose proof (sqrt_pos (v1 * v1 + v2 * v2)). lra.
Qed.

Lemma rho_V1_fin :
  rho_V1 (Fin v0) (Fin v1) = Fin (sqrt ((v0 + v1) / 2)).
Proof.
  unfold rho_V1. cbn [fadd]. rewrite fdiv_fin by lra.
  rewrite fsqrt_fin; [reflexivity|]. unfold real_V0, real_V1. nra.
Qed.

Lemma rho_thetab_fin (th : R) :
  rho_thetab (Fin th) (Fin v0) (Fin v1) (Fin v2)
  = Fin (sqrt ((v0 + v1 * cos (2 * th) + v2 * sin (2 * th)) / 2)).
Proof.
  unfold rho_thetab. cbn [fmul fadd fcos fsin]. rewrite fdiv_fin by lra.
  rewrite fsqrt_fin; [reflexivity|].
  pose proof (sample_projection (cos (2 * th)) (sin (2 * th))) as Hp.
  pose proof (sin2_cos2 (2 * th)) as Hsc. unfold Rsqr in Hsc.
  pose proof sample_norm_le_V0. lra.
Qed.

Lemma rho_V1_le : 
  sqrt ((v0 + v1) / 2) <= sqrt ((v0 + sqrt (v1 * v1 + v2 * v2)) / 2).
Proof.
  apply sqrt_le_1_alt.
  pose proof (sample_projection 1 0) as Hp. lra.
Qed.

Lemma rho_thetab_le (th : R) :
  sqrt ((v0 + v1 * cos (2 * th) + v2 * sin (2 * th)) / 2)
  <= sqrt ((v0 + sqrt (v1 * v1 + v2 * v2)) / 2).
Proof.
  apply sqrt_le_1_alt.
  pose proof (sample_projection (cos (2 * th)) (sin (2 * th))) as Hp.
  pose proof (sin2_cos2 (2 * th)) as Hsc. unfold Rsqr in Hsc. lra.
Qed.

End SampleBounds.

Lemma sector_decision_nan (tv : REAL) : sector_decision NaN tv = SectorNone.
Proof.
  destruct tv;
    unfold sector_decision, fge, fle, flt, fmul, fsub, fadd, fneg, LAL_PI,
      tolerance;
    decide_reals; reflexivity.
Qed.

(** C2, as amended.  In exact arithmetic, at every sample with finite
    correlations [x1 .. x4], whichever of the three sector formulas gives
    the constrained SNR, that value is less than or equal to the
    unconstrained SNR computed from the same correlations.  The boundary
    angle is the result of [atan], as in the source.  For the rounded
    values the program stores the order can fail: see the sample
    computation in REAL4 and REAL8 below. *)
Theorem constrained_le_unconstrained (t : REAL) (x1 x2 x3 x4 : R) (i : nat)
    (rhoConstraint : REAL) :
  let V0 := sample_V0 (Fin x1) (Fin x2) (Fin x3) (Fin x4) in
  let V1 := sample_V1 (Fin x1) (Fin x2) (Fin x3) (Fin x4) in
  let V2 := sample_V2 (Fin x1) (Fin x2) (Fin x3) (Fin x4) in
  constrained_snr (fatan t) (fatan2 V2 V1) V0 V1 V2 i = Returned rhoConstraint ->
  fle rhoConstraint (rho_unconstraint V0 V1 V2) = true.
Proof.
  intros V0 V1 V2 H.
  apply constrained_snr_returned in H as [Hsec Hrho].
  destruct (fatan_cases t) as [Hnan|(th & Hth & _)].
  { rewrite Hnan, sector_decision_nan in Hsec. contradiction. }
  rewrite Hth in Hrho.
  destruct (sample_V_fin x1 x2 x3 x4) as (E0 & E1 & E2).
  unfold V0, V1, V2 in *. rewrite E0, E1, E2 in *.
  rewrite rho_unconstraint_fin.
  destruct Hrho as [->|[->| ->]].
  - rewrite rho_unconstraint_fin. apply fle_fin. lra.
  - rewrite rho_V1_fin. apply fle_fin. apply rho_V1_le.
  - rewrite rho_thetab_fin. apply fle_fin. apply rho_thetab_le.
Qed.

Lemma constrained_snr_total (tb tv V0 V1 V2 : REAL) (i : nat) :
  sector_decision tb tv <> SectorNone ->
  exists rho, constrained_snr tb tv V0 V1 V2 i = Returned rho.
Proof.
  unfold constrained_snr. intros H.
  destruct (sector_decision tb tv); try contradiction; eauto.
Qed.

(** With a finite boundary angle and finite correlations the sample gets a
    constrained SNR. *)
Lemma constrained_snr_finite (th x1 x2 x3 x4 : R) (i : nat) :
  let V0 := sample_V0 (Fin x1) (Fin x2) (Fin x3) (Fin x4) in
  let V1 := sample_V1 (Fin x1) (Fin x2) (Fin x3) (Fin x4) in
  let V2 := sample_V2 (Fin x1) (Fin x2) (Fin x3) (Fin x4) in
  exists rho,
    constrained_snr (Fin th) (fatan2 V2 V1) V0 V1 V2 i = Returned rho.
Proof.
  intros V0 V1 V2.
  destruct (sample_V_fin x1 x2 x3 x4) as (E0 & E1 & E2).
  unfold V0, V1, V2. rewrite E1, E2.
  match goal with
  | |- context [fatan2 (Fin ?y) (Fin ?x)] =>
      destruct (fatan2_fin y x) as (tv & -> & Htv)
  end.
  apply constrained_snr_total, sector_decision_total. lra.
Qed.

(** The hypothesis of [constrained_le_unconstrained] holds at the sample
    (1, 0, 0, 0) with the boundary angle [atan 0]. *)
Lemma constrained_le_unconstrained_witness :
  let V0 := sample_V0 (Fin 1) (Fin 0) (Fin 0) (Fin 0) in
  let V1 := sample_V1 (Fin 1) (Fin 0) (Fin 0) (Fin 0) in
  let V2 := sample_V2 (Fin 1) (Fin 0) (Fin 0) (Fin 0) in
  exists rho,
    constrained_snr (fatan (Fin 0)) (fatan2 V2 V1) V0 V1 V2 0 = Returned rho
    /\ fle rho (rho_unconstraint V0 V1 V2) = true.
Proof.
  intros V0 V1 V2.
  destruct (constrained_snr_finite (atan 0) 1 0 0 0 0%nat) as [rho Hrho].
  exists rho. split; [exact Hrho|].
  exact (constrained_le_unconstrained (Fin 0) 1 0 0 0 0%nat rho Hrho).
Defined.

(** ** The sample computation in REAL4 and REAL8

    The inequality above is a fact of exact arithmetic.  The values the
    program stores are rounded, and where a rounding loses everything
    (an underflow) the order can turn round. *)

Section Roundings.
Local Open Scope R_scope.

(** Without any rounding the computation is the one of the exact
    embedding. *)
Lemma rounded_unrounded (thetab thetav x1 x2 x3 x4 V0 V1 V2 : REAL) (i : nat) :
  rounded_V0 unrounded x1 x2 x3 x4 = sample_V0 x1 x2 x3 x4
  /\ rounded_V1 unrounded x1 x2 x3 x4 = sample_V1 x1 x2 x3 x4
  /\ rounded_V2 unrounded x1 x2 x3 x4 = sample_V2 x1 x2 x3 x4
  /\ rounded_rho_unconstraint unrounded unrounded V0 V1 V2
     = rho_unconstraint V0 V1 V2
  /\ rounded_thetav unrounded unrounded V2 V1 = fatan2 V2 V1
  /\ rounded_sector_decision unrounded unrounded thetab thetav
     = sector_decision thetab thetav
  /\ rounded_constrained_snr unrounded unrounded thetab thetav V0 V1 V2 i
     = constrained_snr thetab thetav V0 V1 V2 i.
Proof. repeat split. Qed.

(** *** Powers of two *)

Lemma pow2_pos (z : Z) : 0 < powerRZ 2 z.
Proof. apply powerRZ_lt. lra. Qed.

Lemma pow2_add (a b : Z) : powerRZ 2 (a + b) = powerRZ 2 a * powerRZ 2 b.
Proof. apply powerRZ_add. lra. Qed.

Lemma pow2_ln (z : Z) : ln (powerRZ 2 z) = IZR z * ln 2.
Proof. rewrite powerRZ_Rpower by lra. apply ln_Rpower. Qed.

Lemma ln2_pos : 0 < ln 2.
Proof. rewrite <- ln_1. apply ln_increasing; lra. Qed.

Lemma pow2_lt (a b : Z) : (a < b)%Z -> powerRZ 2 a < powerRZ 2 b.
Proof.
  intros H. apply ln_lt_inv; try apply pow2_pos.
  rewrite !pow2_ln. apply Rmult_lt_compat_r; [apply ln2_pos|].
  apply IZR_lt. exact H.
Qed.

Lemma pow2_le (a b : Z) : (a <= b)%Z -> powerRZ 2 a <= powerRZ 2 b.
Proof.
  intros H. destruct (Z.eq_dec a b) as [->|N]; [lra|].
  left. apply pow2_lt. lia.
Qed.

Lemma pow2_IZR (n : Z) : (0 <= n)%Z -> powerRZ 2 n = IZR (2 ^ n).
Proof.
  intros H. destruct n as [|p|p].
  - reflexivity.
  - cbn [powerRZ]. rewrite pow_IZR. f_equal.
    rewrite positive_nat_Z. reflexivity.
  - lia.
Qed.

Lemma pow2_double (z : Z) : powerRZ 2 (z + 1) = 2 * powerRZ 2 z.
Proof. rewrite pow2_add. change (powerRZ 2 1) with (2 * 1). lra. Qed.

Lemma Rabs_le_inv (x a : R) : Rabs x <= a -> - a <= x <= a.
Proof. unfold Rabs. destruct (Rcase_abs x); lra. Qed.

(** *** The nearest integer and the binary magnitude *)

Lemma Int_part_bounds (r : R) : IZR (Int_part r) <= r < IZR (Int_part r) + 1.
Proof.
  destruct (base_Int_part r) as [H1 H2]. lra.
Qed.

Lemma nearest_even_error (r : R) : Rabs (IZR (nearest_even r) - r) <= 1 / 2.
Proof.
  unfold nearest_even. pose proof (Int_part_bounds r) as [H1 H2].
  set (f := Int_part r) in *. unfold Rsgn.
  destruct (total_order_T (r - IZR f - 1 / 2) 0) as [[H|H]|H].
  - apply Rabs_le. lra.
  - destruct (Z.even f); [|rewrite plus_IZR]; apply Rabs_le; lra.
  - rewrite plus_IZR. apply Rabs_le. lra.
Qed.

Lemma nearest_even_IZR (n : Z) : nearest_even (IZR n) = n.
Proof.
  unfold nearest_even.
  assert (E : Int_part (IZR n) = n).
  { symmetry. apply Int_part_spec. lra. }
  rewrite E. unfold Rsgn.
  destruct (total_order_T (IZR n - IZR n - 1 / 2) 0) as [[H|H]|H];
    [reflexivity|lra|lra].
Qed.

Lemma nearest_even_small (r : R) : Rabs r < 1 / 2 -> nearest_even r = 0%Z.
Proof.
  intros H. apply Rabs_def2 in H as [H1 H2].
  pose proof (nearest_even_error r) as E.
  apply Rabs_le_inv in E.
  assert (L : (-1 < nearest_even r < 1)%Z).
  { split; apply lt_IZR; lra. }
  lia.
Qed.

Lemma binary_magnitude_lt (x : R) (k : Z) :
  x <> 0 -> Rabs x < powerRZ 2 k -> (binary_magnitude x < k)%Z.
Proof.
  intros N H. unfold binary_magnitude.
  assert (P : 0 < Rabs x) by (apply Rabs_pos_lt; exact N).
  pose proof ln2_pos as L2.
  assert (L : ln (Rabs x) / ln 2 < IZR k).
  { apply ln_increasing in H; [|exact P]. rewrite pow2_ln in H.
    apply Rmult_lt_reg_r with (ln 2); [exact L2|].
    unfold Rdiv. rewrite Rmult_assoc, Rinv_l by lra. lra. }
  pose proof (Int_part_bounds (ln (Rabs x) / ln 2)) as [B1 B2].
  apply lt_IZR. lra.
Qed.

Lemma pow2_opp (z : Z) : powerRZ 2 (- z) * powerRZ 2 z = 1.
Proof.
  rewrite <- pow2_add. replace (- z + z)%Z with 0%Z by lia. reflexivity.
Qed.

(** *** Rounding in a format *)

Section FormatRounding.
Variables prec emin emax : Z.
Hypothesis prec_pos : (0 < prec)%Z.

Lemma ulp_exponent_ge (x : R) : (emin <= ulp_exponent prec emin x)%Z.
Proof. unfold ulp_exponent. lia. Qed.

Lemma ulp_exponent_le (x : R) (k : Z) :
  x <> 0 -> Rabs x < powerRZ 2 k -> (emin <= k - prec)%Z ->
  (ulp_exponent prec emin x <= k - prec)%Z.
Proof.
  intros N H E. pose proof (binary_magnitude_lt x k N H).
  unfold ulp_exponent. lia.
Qed.

Lemma round_finite_zero : round_finite prec emin emax 0 = Fin 0.
Proof.
  unfold round_finite. rewrite Rmult_0_l.
  change 0 with (IZR 0) at 1 2. rewrite nearest_even_IZR.
  rewrite Rmult_0_l, Rabs_R0.
  destruct (Rle_dec (powerRZ 2 emax) 0) as [H|H]; [|reflexivity].
  pose proof (pow2_pos emax). lra.
Qed.

(** A value below half the smallest subnormal number is rounded to zero. *)
Lemma round_finite_underflow (x : R) :
  Rabs x < powerRZ 2 (emin - 1) -> round_finite prec emin emax x = Fin 0.
Proof.
  intros H. unfold round_finite.
  set (e := ulp_exponent prec emin x).
  assert (He : (emin <= e)%Z) by apply ulp_exponent_ge.
  assert (S : Rabs (x * powerRZ 2 (- e)) < 1 / 2).
  { rewrite Rabs_mult, (Rabs_pos_eq (powerRZ 2 (- e)))
      by (left; apply pow2_pos).
    pose proof (pow2_le (- e) (- emin) ltac:(lia)) as L.
    pose proof (pow2_pos (- e)) as P.
    pose proof (Rabs_pos x) as A.
    assert (M : powerRZ 2 (emin - 1) * powerRZ 2 (- emin) = 1 / 2).
    { rewrite <- pow2_add. replace (emin - 1 + - emin)%Z with (- 1)%Z by lia.
      change (powerRZ 2 (- 1)) with (/ (2 * 1)). lra. }
    pose proof (pow2_pos (- emin)) as P'.
    nra. }
  rewrite (nearest_even_small _ S), Rmult_0_l, Rabs_R0.
  destruct (Rle_dec (powerRZ 2 emax) 0) as [H0|H0]; [|reflexivity].
  pose proof (pow2_pos emax). lra.
Qed.

(** A number of the format is its own rounding. *)
Lemma round_finite_exact (x : R) (m e : Z) :
  x = IZR m * powerRZ 2 e ->
  (Z.abs m < 2 ^ prec)%Z -> (emin <= e)%Z -> (e + prec <= emax)%Z ->
  round_finite prec emin emax x = Fin x.
Proof.
  intros Hx Hm He Hmax.
  destruct (Z.eq_dec m 0%Z) as [->|Nm].
  { rewrite Hx, Rmult_0_l. apply round_finite_zero. }
  assert (Nx : x <> 0).
  { rewrite Hx. apply Rmult_integral_contrapositive_currified.
    - apply not_0_IZR. exact Nm.
    - pose proof (pow2_pos e). lra. }
  assert (B : Rabs x < powerRZ 2 (e + prec)).
  { rewrite Hx, Rabs_mult, (Rabs_pos_eq (powerRZ 2 e)) by (left; apply pow2_pos).
    rewrite Rabs_Zabs, Z.add_comm, pow2_add, (pow2_IZR prec) by lia.
    apply Rmult_lt_compat_r; [apply pow2_pos|]. apply IZR_lt. exact Hm. }
  unfold round_finite.
  set (c := ulp_exponent prec emin x).
  assert (Hc : (c <= e)%Z).
  { pose proof (ulp_exponent_le x (e + prec) Nx B ltac:(lia)). fold c in H. lia. }
  assert (E : x * powerRZ 2 (- c) = IZR (m * 2 ^ (e - c))).
  { rewrite Hx, mult_IZR, <- (pow2_IZR (e - c)) by lia.
    rewrite Rmult_assoc, <- pow2_add. f_equal. }
  rewrite E, nearest_even_IZR.
  assert (R : IZR (m * 2 ^ (e - c)) * powerRZ 2 c = x).
  { rewrite <- E, Rmult_assoc, pow2_opp. lra. }
  rewrite R.
  destruct (Rle_dec (powerRZ 2 emax) (Rabs x)) as [H|H]; [|reflexivity].
  pose proof (pow2_le (e + prec) emax Hmax). lra.
Qed.

(** Below [2 ^ k] the rounding moves a value by at most half a unit in
    the last place of that binade. *)
Lemma round_finite_error (x : R) (k : Z) :
  Rabs x < powerRZ 2 k -> (emin <= k - prec)%Z -> (k + 1 <= emax)%Z ->
  exists r, round_finite prec emin emax x = Fin r
    /\ Rabs (r - x) <= powerRZ 2 (k - prec - 1).
Proof.
  intros B Hmin Hmax.
  destruct (Req_dec_T x 0) as [->|Nx].
  { exists 0. split; [apply round_finite_zero|].
    rewrite Rminus_diag, Rabs_R0. left. apply pow2_pos. }
  unfold round_finite.
  set (c := ulp_exponent prec emin x).
  assert (Hc : (c <= k - prec)%Z) by (apply ulp_exponent_le; assumption).
  set (n := nearest_even (x * powerRZ 2 (- c))).
  assert (D : Rabs (IZR n * powerRZ 2 c - x) <= powerRZ 2 (k - prec - 1)).
  { replace (IZR n * powerRZ 2 c - x)
      with ((IZR n - x * powerRZ 2 (- c)) * powerRZ 2 c)
      by (rewrite Rmult_minus_distr_r, Rmult_assoc, pow2_opp; lra).
    rewrite Rabs_mult, (Rabs_pos_eq (powerRZ 2 c)) by (left; apply pow2_pos).
    pose proof (nearest_even_error (x * powerRZ 2 (- c))) as N. fold n in N.
    pose proof (pow2_pos c) as P.
    pose proof (pow2_le c (k - prec) Hc) as L.
    replace (k - prec)%Z with (k - prec - 1 + 1)%Z in L by lia.
    rewrite pow2_double in L.
    pose proof (Rabs_pos (IZR n - x * powerRZ 2 (- c))) as A.
    nra. }
  exists (IZR n * powerRZ 2 c). split; [|exact D].
  destruct (Rle_dec (powerRZ 2 emax) (Rabs (IZR n * powerRZ 2 c))) as [H|H];
    [|reflexivity].
  exfalso.
  pose proof (Rabs_triang (IZR n * powerRZ 2 c - x) x) as T.
  replace (IZR n * powerRZ 2 c - x + x) with (IZR n * powerRZ 2 c) in T by lra.
  pose proof (pow2_lt (k - prec - 1) k ltac:(lia)) as L1.
  pose proof (pow2_le (k + 1) emax Hmax) as L2.
  rewrite pow2_double in L2. lra.
Qed.

End FormatRounding.

(** *** The two formats

    A value [m * 2 ^ e] whose significand [m] fits the format is stored
    as it is; below [2 ^ -150] a value becomes the [REAL4] zero; and a
    value below [2 ^ k] is moved by at most [2 ^ (k - 25)] in [REAL4] and
    [2 ^ (k - 54)] in [REAL8]. *)

Lemma to_REAL4_exact (x : R) (m e : Z) :
  x = IZR m * powerRZ 2 e ->
  (Z.abs m < 2 ^ 24)%Z -> (-149 <= e <= 104)%Z ->
  to_REAL4 (Fin x) = Fin x.
Proof.
  intros Hx Hm He.
  apply (round_finite_exact 24 (-149) 128 ltac:(lia) x m e);
    [exact Hx|exact Hm|lia|lia].
Qed.

Lemma to_REAL8_exact (x : R) (m e : Z) :
  x = IZR m * powerRZ 2 e ->
  (Z.abs m < 2 ^ 53)%Z -> (-1074 <= e <= 971)%Z ->
  to_REAL8 (Fin x) = Fin x.
Proof.
  intros Hx Hm He.
  apply (round_finite_exact 53 (-1074) 1024 ltac:(lia) x m e);
    [exact Hx|exact Hm|lia|lia].
Qed.

Lemma to_REAL4_underflow (x : R) :
  Rabs x < powerRZ 2 (- 150) -> to_REAL4 (Fin x) = Fin 0.
Proof. intros H. apply (round_finite_underflow 24 (-149) 128). exact H. Qed.

Lemma to_REAL4_error (x : R) (k : Z) :
  Rabs x < powerRZ 2 k -> (-125 <= k <= 127)%Z ->
  exists r, to_REAL4 (Fin x) = Fin r /\ Rabs (r - x) <= powerRZ 2 (k - 25).
Proof.
  intros H Hk.
  destruct (round_finite_error 24 (-149) 128 ltac:(lia) x k H
              ltac:(lia) ltac:(lia)) as (r & E & D).
  exists r. split; [exact E|].
  replace (k - 25)%Z with (k - 24 - 1)%Z by lia. exact D.
Qed.

Lemma to_REAL8_error (x : R) (k : Z) :
  Rabs x < powerRZ 2 k -> (-1021 <= k <= 1023)%Z ->
  exists r, to_REAL8 (Fin x) = Fin r /\ Rabs (r - x) <= powerRZ 2 (k - 54).
Proof.
  intros H Hk.
  destruct (round_finite_error 53 (-1074) 1024 ltac:(lia) x k H
              ltac:(lia) ltac:(lia)) as (r & E & D).
  exists r. split; [exact E|].
  replace (k - 54)%Z with (k - 53 - 1)%Z by lia. exact D.
Qed.

Lemma to_REAL4_value (x y : R) (m e : Z) :
  x = y -> y = IZR m * powerRZ 2 e ->
  (Z.abs m < 2 ^ 24)%Z -> (-149 <= e <= 104)%Z ->
  to_REAL4 (Fin x) = Fin y.
Proof. intros -> Hy Hm He. exact (to_REAL4_exact y m e Hy Hm He). Qed.

Lemma to_REAL8_value (x y : R) (m e : Z) :
  x = y -> y = IZR m * powerRZ 2 e ->
  (Z.abs m < 2 ^ 53)%Z -> (-1074 <= e <= 971)%Z ->
  to_REAL8 (Fin x) = Fin y.
Proof. intros -> Hy Hm He. exact (to_REAL8_exact y m e Hy Hm He). Qed.

Lemma PI_bounds : 3 < PI <= 4.
Proof. pose proof PI2_3_2. pose proof PI_4. lra. Qed.

(** *** A sample whose squares underflow

    The correlations [(3, -1, -1, 1) * 2^-50]: the scale [2^-50] and the
    powers of two around it. *)

Lemma example_scale_pos : 0 < example_scale.
Proof. apply pow2_pos. Qed.

Lemma example_scale_square :
  powerRZ 2 (- 100) = example_scale * example_scale.
Proof. unfold example_scale. rewrite <- pow2_add. reflexivity. Qed.

Lemma example_scale_sixteenth : powerRZ 2 (- 54) = example_scale / 16.
Proof.
  unfold example_scale. change (- 54)%Z with (- 50 + - 4)%Z.
  rewrite pow2_add.
  change (powerRZ 2 (- 4)) with (/ (2 * (2 * (2 * (2 * 1))))).
  lra.
Qed.

Lemma example_scale_fourth :
  8 * (example_scale * example_scale) * (8 * (example_scale * example_scale))
  = powerRZ 2 (- 194).
Proof.
  rewrite <- example_scale_square.
  change (- 194)%Z with (- 100 + (- 100 + 6))%Z.
  rewrite !pow2_add.
  change (powerRZ 2 6) with (2 * (2 * (2 * (2 * (2 * (2 * 1)))))).
  ring.
Qed.

Lemma example_scale_times_eight : powerRZ 2 (- 47) = 8 * example_scale.
Proof.
  unfold example_scale. change (- 47)%Z with (- 50 + 3)%Z.
  rewrite pow2_add. change (powerRZ 2 3) with (2 * (2 * (2 * 1))). lra.
Qed.

(** Equalities between multiples of powers of the scale. *)
Ltac by_scale :=
  rewrite ?example_scale_square;
  try change (powerRZ 2 (- 50)) with example_scale;
  repeat match goal with x := example_scale |- _ => subst x end;
  ring.

(** Every operation up to [V0], [V1] and [V2] is exact in [REAL4]. *)
Lemma example_underflow_V :
  let s := example_scale in
  let x1 := Fin (3 * s) in
  let x2 := Fin (- s) in
  let x3 := Fin (- s) in
  let x4 := Fin s in
  rounded_V0 to_REAL4 x1 x2 x3 x4 = Fin (12 * (s * s))
  /\ rounded_V1 to_REAL4 x1 x2 x3 x4 = Fin (8 * (s * s))
  /\ rounded_V2 to_REAL4 x1 x2 x3 x4 = Fin (- 8 * (s * s)).
Proof.
  cbv zeta. set (s := example_scale).
  assert (S11 : mul4 to_REAL4 (Fin (3 * s)) (Fin (3 * s)) = Fin (9 * (s * s))).
  { apply (to_REAL4_value _ _ 9 (- 100)); [ring|by_scale|lia|lia]. }
  assert (S22 : mul4 to_REAL4 (Fin (- s)) (Fin (- s)) = Fin (1 * (s * s))).
  { apply (to_REAL4_value _ _ 1 (- 100)); [ring|by_scale|lia|lia]. }
  assert (S44 : mul4 to_REAL4 (Fin s) (Fin s) = Fin (1 * (s * s))).
  { apply (to_REAL4_value _ _ 1 (- 100)); [ring|by_scale|lia|lia]. }
  assert (S12 : mul4 to_REAL4 (Fin (3 * s)) (Fin (- s)) = Fin (- 3 * (s * s))).
  { apply (to_REAL4_value _ _ (- 3) (- 100)); [ring|by_scale|lia|lia]. }
  assert (S34 : mul4 to_REAL4 (Fin (- s)) (Fin s) = Fin (- 1 * (s * s))).
  { apply (to_REAL4_value _ _ (- 1) (- 100)); [ring|by_scale|lia|lia]. }
  unfold rounded_V0, rounded_V1, rounded_V2.
  rewrite S11, S22, S44, S12, S34.
  split; [|split].
  - unfold add4. cbn [fadd].
    rewrite (to_REAL4_value _ (10 * (s * s)) 10 (- 100));
      [|ring|by_scale|lia|lia].
    cbn [fadd].
    rewrite (to_REAL4_value _ (11 * (s * s)) 11 (- 100));
      [|ring|by_scale|lia|lia].
    cbn [fadd].
    apply (to_REAL4_value _ _ 12 (- 100)); [ring|by_scale|lia|lia].
  - unfold add4, sub4, fsub. cbn [fadd fneg].
    rewrite (to_REAL4_value _ (10 * (s * s)) 10 (- 100));
      [|ring|by_scale|lia|lia].
    cbn [fadd].
    rewrite (to_REAL4_value _ (9 * (s * s)) 9 (- 100));
      [|ring|by_scale|lia|lia].
    cbn [fadd].
    apply (to_REAL4_value _ _ 8 (- 100)); [ring|by_scale|lia|lia].
  - unfold add4, mul4. cbn [fadd].
    rewrite (to_REAL4_value _ (- 4 * (s * s)) (- 4) (- 100));
      [|ring|by_scale|lia|lia].
    cbn [fmul].
    apply (to_REAL4_value _ _ (- 8) (- 100)); [ring|by_scale|lia|lia].
Qed.

(** The square root of [c * s^2] rounded to REAL8 and then to REAL4,
    between bounds. *)
Lemma example_sqrt_bounds (c lo hi : R) :
  let s := example_scale in
  0 <= lo -> lo * lo <= c -> c <= hi * hi -> 0 <= hi -> hi < 4 ->
  exists r, to_REAL4 (sqrt8 to_REAL8 (Fin (c * (s * s)))) = Fin r
    /\ (lo - 1 / 8) * s <= r <= (hi + 1 / 8) * s.
Proof.
  intros s Hlo Hlc Hch Hhi H4.
  pose proof example_scale_pos as Ps.
  pose proof example_scale_times_eight as F.
  pose proof example_scale_sixteenth as E8.
  fold s in Ps, F, E8. clearbody s.
  assert (Hc : 0 <= c) by nra.
  assert (Pss : 0 < s * s) by nra.
  assert (Pc : 0 <= c * (s * s)) by nra.
  unfold sqrt8. rewrite (fsqrt_fin _ Pc).
  assert (L : lo * s <= sqrt (c * (s * s))).
  { rewrite <- (sqrt_square (lo * s)) by nra.
    apply sqrt_le_1_alt.
    replace (lo * s * (lo * s)) with (lo * lo * (s * s)) by ring.
    apply Rmult_le_compat_r; lra. }
  assert (U : sqrt (c * (s * s)) <= hi * s).
  { rewrite <- (sqrt_square (hi * s)) by nra.
    apply sqrt_le_1_alt.
    replace (hi * s * (hi * s)) with (hi * hi * (s * s)) by ring.
    apply Rmult_le_compat_r; lra. }
  destruct (to_REAL8_error (sqrt (c * (s * s))) (- 47)) as (r8 & -> & D8);
    [rewrite Rabs_pos_eq by nra; nra|lia|].
  apply Rabs_le_inv in D8.
  pose proof (pow2_lt (- 47 - 54) (- 54) ltac:(lia)) as T8.
  destruct (to_REAL4_error r8 (- 47)) as (r4 & -> & D4);
    [apply Rabs_def1; nra|lia|].
  apply Rabs_le_inv in D4.
  pose proof (pow2_lt (- 47 - 25) (- 54) ltac:(lia)) as T4.
  exists r4. split; [reflexivity|]. nra.
Qed.

(** The squares of [V1] and [V2] are [2^-194], which is stored as 0 in
    [REAL4], and so is their sum. *)
Lemma example_underflow_squares :
  let s := example_scale in
  add4 to_REAL4 (mul4 to_REAL4 (Fin (8 * (s * s))) (Fin (8 * (s * s))))
    (mul4 to_REAL4 (Fin (- 8 * (s * s))) (Fin (- 8 * (s * s))))
  = Fin 0.
Proof.
  cbv zeta. set (s := example_scale).
  assert (U : forall x, x * x = powerRZ 2 (- 194) ->
                mul4 to_REAL4 (Fin x) (Fin x) = Fin 0).
  { intros x Hx. unfold mul4. cbn [fmul]. apply to_REAL4_underflow.
    rewrite Hx, Rabs_pos_eq by (left; apply pow2_pos).
    apply pow2_lt. lia. }
  rewrite (U (8 * (s * s))) by apply example_scale_fourth.
  rewrite (U (- 8 * (s * s)))
    by (rewrite <- example_scale_fourth; fold s; ring).
  unfold add4. cbn [fadd].
  apply (to_REAL4_value _ 0 0 0); [ring|ring|lia|lia].
Qed.

(** So [rhoUnconstraint] is the rounded square root of [V0 / 2]. *)
Lemma example_underflow_unconstrained :
  let s := example_scale in
  exists r,
    rounded_rho_unconstraint to_REAL4 to_REAL8
      (Fin (12 * (s * s))) (Fin (8 * (s * s))) (Fin (- 8 * (s * s))) = Fin r
    /\ r <= 21 / 8 * s.
Proof.
  cbv zeta. pose proof example_underflow_squares as U. cbv zeta in U.
  set (s := example_scale) in *.
  unfold rounded_rho_unconstraint. rewrite U.
  unfold sqrt8 at 2. rewrite fsqrt_fin, sqrt_0 by lra.
  rewrite (to_REAL8_value _ 0 0 0); [|ring|ring|lia|lia].
  unfold add8. cbn [fadd].
  rewrite (to_REAL8_value _ (12 * (s * s)) 12 (- 100));
    [|ring|by_scale|lia|lia].
  unfold div8. rewrite fdiv_fin by lra.
  rewrite (to_REAL8_value _ (6 * (s * s)) 6 (- 100));
    [|field|by_scale|lia|lia].
  destruct (example_sqrt_bounds 6 2 (5 / 2)) as (r & E & B); try lra.
  fold s in E, B. exists r. split; [exact E|]. lra.
Qed.

(** The formula of the second sector is the rounded square root of
    [(V0 + V1) / 2]. *)
Lemma example_underflow_V1_sector :
  let s := example_scale in
  exists r,
    rounded_rho_V1 to_REAL4 to_REAL8
      (Fin (12 * (s * s))) (Fin (8 * (s * s))) = Fin r
    /\ 23 / 8 * s <= r.
Proof.
  cbv zeta. set (s := example_scale).
  unfold rounded_rho_V1, add4. cbn [fadd].
  rewrite (to_REAL4_value _ (20 * (s * s)) 20 (- 100));
    [|ring|by_scale|lia|lia].
  unfold div8. rewrite fdiv_fin by lra.
  rewrite (to_REAL8_value _ (10 * (s * s)) 10 (- 100));
    [|field|by_scale|lia|lia].
  destruct (example_sqrt_bounds 10 3 (7 / 2)) as (r & E & B); try lra.
  fold s in E, B. exists r. split; [exact E|]. lra.
Qed.

Lemma pow2_minus_three : powerRZ 2 (- 3) = 1 / 8.
Proof. change (powerRZ 2 (- 3)) with (/ (2 * (2 * (2 * 1)))). lra. Qed.

Lemma pow2_three : powerRZ 2 3 = 8.
Proof. change (powerRZ 2 3) with (2 * (2 * (2 * 1))). lra. Qed.

(** A value below 8 in magnitude keeps its place within 1/8 when it is
    rounded to REAL8 or to REAL4. *)
Lemma to_REAL8_near (x : R) :
  Rabs x < 8 -> exists r, to_REAL8 (Fin x) = Fin r /\ Rabs (r - x) <= 1 / 8.
Proof.
  intros H. rewrite <- pow2_three in H.
  destruct (to_REAL8_error x 3 H ltac:(lia)) as (r & E & D).
  exists r. split; [exact E|].
  pose proof (pow2_le (3 - 54) (- 3) ltac:(lia)) as L.
  rewrite pow2_minus_three in L. lra.
Qed.

Lemma to_REAL4_near (x : R) :
  Rabs x < 8 -> exists r, to_REAL4 (Fin x) = Fin r /\ Rabs (r - x) <= 1 / 8.
Proof.
  intros H. rewrite <- pow2_three in H.
  destruct (to_REAL4_error x 3 H ltac:(lia)) as (r & E & D).
  exists r. split; [exact E|].
  pose proof (pow2_le (3 - 25) (- 3) ltac:(lia)) as L.
  rewrite pow2_minus_three in L. lra.
Qed.

(** The angle [atan2 (V2, V1)] is [-PI/4] up to the two roundings. *)
Lemma example_underflow_thetav :
  let s := example_scale in
  exists t,
    rounded_thetav to_REAL4 to_REAL8 (Fin (- 8 * (s * s))) (Fin (8 * (s * s)))
      = Fin t
    /\ - 5 / 4 <= t <= - 1 / 2.
Proof.
  cbv zeta. set (s := example_scale).
  pose proof example_scale_pos as Ps. fold s in Ps.
  assert (Pss : 0 < 8 * (s * s)) by nra.
  pose proof PI_bounds as [P3 P4].
  unfold rounded_thetav, atan2_8, fatan2.
  rewrite Rsgn_pos by exact Pss.
  replace (- 8 * (s * s) / (8 * (s * s))) with (Ropp 1) by (field; lra).
  rewrite atan_opp, atan_1.
  destruct (to_REAL8_near (- (PI / 4))) as (t8 & -> & D8);
    [apply Rabs_def1; lra|].
  apply Rabs_le_inv in D8.
  destruct (to_REAL4_near t8) as (t4 & -> & D4); [apply Rabs_def1; lra|].
  apply Rabs_le_inv in D4.
  exists t4. split; [reflexivity|]. lra.
Qed.

(** With a boundary angle of [0, 5/4] and an angle [thetav] of
    [-5/4, -1/2] the tests of the loop choose the second formula. *)
Lemma example_underflow_sector (tb t : R) :
  0 <= tb <= 5 / 4 -> - 5 / 4 <= t <= - 1 / 2 ->
  rounded_sector_decision to_REAL4 to_REAL8 (Fin tb) (Fin t) = SectorV1.
Proof.
  intros Hb Ht. pose proof PI_bounds as [P3 P4].
  unfold rounded_sector_decision.
  assert (E1 : fge (Fin tb) (Fin 0) = true) by (apply fle_fin; lra).
  assert (E2 : fle (Fin 0) (Fin t) = false) by (apply fle_fin_false; lra).
  rewrite E1, E2. cbn [andb].
  unfold LAL_PI.
  destruct (to_REAL8_near PI) as (p & -> & Dp); [apply Rabs_def1; lra|].
  apply Rabs_le_inv in Dp.
  unfold sub8, fsub. cbn [fneg fadd].
  destruct (to_REAL8_near (tb + - p)) as (d & -> & Dd);
    [apply Rabs_def1; lra|].
  apply Rabs_le_inv in Dd.
  assert (E3 : fle (Fin d) (Fin t) = true) by (apply fle_fin; lra).
  assert (E4 : flt (Fin t) (Fin 0) = true) by (apply flt_fin; lra).
  rewrite E3, E4. reflexivity.
Qed.

(** At that sample, with a boundary angle [thetab] of [0, 5/4], the value
    the loop takes as constrained SNR is larger than the unconstrained
    one. *)
Lemma example_underflow_order (tb : R) :
  0 <= tb <= 5 / 4 ->
  let s := example_scale in
  let V0 := Fin (12 * (s * s)) in
  let V1 := Fin (8 * (s * s)) in
  let V2 := Fin (- 8 * (s * s)) in
  exists rhoConstraint rhoUnconstraint : R,
    REAL4_constrained_snr (Fin tb) (REAL4_thetav V2 V1) V0 V1 V2 0
      = Returned (Fin rhoConstraint)
    /\ REAL4_rho_unconstraint V0 V1 V2 = Fin rhoUnconstraint
    /\ rhoUnconstraint <= 21 / 8 * s
    /\ 23 / 8 * s <= rhoConstraint.
Proof.
  intros Hb. cbv zeta.
  destruct example_underflow_thetav as (t & Et & Ht).
  destruct example_underflow_unconstrained as (ru & Eu & Hu).
  destruct example_underflow_V1_sector as (rc & Ec & Hc).
  exists rc, ru.
  unfold REAL4_constrained_snr, REAL4_thetav, REAL4_rho_unconstraint,
    rounded_constrained_snr.
  rewrite Et, (example_underflow_sector tb t Hb Ht), Ec, Eu.
  auto.
Qed.

(** C2 as stated fails on the values the program computes.  Take the
    sample [x1 .. x4 = (3, -1, -1, 1) * 2^-50] and the boundary angle
    [thetab = 1/2] (any angle of [0, 5/4] does the same).  Every
    operation up to [V0 = 12 * 2^-100], [V1 = 8 * 2^-100] and
    [V2 = -8 * 2^-100] is exact in REAL4.  The squares [V1*V1] and
    [V2*V2] are [2^-194], below half the smallest positive REAL4 value
    [2^-149]: they and their sum are stored as 0, so
    [rhoUnconstraint = sqrt ((V0 + 0) / 2.)] is about [2.45 * 2^-50].
    The angle [thetav = atan2 (V2, V1)] is about [-PI/4], which is
    negative and not below [thetab - LAL_PI]: the loop takes
    [rhoConstraint = sqrt ((V0 + V1) / 2.)], about [3.16 * 2^-50], and
    the constrained value is the larger one. *)
Lemma constrained_le_unconstrained_counterexample :
  let s := powerRZ 2 (- 50) in
  let x1 := Fin (3 * s) in
  let x2 := Fin (- s) in
  let x3 := Fin (- s) in
  let x4 := Fin s in
  let V0 := REAL4_sample_V0 x1 x2 x3 x4 in
  let V1 := REAL4_sample_V1 x1 x2 x3 x4 in
  let V2 := REAL4_sample_V2 x1 x2 x3 x4 in
  V0 = Fin (12 * (s * s)) /\ V1 = Fin (8 * (s * s))
  /\ V2 = Fin (- 8 * (s * s))
  /\ add4 to_REAL4 (mul4 to_REAL4 V1 V1) (mul4 to_REAL4 V2 V2) = Fin 0
  /\ exists rhoConstraint rhoUnconstraint : R,
       REAL4_constrained_snr (Fin (1 / 2)) (REAL4_thetav V2 V1) V0 V1 V2 0
         = Returned (Fin rhoConstraint)
       /\ REAL4_rho_unconstraint V0 V1 V2 = Fin rhoUnconstraint
       /\ rhoUnconstraint <= 21 / 8 * s
       /\ 23 / 8 * s <= rhoConstraint
       /\ rhoUnconstraint < rhoConstraint
       /\ fle (Fin rhoConstraint) (Fin rhoUnconstraint) = false.
Proof.
  cbv zeta. fold example_scale.
  unfold REAL4_sample_V0, REAL4_sample_V1, REAL4_sample_V2.
  destruct example_underflow_V as (-> & -> & ->).
  pose proof example_scale_pos as Ps.
  split; [reflexivity|]. split; [reflexivity|]. split; [reflexivity|].
  split; [exact example_underflow_squares|].
  destruct (example_underflow_order (1 / 2) ltac:(lra))
    as (rc & ru & Ec & Eu & Hu & Hc).
  assert (L : ru < rc) by lra.
  exists rc, ru.
  split; [exact Ec|]. split; [exact Eu|].
  split; [exact Hu|]. split; [exact Hc|]. split; [exact L|].
  apply fle_fin_false. exact L.
Qed.

End Roundings.

(** ** The filters after the maximizer *)

(** What one application of the orthogonalizer does to the swapped bins. *)
Lemma LALGetOrthogonalFilterBCV2_swaps (f g : list REAL) :
  LALGetOrthogonalFilterBCV2 f = Some g ->
  length g = length f
  /\ forall i, (1 <= i < length f / 2)%nat ->
       g !! i = fneg <$> f !! (length f - i)%nat
       /\ g !! (length f - i)%nat = f !! i.
Proof.
  intros H.
  destruct (LALGetOrthogonalFilterBCV2_spec f) as (g' & Hg & Hlen & Hspec).
  rewrite Hg in H. inversion H; subst g'. split; [exact Hlen|].
  intros i Hi.
  assert (Hq : (2 * (length f / 2) <= length f)%nat).
  { pose proof (Nat.div_mod_eq (length f) 2). lia. }
  rewrite !Hspec. unfold orthogonal_upto. split.
  - rewrite decide_True by lia. reflexivity.
  - rewrite decide_False by lia. rewrite decide_True by lia.
    f_equal. lia.
Qed.

(** C10.  When [LALWaveOverlapBCV] returns and the extra final printing is
    disabled, each of the two filter buffers holds the result of exactly
    one application of [LALGetOrthogonalFilterBCV2] to the filter that was
    passed in: bin [i] holds the negated old bin [N - i] and bin [N - i]
    holds the old bin [i], for [1 <= i < N/2]. *)
Theorem LALWaveOverlapBCV_orthogonalizes_filters
    (correlate : InspiralWaveCorrelateIn -> bool * list REAL)
    (s s' : OverlapState) (otherIn : OtherParamIn) (mo : BEMoments) :
  extraFinalPrinting otherIn = false ->
  LALWaveOverlapBCV correlate s otherIn mo = Returned s' ->
  LALGetOrthogonalFilterBCV2 (st_FilterBCV1 s) = Some (st_FilterBCV1 s')
  /\ LALGetOrthogonalFilterBCV2 (st_FilterBCV2 s) = Some (st_FilterBCV2 s')
  /\ (forall i, (1 <= i < length (st_FilterBCV1 s) / 2)%nat ->
        st_FilterBCV1 s' !! i
          = fneg <$> st_FilterBCV1 s !! (length (st_FilterBCV1 s) - i)%nat
        /\ st_FilterBCV1 s' !! (length (st_FilterBCV1 s) - i)%nat
          = st_FilterBCV1 s !! i)
  /\ (forall i, (1 <= i < length (st_FilterBCV2 s) / 2)%nat ->
        st_FilterBCV2 s' !! i
          = fneg <$> st_FilterBCV2 s !! (length (st_FilterBCV2 s) - i)%nat
        /\ st_FilterBCV2 s' !! (length (st_FilterBCV2 s) - i)%nat
          = st_FilterBCV2 s !! i).
Proof.
  intros Hprint H.
  assert (Hp : printing otherIn = false).
  { unfold printing. rewrite Hprint. apply andb_false_r. }
  unfold LALWaveOverlapBCV in H. rewrite Hp in H.
  apply outcome_bind_returned in H as (x1 & _ & H).
  apply outcome_bind_returned in H as (F1 & HF1 & H).
  apply outcome_bind_returned in H as (x3 & _ & H).
  apply outcome_bind_returned in H as (x2 & _ & H).
  apply outcome_bind_returned in H as (F2 & HF2 & H).
  apply outcome_bind_returned in H as (k & _ & H).
  apply outcome_bind_returned in H as (c11 & _ & H).
  apply outcome_bind_returned in H as (c22 & _ & H).
  apply outcome_bind_returned in H as (c21 & _ & H).
  apply outcome_bind_returned in H as (st & _ & H).
  inversion H; subst s'; clear H. cbn [st_FilterBCV1 st_FilterBCV2].
  apply defined_returned in HF1, HF2.
  split; [exact HF1|]. split; [exact HF2|].
  split.
  - apply (LALGetOrthogonalFilterBCV2_swaps _ _ HF1).
  - apply (LALGetOrthogonalFilterBCV2_swaps _ _ HF2).
Qed.

(** ** The maximizer returns *)

Lemma for_loop_outcome_invariant {St : Type} (Inv : St -> Prop)
    (body : nat -> St -> outcome St) (c i : nat) (s : St) :
  Inv s ->
  (forall j sj, (i <= j < i + c)%nat -> Inv sj ->
     exists sj', body j sj = Returned sj' /\ Inv sj') ->
  exists s', for_loop_outcome body i c s = Returned s' /\ Inv s'.
Proof.
  revert i s. induction c as [|c IH]; intros i s Hs Hbody.
  - exists s. split; [reflexivity|exact Hs].
  - destruct (Hbody i s) as (s1 & H1 & Hs1); [lia|exact Hs|].
    destruct (IH (S i) s1 Hs1) as (s' & H' & Hs').
    { intros j sj Hj. apply Hbody. lia. }
    exists s'. split; [|exact Hs'].
    cbn [for_loop_outcome]. rewrite H1. exact H'.
Qed.

Lemma all_finite_lookup (v : list REAL) (i : nat) :
  all_finite v -> (i < length v)%nat -> exists r, v !! i = Some (Fin r).
Proof.
  intros Hv Hi. destruct (lookup_lt_is_Some_2 v i Hi) as [x Hx].
  pose proof (proj1 (Forall_lookup _ _) Hv i x Hx) as Hf.
  destruct x; try discriminate. eauto.
Qed.

(** With a finite boundary angle and finite correlations, an iteration of
    the sample loop inside the vectors returns. *)
Lemma overlap_body_total (otherIn : OtherParamIn) (x1 x2 x3 x4 : list REAL)
    (c11 c21 c22 fp23 : REAL) (th : R) (i : nat) (st : MaxLoop) :
  all_finite x1 -> all_finite x2 -> all_finite x3 -> all_finite x4 ->
  (i < length x1)%nat -> (i < length x2)%nat ->
  (i < length x3)%nat -> (i < length x4)%nat ->
  (i < length (correlation st))%nat ->
  exists st',
    overlap_body otherIn x1 x2 x3 x4 c11 c21 c22 (Fin th) fp23 i st
      = Returned st'
    /\ length (correlation st') = length (correlation st).
Proof.
  intros F1 F2 F3 F4 L1 L2 L3 L4 Lc.
  destruct (all_finite_lookup _ _ F1 L1) as [r1 E1].
  destruct (all_finite_lookup _ _ F2 L2) as [r2 E2].
  destruct (all_finite_lookup _ _ F3 L3) as [r3 E3].
  destruct (all_finite_lookup _ _ F4 L4) as [r4 E4].
  unfold overlap_body, load. rewrite E1, E2, E3, E4.
  cbn [defined mbind outcome_mbind outcome_bind].
  destruct (constrained_snr_finite th r1 r2 r3 r4 i) as [rho Hrho].
  cbv zeta in Hrho. rewrite Hrho.
  cbn [mbind outcome_mbind outcome_bind].
  destruct (alphaFConstraint otherIn);
    destruct (printBestOverlap otherIn || printSNRHisto otherIn);
    repeat match goal with
           | |- context [store ?v ?j ?x] => rewrite (store_Some v j x) by exact Lc
           | |- context [if ?b then _ else _] => destruct b
           end;
    cbn [defined mbind outcome_mbind outcome_bind];
    repeat match goal with
           | |- context [if ?b then _ else _] => destruct b
           end;
    (eexists; split; [reflexivity|]); cbn [correlation];
    rewrite ?length_insert; reflexivity.
Qed.

Lemma overlap_loop_total (otherIn : OtherParamIn) (x1 x2 x3 x4 : list REAL)
    (c11 c21 c22 fp23 : REAL) (th : R) (a b : nat) (st : MaxLoop) :
  all_finite x1 -> all_finite x2 -> all_finite x3 -> all_finite x4 ->
  (b <= length x1)%nat -> (b <= length x2)%nat ->
  (b <= length x3)%nat -> (b <= length x4)%nat ->
  (b <= length (correlation st))%nat ->
  exists st',
    for_range_outcome
      (overlap_body otherIn x1 x2 x3 x4 c11 c21 c22 (Fin th) fp23) a b st
      = Returned st'
    /\ length (correlation st') = length (correlation st).
Proof.
  intros F1 F2 F3 F4 L1 L2 L3 L4 Lc. unfold for_range_outcome.
  apply (for_loop_outcome_invariant
           (fun s => length (correlation s) = length (correlation st)));
    [reflexivity|].
  intros j sj Hj Hsj.
  destruct (overlap_body_total otherIn x1 x2 x3 x4 c11 c21 c22 fp23 th j sj)
    as (sj' & Hb & Hl); auto; try lia.
  exists sj'. split; [exact Hb|]. congruence.
Qed.

(** The maximizer returns when every correlation succeeds with finite
    values, the bin of the cutoff frequency is inside the moment vectors,
    the boundary angle is finite and the sample range is inside the
    vectors. *)
Lemma LALWaveOverlapBCV_returns
    (correlate : InspiralWaveCorrelateIn -> bool * list REAL)
    (s : OverlapState) (otherIn : OtherParamIn) (mo : BEMoments)
    (k : Z) (c11 c21 c22 : REAL) (th : R) :
  let p := param (st_overlapin s) in
  let n := length (st_correlation s) in
  printing otherIn = false ->
  (forall c, (correlate c).1 = true /\ all_finite (correlate c).2
             /\ length (correlate c).2 = n) ->
  to_unsigned 32
    (ffloor (fdiv (fFinal p)
               (fdiv (fdiv (tSampling p) (fdiv (of_Z (Z.of_nat n)) (Fin 2)))
                     (Fin 2)))) = Some k ->
  a11 mo !! Z.to_nat k = Some c11 ->
  a22 mo !! Z.to_nat k = Some c22 ->
  a21 mo !! Z.to_nat k = Some c21 ->
  fatan (fdiv (fneg (fmul c11 (fpow (fFinal p) (fdiv (Fin (-2)) (Fin 3)))))
              (fadd c22 (fmul c21 (fpow (fFinal p) (fdiv (Fin (-2)) (Fin 3))))))
    = Fin th ->
  (Z.to_nat ((Z.of_nat (length (st_FilterBCV1 s)) - nEnd (st_overlapin s))
             mod UINT4_MAX1) <= n)%nat ->
  exists s', LALWaveOverlapBCV correlate s otherIn mo = Returned s'.
Proof.
  intros p n Hp Hcorr Hk H11 H22 H21 Hth Hend.
  destruct (LALGetOrthogonalFilterBCV2_spec (st_FilterBCV1 s))
    as (F1 & HF1 & HlF1 & _).
  destruct (LALGetOrthogonalFilterBCV2_spec (st_FilterBCV2 s))
    as (F2 & HF2 & _ & _).
  unfold LALWaveOverlapBCV. rewrite Hp. cbv zeta.
  unfold correlate_checked.
  cbn [param fFinal tSampling nEnd nBegin corr_fCutoff signal psd].
  fold p n.
  repeat (first [ rewrite (proj1 (Hcorr _)) | rewrite HF1 | rewrite HF2
                | rewrite Hk | unfold load; rewrite H11, H22, H21 ];
          cbn [defined mbind outcome_mbind outcome_bind]).
  rewrite Hth. rewrite HlF1.
  match goal with
  | |- context [for_range_outcome
                  (overlap_body ?o ?y1 ?y2 ?y3 ?y4 ?d11 ?d21 ?d22 (Fin ?t) ?f)
                  ?lo ?hi ?st] =>
      destruct (overlap_loop_total o y1 y2 y3 y4 d11 d21 d22 f t lo hi st)
        as (st' & Hloop & _)
  end;
    try apply Hcorr;
    try (rewrite (proj2 (proj2 (Hcorr _))); exact Hend);
    try exact Hend.
  rewrite Hloop. cbn [mbind outcome_mbind outcome_bind]. eauto.
Qed.

(** ** Conversions to integers *)

Lemma Int_part_IZR (z : Z) : Int_part (IZR z) = z.
Proof. symmetry. apply Int_part_spec. lra. Qed.

Lemma to_unsigned_floor (w : Z) (r : R) (z : Z) :
  (0 <= z < 2 ^ w)%Z -> (IZR z <= r < IZR z + 1)%R ->
  to_unsigned w (ffloor (Fin r)) = Some z.
Proof.
  intros Hz Hr.
  assert (E : Int_part r = z) by (symmetry; apply Int_part_spec; lra).
  unfold ffloor, to_unsigned, Rtrunc. rewrite E.
  destruct (Rlt_dec (IZR z) 0) as [Hneg|_].
  - apply lt_IZR in Hneg. lia.
  - rewrite Int_part_IZR.
    replace ((0 <=? z)%Z && (z <? 2 ^ w)%Z) with true; [reflexivity|].
    symmetry. apply andb_true_iff. split; [apply Z.leb_le|apply Z.ltb_lt]; lia.
Qed.

Lemma example_overlap_returns :
  exists s',
    LALWaveOverlapBCV example_correlate example_overlap_state example_otherIn
      example_moments = Returned s'.
Proof.
  apply (LALWaveOverlapBCV_returns example_correlate example_overlap_state
           example_otherIn example_moments 1 (Fin 1) (Fin 0) (Fin 1)
           (atan (- (1 * Rpower 1 (-2 / 3)) / (1 + 0 * Rpower 1 (-2 / 3))))).
  - reflexivity.
  - intros c. split; [reflexivity|]. split; [|reflexivity].
    repeat constructor.
  - cbn [example_overlap_state st_overlapin st_correlation param fFinal
           tSampling length replicate].
    unfold of_Z. change (Z.of_nat 4) with 4%Z.
    rewrite (fdiv_fin 4 2) by lra.
    rewrite (fdiv_fin 4 (4 / 2)) by lra.
    rewrite (fdiv_fin (4 / (4 / 2)) 2) by lra.
    rewrite (fdiv_fin 1 (4 / (4 / 2) / 2)) by lra.
    apply to_unsigned_floor; [lia|lra].
  - reflexivity.
  - reflexivity.
  - reflexivity.
  - cbn [example_overlap_state st_overlapin param fFinal].
    rewrite (fdiv_fin (-2) 3) by lra.
    rewrite fpow_fin by lra.
    cbn [fmul fneg fadd].
    rewrite fdiv_fin by lra. reflexivity.
  - vm_compute. lia.
Qed.

(** The hypotheses of [LALWaveOverlapBCV_orthogonalizes_filters] hold on
    the example state: the maximizer returns, and the filters (1, 2, 3, 4)
    and (5, 6, 7, 8) have become (1, -4, 3, 2) and (5, -8, 7, 6). *)
Lemma LALWaveOverlapBCV_orthogonalizes_filters_witness :
  exists s',
    extraFinalPrinting example_otherIn = false
    /\ LALWaveOverlapBCV example_correlate example_overlap_state
         example_otherIn example_moments = Returned s'
    /\ Some (st_FilterBCV1 s') = Some [Fin 1; Fin (- 4); Fin 3; Fin 2]
    /\ Some (st_FilterBCV2 s') = Some [Fin 5; Fin (- 8); Fin 7; Fin 6].
Proof.
  destruct example_overlap_returns as [s' Hs'].
  exists s'. split; [reflexivity|]. split; [exact Hs'|].
  destruct (LALWaveOverlapBCV_orthogonalizes_filters example_correlate
              example_overlap_state s' example_otherIn example_moments
              eq_refl Hs') as (H1 & H2 & _).
  split.
  - rewrite <- H1. reflexivity.
  - rewrite <- H2. reflexivity.
Defined.

(** ** The frequency-power vectors *)

(** A loop that stores [g i] at index [i]. *)
Lemma store_loop (g : nat -> REAL) (c i : nat) (v : list REAL) :
  (i + c <= length v)%nat ->
  exists v',
    for_loop (fun j w => store w j (g j)) i c v = Some v'
    /\ length v' = length v
    /\ forall t, v' !! t
         = if decide (i <= t < i + c)%nat then Some (g t) else v !! t.
Proof.
  revert i v. induction c as [|c IH]; intros i v Hc.
  - exists v. split; [reflexivity|]. split; [reflexivity|].
    intros t. rewrite decide_False by lia. reflexivity.
  - destruct (IH (S i) (<[i:=g i]> v)) as (v' & Hv' & Hlen & Hlook).
    { rewrite length_insert. lia. }
    exists v'. split; [|split].
    + cbn [for_loop]. rewrite store_Some by lia. exact Hv'.
    + rewrite Hlen. apply length_insert.
    + intros t. rewrite Hlook.
      destruct (decide (t = i)) as [->|Hne].
      * rewrite decide_False by lia. rewrite decide_True by lia.
        apply list_lookup_insert_eq. lia.
      * rewrite list_lookup_insert_ne by auto.
        destruct (decide (S i <= t < S i + c)%nat);
          [rewrite decide_True by lia|rewrite decide_False by lia];
          reflexivity.
Qed.

Lemma frequency_power_vector_lookup (n : nat) (rate : REAL) (a b : Z)
    (t : nat) :
  frequency_power_vector n rate a b !! t
  = if decide (t < n)%nat then Some (frequency_power n rate a b t) else None.
Proof.
  unfold frequency_power_vector. rewrite list_lookup_fmap.
  destruct (decide (t < n)%nat) as [Ht|Ht].
  - rewrite lookup_seq_lt by exact Ht. reflexivity.
  - rewrite lookup_seq_ge by lia. reflexivity.
Qed.

(** The builder overwrites the whole vector with the closed form. *)
Lemma LALCreateVectorFreqPower_closed_form (vector : list REAL)
    (params : InspiralTemplate) (a b : Z) :
  (1 <= length vector)%nat ->
  LALCreateVectorFreqPower vector params a b
  = Some (frequency_power_vector (length vector) (tSampling params) a b).
Proof.
  intros Hn. unfold LALCreateVectorFreqPower, for_range.
  rewrite store_Some by lia. cbn [mbind option_bind].
  match goal with
  | |- for_loop ?body 1 ?c ?v = _ =>
      destruct (store_loop
                  (fun i => fpow (fmul (of_Z (Z.of_nat i))
                                   (fdiv (fdiv (tSampling params)
                                            (of_Z (Z.of_nat (length vector))))
                                         (Fin 2)))
                                 (fdiv (of_Z a) (of_Z b)))
                  c 1 v) as (v' & Hv' & Hlen & Hlook)
  end.
  { rewrite length_insert. lia. }
  rewrite Hv'. f_equal. apply list_eq. intros t.
  rewrite Hlook, frequency_power_vector_lookup.
  destruct t as [|t].
  - rewrite decide_False by lia. rewrite decide_True by lia.
    apply list_lookup_insert_eq. lia.
  - rewrite list_lookup_insert_ne by lia.
    destruct (decide (S t < length vector)%nat) as [Ht|Ht].
    + rewrite decide_True by lia. reflexivity.
    + rewrite decide_False by lia. apply lookup_ge_None. lia.
Qed.

(** C9, as the code has it.  For a signal of length [N] with [N/2 >= 1],
    [LALCreateVectorFreqPower] overwrites any vector of [n = N/2] elements
    with the same sequence, whatever the vector held before: element 0 is
    0 and element [i > 0] is [(i * df) ^ (a / b)] with
    [df = samplingRate / n / 2], that is [samplingRate / (N/2) / 2];
    [BECreatePowerVector] returns the four sequences of length [N/2] for
    the exponents -5/3, -2/3, -7/6 and -1/2. *)
Theorem BECreatePowerVector_closed_form (param : InspiralTemplate) (N : Z) :
  (1 <= half_length N)%nat ->
  (forall (vector : list REAL) (a b : Z),
     length vector = half_length N ->
     LALCreateVectorFreqPower vector param a b
     = Some (frequency_power_vector (half_length N) (tSampling param) a b))
  /\ BECreatePowerVector param N
     = Some {| fm5_3 := frequency_power_vector (half_length N)
                          (tSampling param) (-5) 3;
               fm2_3 := frequency_power_vector (half_length N)
                          (tSampling param) (-2) 3;
               fm7_6 := frequency_power_vector (half_length N)
                          (tSampling param) (-7) 6;
               fm1_2 := frequency_power_vector (half_length N)
                          (tSampling param) (-1) 2 |}
  /\ (forall a b : Z,
        length (frequency_power_vector (half_length N) (tSampling param) a b)
        = half_length N
        /\ frequency_power_vector (half_length N) (tSampling param) a b !! 0%nat
           = Some fzero
        /\ forall i, (1 <= i < half_length N)%nat ->
             frequency_power_vector (half_length N) (tSampling param) a b !! i
             = Some (fpow
                       (fmul (of_Z (Z.of_nat i))
                          (fdiv (fdiv (tSampling param)
                                   (of_Z (Z.of_nat (half_length N))))
                                (Fin 2)))
                       (fdiv (of_Z a) (of_Z b)))).
Proof.
  intros Hn.
  assert (Hbuild : forall (vector : list REAL) (a b : Z),
            length vector = half_length N ->
            LALCreateVectorFreqPower vector param a b
            = Some (frequency_power_vector (half_length N)
                      (tSampling param) a b)).
  { intros vector a b Hlen. rewrite <- Hlen.
    apply LALCreateVectorFreqPower_closed_form. lia. }
  split; [exact Hbuild|]. split.
  - unfold BECreatePowerVector.
    rewrite !Hbuild by apply length_replicate. reflexivity.
  - intros a b. split; [|split].
    + unfold frequency_power_vector. rewrite length_map. apply length_seq.
    + rewrite frequency_power_vector_lookup. rewrite decide_True by lia.
      reflexivity.
    + intros i Hi. rewrite frequency_power_vector_lookup.
      rewrite decide_True by lia. destruct i as [|i]; [lia|]. reflexivity.
Qed.

(** The hypothesis of [BECreatePowerVector_closed_form] holds for a signal
    of length 8. *)
Lemma BECreatePowerVector_closed_form_witness :
  (1 <= half_length 8)%nat
  /\ BECreatePowerVector example_template 8
     = Some {| fm5_3 := frequency_power_vector 4 (Fin 4) (-5) 3;
               fm2_3 := frequency_power_vector 4 (Fin 4) (-2) 3;
               fm7_6 := frequency_power_vector 4 (Fin 4) (-7) 6;
               fm1_2 := frequency_power_vector 4 (Fin 4) (-1) 2 |}.
Proof.
  assert (H : (1 <= half_length 8)%nat) by (vm_compute; lia).
  split; [exact H|].
  exact (proj1 (proj2 (BECreatePowerVector_closed_form example_template 8 H))).
Defined.

(** C9 as stated fails: for a signal of length [N = 4] sampled at rate 4
    and the exponent 1/1, the sequence built by the code has the length
    [N/2 = 2] but its element 1 is [(1 * (4 / 2 / 2)) ^ 1 = 1], not the
    stated [(1 * (4 / 4 / 2)) ^ 1 = 1/2].  (If [N] were the length of the
    vector handed to [LALCreateVectorFreqPower], the sequence would have
    [N] elements, not [N/2]: a vector of 4 elements is filled with 4.) *)
Lemma frequency_power_counterexample :
  (exists (v : list REAL) (x : REAL),
     LALCreateVectorFreqPower (LALCalloc (half_length 4)) example_template 1 1
       = Some v
     /\ length v = half_length 4
     /\ v !! 1%nat = Some x
     /\ x = Fin 1
     /\ specified_frequency_power 4 (tSampling example_template) 1 1 1
        = Fin (1 / 2)
     /\ x <> specified_frequency_power 4 (tSampling example_template) 1 1 1)
  /\ (exists v : list REAL,
        LALCreateVectorFreqPower (LALCalloc 4) example_template 1 1 = Some v
        /\ length v = 4%nat /\ 4%nat <> (4 / 2)%nat).
Proof.
  split;
    [|exists (frequency_power_vector 4 (Fin 4) 1 1);
      split; [apply (LALCreateVectorFreqPower_closed_form (LALCalloc 4));
              vm_compute; lia|];
      split; [reflexivity|vm_compute; lia]].
  assert (Ecode : frequency_power 2 (Fin 4) 1 1 1 = Fin 1).
  { unfold frequency_power, of_Z. change (Z.of_nat 1) with 1%Z.
    change (Z.of_nat 2) with 2%Z.
    rewrite (fdiv_fin 4 2) by lra. rewrite (fdiv_fin (4 / 2) 2) by lra.
    rewrite (fdiv_fin 1 1) by lra. cbn [fmul].
    rewrite fpow_fin by lra.
    replace (1 / 1)%R with 1%R by lra. rewrite Rpower_1 by lra.
    f_equal. lra. }
  assert (Espec : specified_frequency_power 4 (Fin 4) 1 1 1 = Fin (1 / 2)).
  { unfold specified_frequency_power, of_Z. change (Z.of_nat 1) with 1%Z.
    rewrite (fdiv_fin 4 4) by lra. rewrite (fdiv_fin (4 / 4) 2) by lra.
    rewrite (fdiv_fin 1 1) by lra. cbn [fmul].
    rewrite fpow_fin by lra.
    replace (1 / 1)%R with 1%R by lra. rewrite Rpower_1 by lra.
    f_equal. lra. }
  exists (frequency_power_vector 2 (Fin 4) 1 1), (frequency_power 2 (Fin 4) 1 1 1).
  split; [|split; [|split; [|split; [|split]]]].
  - apply (LALCreateVectorFreqPower_closed_form (LALCalloc (half_length 4))).
    vm_compute. lia.
  - reflexivity.
  - reflexivity.
  - exact Ecode.
  - exact Espec.
  - cbn [example_template tSampling]. rewrite Ecode, Espec.
    intros H. inversion H. lra.
Qed.

(** ** The noise-moment calculator *)

Lemma for_loop_app {St : Type} (body : nat -> St -> option St)
    (c1 c2 i : nat) (s : St) :
  for_loop body i (c1 + c2) s
  = for_loop body i c1 s ≫= for_loop body (i + c1) c2.
Proof.
  revert i s. induction c1 as [|c1 IH]; intros i s.
  - cbn. rewrite Nat.add_0_r. reflexivity.
  - cbn [for_loop Nat.add]. destruct (body i s) as [s'|]; [|reflexivity].
    rewrite IH. replace (S i + c1)%nat with (i + S c1)%nat by lia.
    reflexivity.
Qed.

Lemma moment_sum_S (psd : REAL8FrequencySeries) (norm e : REAL)
    (kMin c : nat) :
  moment_sum psd norm e kMin (S c)
  = moment_sum_step psd norm e (moment_sum psd norm e kMin c) (kMin + c).
Proof. unfold moment_sum. rewrite seq_S, foldl_snoc. reflexivity. Qed.

Lemma moment_body_inv (psd : REAL8FrequencySeries) (norm : REAL) (k : nat)
    (st st' : MomentLoop) :
  moment_body psd norm k st = Some st' ->
  exists p, data psd !! k = Some p
    /\ ((ftruth p = false /\ st' = st)
        \/ (ftruth p = true
            /\ (k < length (a11 (moments st)))%nat
            /\ (k < length (a22 (moments st)))%nat
            /\ (k < length (a21 (moments st)))%nat
            /\ m7 st' = fadd (m7 st)
                 (moment_term psd norm (fdiv (Fin 7) (Fin 3))
                    (bin_frequency psd k) p)
            /\ m5 st' = fadd (m5 st)
                 (moment_term psd norm (fdiv (Fin 5) (Fin 3))
                    (bin_frequency psd k) p)
            /\ m3 st' = fadd (m3 st)
                 (moment_term psd norm (Fin 1) (bin_frequency psd k) p)
            /\ a11 (moments st')
               = <[k := coefficient_a11 (m7 st')]> (a11 (moments st))
            /\ a22 (moments st')
               = <[k := coefficient_a22 (m7 st') (m5 st') (m3 st')]>
                   (a22 (moments st))
            /\ a21 (moments st')
               = <[k := coefficient_a21 (m7 st') (m5 st') (m3 st')]>
                   (a21 (moments st)))).
Proof.
  unfold moment_body, load. intros H.
  destruct (data psd !! k) as [p|]; [|discriminate].
  exists p. split; [reflexivity|]. cbn [mbind option_bind] in H.
  destruct (ftruth p) eqn:Hp.
  - right. split; [reflexivity|].
    match type of H with
    | context [store (a11 (moments st)) k ?v] =>
        destruct (store (a11 (moments st)) k v) as [v11|] eqn:H11;
          [|discriminate]
    end. cbn [mbind option_bind] in H.
    match type of H with
    | context [store (a22 (moments st)) k ?v] =>
        destruct (store (a22 (moments st)) k v) as [v22|] eqn:H22;
          [|discriminate]
    end. cbn [mbind option_bind] in H.
    apply store_inv in H11 as [L11 ->]. apply store_inv in H22 as [L22 ->].
    rewrite list_lookup_insert_eq in H by exact L22.
    cbn [mbind option_bind] in H.
    match type of H with
    | context [store (a21 (moments st)) k ?v] =>
        destruct (store (a21 (moments st)) k v) as [v21|] eqn:H21;
          [|discriminate]
    end. cbn [mbind option_bind] in H.
    apply store_inv in H21 as [L21 ->].
    inversion H; subst st'; clear H. cbn [m7 m5 m3 moments a11 a22 a21].
    repeat split; assumption.
  - left. inversion H. auto.
Qed.

(** The accumulation loop computes the cumulative sums and, at every bin
    with a nonzero PSD, the three coefficients of the sums up to that
    bin; it writes no other bin. *)
Lemma moment_loop_spec (psd : REAL8FrequencySeries) (norm : REAL)
    (kMin c : nat) (mo1 : BEMoments) (st : MomentLoop) :
  for_loop (moment_body psd norm) kMin c
    {| m7 := Fin 0; m5 := Fin 0; m3 := Fin 0; moments := mo1 |} = Some st ->
  m7 st = moment_sum psd norm (fdiv (Fin 7) (Fin 3)) kMin c
  /\ m5 st = moment_sum psd norm (fdiv (Fin 5) (Fin 3)) kMin c
  /\ m3 st = moment_sum psd norm (Fin 1) kMin c
  /\ length (a11 (moments st)) = length (a11 mo1)
  /\ length (a22 (moments st)) = length (a22 mo1)
  /\ length (a21 (moments st)) = length (a21 mo1)
  /\ (forall k p, (kMin <= k < kMin + c)%nat ->
        data psd !! k = Some p -> ftruth p = true ->
        let M7 := moment_sum psd norm (fdiv (Fin 7) (Fin 3)) kMin (S k - kMin) in
        let M5 := moment_sum psd norm (fdiv (Fin 5) (Fin 3)) kMin (S k - kMin) in
        let M3 := moment_sum psd norm (Fin 1) kMin (S k - kMin) in
        a11 (moments st) !! k = Some (coefficient_a11 M7)
        /\ a22 (moments st) !! k = Some (coefficient_a22 M7 M5 M3)
        /\ a21 (moments st) !! k = Some (coefficient_a21 M7 M5 M3))
  /\ (forall k, (k < kMin \/ kMin + c <= k)%nat
                \/ data psd !! k = Some (Fin 0) ->
        a11 (moments st) !! k = a11 mo1 !! k
        /\ a22 (moments st) !! k = a22 mo1 !! k
        /\ a21 (moments st) !! k = a21 mo1 !! k).
Proof.
  revert st. induction c as [|c IH]; intros st H.
  - cbn in H. inversion H; subst st; clear H. cbn [m7 m5 m3 moments].
    repeat split; auto; intros; lia.
  - rewrite for_loop_snoc in H.
    destruct (for_loop (moment_body psd norm) kMin c _) as [st0|] eqn:Hc;
      [|discriminate].
    cbn [mbind option_bind] in H.
    destruct (IH st0 eq_refl)
      as (E7 & E5 & E3 & L11 & L22 & L21 & Hacc & Hframe).
    apply moment_body_inv in H as (p & Hp & Hcase).
    rewrite !moment_sum_S. unfold moment_sum_step, load. rewrite Hp.
    destruct Hcase as [[Hz ->]|(Ht & B11 & B22 & B21 & S7 & S5 & S3
                                  & A11 & A22 & A21)].
    + rewrite Hz.
      split; [exact E7|]. split; [exact E5|]. split; [exact E3|].
      split; [exact L11|]. split; [exact L22|]. split; [exact L21|].
      split.
      * intros k q Hk Hq Hqt.
        destruct (decide (k = kMin + c)%nat) as [->|Hne].
        -- rewrite Hp in Hq. inversion Hq; subst q. congruence.
        -- apply (Hacc k q); auto. lia.
      * intros k [Hk|Hk]; apply Hframe; auto.
        destruct (decide (k = kMin + c)%nat) as [->|Hne].
        -- right. apply ftruth_false in Hz. subst p. exact Hp.
        -- left. lia.
    + rewrite Ht. rewrite <- E7, <- E5, <- E3, <- S7, <- S5, <- S3.
      split; [reflexivity|]. split; [reflexivity|]. split; [reflexivity|].
      rewrite A11, A22, A21, !length_insert.
      split; [exact L11|]. split; [exact L22|]. split; [exact L21|].
      split.
      * intros k q Hk Hq Hqt.
        destruct (decide (k = kMin + c)%nat) as [->|Hne].
        -- replace (S (kMin + c) - kMin)%nat with (S c) by lia.
           cbv zeta. rewrite !moment_sum_S. unfold moment_sum_step, load.
           rewrite Hp, Ht. rewrite <- E7, <- E5, <- E3, <- S7, <- S5, <- S3.
           rewrite !list_lookup_insert_eq by lia. auto.
        -- rewrite !list_lookup_insert_ne by lia. apply (Hacc k q); auto. lia.
      * intros k Hk.
        assert (Hne : k <> (kMin + c)%nat).
        { destruct Hk as [Hk|Hk]; [lia|]. intros ->.
          rewrite Hp in Hk. inversion Hk; subst p.
          apply ftruth_fin in Ht. contradiction. }
        rewrite !list_lookup_insert_ne by lia. apply Hframe.
        destruct Hk as [Hk|Hk]; [left; lia|right; exact Hk].
Qed.

Lemma for_loop_invariant {St : Type} (Inv : St -> Prop)
    (body : nat -> St -> option St) (c i : nat) (s : St) :
  Inv s ->
  (forall j sj, (i <= j < i + c)%nat -> Inv sj ->
     exists sj', body j sj = Some sj' /\ Inv sj') ->
  exists s', for_loop body i c s = Some s' /\ Inv s'.
Proof.
  revert i s. induction c as [|c IH]; intros i s Hs Hbody.
  - exists s. split; [reflexivity|exact Hs].
  - destruct (Hbody i s) as (s1 & H1 & Hs1); [lia|exact Hs|].
    destruct (IH (S i) s1 Hs1) as (s' & H' & Hs').
    { intros j sj Hj. apply Hbody. lia. }
    exists s'. split; [|exact Hs'].
    cbn [for_loop]. rewrite H1. exact H'.
Qed.

(** Zeroing a bin of a freshly allocated vector changes nothing. *)
Lemma moment_skip_body_calloc (n k : nat) :
  (k < n)%nat -> moment_skip_body k (zero_moments n) = Some (zero_moments n).
Proof.
  intros Hk. unfold moment_skip_body, zero_moments, LALCalloc.
  cbn [a11 a22 a21].
  rewrite !store_Some by (rewrite length_replicate; exact Hk).
  cbn [mbind option_bind].
  rewrite !list_insert_id by (apply lookup_replicate_2; exact Hk).
  reflexivity.
Qed.

Lemma moment_skip_loop (n c i : nat) :
  (i + c <= n)%nat ->
  for_loop moment_skip_body i c (zero_moments n) = Some (zero_moments n).
Proof.
  revert i. induction c as [|c IH]; intros i Hc; [reflexivity|].
  cbn [for_loop]. rewrite moment_skip_body_calloc by lia. apply IH. lia.
Qed.

(** Beyond the end of the vectors the first loop writes out of bounds. *)
Lemma moment_skip_loop_overflow (n kMin : nat) :
  (n < kMin)%nat ->
  for_range moment_skip_body 0 kMin (zero_moments n) = None.
Proof.
  intros Hk. unfold for_range.
  replace (kMin - 0)%nat with (n + (kMin - n))%nat by lia.
  rewrite for_loop_app, moment_skip_loop by lia.
  cbn [mbind option_bind Nat.add].
  destruct (kMin - n)%nat as [|c] eqn:E; [lia|].
  cbn [for_loop]. unfold moment_skip_body, zero_moments, LALCalloc, store.
  cbn [a11 a21 a22]. rewrite decide_False by (rewrite length_replicate; lia).
  reflexivity.
Qed.

Lemma moment_body_total (psd : REAL8FrequencySeries) (norm : REAL)
    (n k : nat) (st : MomentLoop) :
  (k < length (data psd))%nat -> (k < n)%nat ->
  length (a11 (moments st)) = n -> length (a22 (moments st)) = n ->
  length (a21 (moments st)) = n ->
  exists st', moment_body psd norm k st = Some st'
    /\ length (a11 (moments st')) = n /\ length (a22 (moments st')) = n
    /\ length (a21 (moments st')) = n.
Proof.
  intros Hp Hk L11 L22 L21.
  destruct (lookup_lt_is_Some_2 (data psd) k Hp) as [p Ep].
  unfold moment_body, load. rewrite Ep. cbn [mbind option_bind].
  destruct (ftruth p); [|eauto].
  rewrite store_Some by lia. cbn [mbind option_bind].
  rewrite store_Some by lia. cbn [mbind option_bind].
  rewrite list_lookup_insert_eq by lia. cbn [mbind option_bind].
  rewrite store_Some by lia. cbn [mbind option_bind].
  eexists. split; [reflexivity|]. cbn [moments a11 a22 a21].
  rewrite !length_insert. auto.
Qed.

(** The two loops succeed when the bins they visit are inside the PSD and
    inside the moment vectors. *)
Lemma moment_loops_total (psd : REAL8FrequencySeries) (norm : REAL)
    (n kMin kMax : nat) :
  (kMin <= n)%nat -> (kMax <= n)%nat -> (kMax <= length (data psd))%nat ->
  exists st,
    moment_loops psd norm n kMin kMax = Some st
    /\ for_loop (moment_body psd norm) kMin (kMax - kMin)
         {| m7 := Fin 0; m5 := Fin 0; m3 := Fin 0;
            moments := zero_moments n |} = Some st.
Proof.
  intros Hmin Hmax Hpsd. unfold moment_loops, for_range.
  fold (zero_moments n). rewrite moment_skip_loop by lia.
  cbn [mbind option_bind].
  destruct (for_loop_invariant
              (fun st => length (a11 (moments st)) = n
                         /\ length (a22 (moments st)) = n
                         /\ length (a21 (moments st)) = n)
              (moment_body psd norm) (kMax - kMin) kMin
              {| m7 := Fin 0; m5 := Fin 0; m3 := Fin 0;
                 moments := zero_moments n |})
    as (st & Hst & _).
  - cbn [moments zero_moments a11 a22 a21]. unfold LALCalloc.
    rewrite !length_replicate. auto.
  - intros j sj Hj (L11 & L22 & L21).
    apply moment_body_total; auto; lia.
  - exists st. auto.
Qed.

(** ** Positivity of the moment coefficients *)

Section MomentPositivity.
Local Open Scope R_scope.

Variable psd : REAL8FrequencySeries.
Variables F0 dF Nm : R.
Variables kMin kMax : nat.

Hypothesis Hf0 : f0 psd = Fin F0.
Hypothesis HdF : deltaF psd = Fin dF.
Hypothesis HdF_pos : 0 < dF.
Hypothesis Hcut_pos : 0 < F0 + IZR (Z.of_nat kMin) * dF.
Hypothesis HNm_pos : 0 < Nm.
Hypothesis Hpsd_nonneg :
  forall k p, (kMin <= k < kMax)%nat -> data psd !! k = Some p ->
    exists r, p = Fin r /\ 0 <= r.

Local Abbreviation freq := (real_frequency F0 dF).
Local Abbreviation G := (frequency_two_thirds F0 dF).
Local Abbreviation accumulated := (accumulated_bin psd).
Local Abbreviation sums_invariant := (moment_sums_invariant_at psd F0 dF kMin).

Lemma bin_frequency_fin (k : nat) : bin_frequency psd k = Fin (freq k).
Proof. unfold bin_frequency, of_Z. rewrite Hf0, HdF. reflexivity. Qed.

Lemma freq_pos (k : nat) : (kMin <= k)%nat -> 0 < freq k.
Proof.
  intros Hk. unfold real_frequency.
  assert (IZR (Z.of_nat kMin) <= IZR (Z.of_nat k)) by (apply IZR_le; lia).
  nra.
Qed.



(** The three terms of a bin are [u], [u * g] and [u * g^2] for a
    positive weight [u] and [g = f^(2/3)]. *)
Lemma moment_terms_fin (k : nat) (r : R) :
  (kMin <= k)%nat -> 0 < r ->
  exists u, 0 < u
    /\ moment_term psd (Fin Nm) (fdiv (Fin 7) (Fin 3)) (Fin (freq k)) (Fin r)
       = Fin u
    /\ moment_term psd (Fin Nm) (fdiv (Fin 5) (Fin 3)) (Fin (freq k)) (Fin r)
       = Fin (u * G k)
    /\ moment_term psd (Fin Nm) (Fin 1) (Fin (freq k)) (Fin r)
       = Fin (u * G k * G k).
Proof.
  intros Hk Hr. pose proof (freq_pos k Hk) as Hf.
  set (a := Rpower (freq k) (- (7 / 3))).
  assert (Ha : 0 < a) by apply exp_pos.
  assert (E5 : Rpower (freq k) (- (5 / 3)) = a * G k).
  { unfold a, frequency_two_thirds. rewrite <- Rpower_plus. f_equal. lra. }
  assert (E3 : Rpower (freq k) (Ropp 1) = a * G k * G k).
  { unfold a, frequency_two_thirds. rewrite <- !Rpower_plus. f_equal. lra. }
  exists (a / r * dF / Nm). split.
  { apply Rdiv_lt_0_compat; [|exact HNm_pos].
    apply Rmult_lt_0_compat; [|exact HdF_pos].
    apply Rdiv_lt_0_compat; assumption. }
  unfold moment_term. rewrite HdF.
  rewrite (fdiv_fin 7 3), (fdiv_fin 5 3) by lra. cbn [fneg].
  rewrite !fpow_fin by lra.
  rewrite !fdiv_fin by lra. cbn [fmul]. rewrite !fdiv_fin by lra.
  fold a. rewrite E5, E3.
  split; [reflexivity|]. split; f_equal; field; lra.
Qed.





(** At the cutoff bin itself, when its PSD is positive, only one term has
    been accumulated: [m3 - m5^2/m7] is zero in exact arithmetic and the
    coefficient a22 is the division [1 / sqrt 0]. *)
Lemma coefficient_a22_first_bin (r : R) :
  data psd !! kMin = Some (Fin r) -> 0 < r ->
  coefficient_a22
    (moment_sum psd (Fin Nm) (fdiv (Fin 7) (Fin 3)) kMin 1)
    (moment_sum psd (Fin Nm) (fdiv (Fin 5) (Fin 3)) kMin 1)
    (moment_sum psd (Fin Nm) (Fin 1) kMin 1)
  = PInf.
Proof.
  intros Hp Hr.
  rewrite !moment_sum_S. unfold moment_sum, moment_sum_step, load.
  cbn [seq foldl]. rewrite Nat.add_0_r, Hp.
  replace (ftruth (Fin r)) with true by (symmetry; apply ftruth_fin; lra).
  rewrite bin_frequency_fin.
  destruct (moment_terms_fin kMin r) as (u & Hu & T7 & T5 & T3); [lia|lra|].
  rewrite T7, T5, T3. cbn [fadd].
  unfold coefficient_a22, fsub. cbn [fmul].
  rewrite fdiv_fin by lra. cbn [fneg fadd].
  match goal with
  | |- context [fsqrt (Fin ?x)] =>
      replace x with 0 by (field; lra)
  end.
  rewrite fsqrt_fin by lra. rewrite sqrt_0.
  unfold fdiv. destruct (Req_dec_T 0 0) as [_|Hne]; [|contradiction].
  rewrite Rsgn_pos by lra. reflexivity.
Qed.

End MomentPositivity.

(** ** The calculator as a whole *)

Lemma frequency_bin_fin (psd : REAL8FrequencySeries) (F0 dF x : R) (z : Z) :
  f0 psd = Fin F0 -> deltaF psd = Fin dF -> dF <> 0%R ->
  (0 <= z < UINT4_MAX1)%Z ->
  (IZR z <= (x + - F0) / dF < IZR z + 1)%R ->
  frequency_bin psd (Fin x) = Some (Z.to_nat z).
Proof.
  intros Hf0 HdF Hnz Hz Hr. unfold frequency_bin, fsub.
  rewrite Hf0, HdF. cbn [fneg fadd]. rewrite fdiv_fin by exact Hnz.
  rewrite (to_unsigned_floor 64 _ z); [|unfold UINT4_MAX1 in Hz; lia|exact Hr].
  cbn [mbind option_bind]. rewrite Z.mod_small by exact Hz. reflexivity.
Qed.

Lemma LALCreateMomentVector_unfold (psd : REAL8FrequencySeries)
    (params : InspiralTemplate) (len : Z) (kMin kMax : nat) :
  frequency_bin psd (fLower params) = Some kMin ->
  frequency_bin psd (fdiv (tSampling params) (Fin 2)) = Some kMax ->
  LALCreateMomentVector psd params len
  = moments <$> moment_loops psd (moment_norm params) (half_length len)
                  kMin kMax.
Proof.
  intros Hmin Hmax. unfold LALCreateMomentVector. rewrite Hmin, Hmax.
  cbn [mbind option_bind].
  destruct (moment_loops _ _ _ _ _); reflexivity.
Qed.

Lemma zero_moments_lookup (n k : nat) :
  (k < n)%nat ->
  a11 (zero_moments n) !! k = Some fzero
  /\ a22 (zero_moments n) !! k = Some fzero
  /\ a21 (zero_moments n) !! k = Some fzero.
Proof.
  intros Hk. unfold zero_moments, LALCalloc. cbn [a11 a22 a21].
  rewrite lookup_replicate_2 by exact Hk. auto.
Qed.


(** What [LALCreateMomentVector] computes when its loops stay inside the
    PSD and the moment vectors. *)
Lemma LALCreateMomentVector_spec (psd : REAL8FrequencySeries)
    (params : InspiralTemplate) (len : Z) (kMin kMax : nat) :
  frequency_bin psd (fLower params) = Some kMin ->
  frequency_bin psd (fdiv (tSampling params) (Fin 2)) = Some kMax ->
  (kMin <= half_length len)%nat -> (kMax <= half_length len)%nat ->
  (kMax <= length (data psd))%nat ->
  exists mo,
    LALCreateMomentVector psd params len = Some mo
    /\ length (a11 mo) = half_length len
    /\ length (a22 mo) = half_length len
    /\ length (a21 mo) = half_length len
    /\ (forall k p, (kMin <= k < kMax)%nat ->
          data psd !! k = Some p -> ftruth p = true ->
          let M7 := moment_sum psd (moment_norm params)
                      (fdiv (Fin 7) (Fin 3)) kMin (S k - kMin) in
          let M5 := moment_sum psd (moment_norm params)
                      (fdiv (Fin 5) (Fin 3)) kMin (S k - kMin) in
          let M3 := moment_sum psd (moment_norm params)
                      (Fin 1) kMin (S k - kMin) in
          a11 mo !! k = Some (coefficient_a11 M7)
          /\ a22 mo !! k = Some (coefficient_a22 M7 M5 M3)
          /\ a21 mo !! k = Some (coefficient_a21 M7 M5 M3))
    /\ (forall k, (k < half_length len)%nat ->
          (k < kMin \/ kMax <= k)%nat \/ data psd !! k = Some (Fin 0) ->
          a11 mo !! k = Some fzero /\ a22 mo !! k = Some fzero
          /\ a21 mo !! k = Some fzero).
Proof.
  intros Hmin Hmax Lmin Lmax Lpsd.
  destruct (moment_loops_total psd (moment_norm params) (half_length len)
              kMin kMax Lmin Lmax Lpsd) as (st & Hst & Hloop).
  exists (moments st).
  rewrite (LALCreateMomentVector_unfold _ _ _ _ _ Hmin Hmax), Hst.
  split; [reflexivity|].
  destruct (moment_loop_spec _ _ _ _ _ _ Hloop)
    as (_ & _ & _ & L11 & L22 & L21 & Hacc & Hframe).
  unfold zero_moments, LALCalloc in L11, L22, L21.
  cbn [a11 a22 a21] in L11, L22, L21. rewrite length_replicate in L11, L22, L21.
  split; [exact L11|]. split; [exact L22|]. split; [exact L21|]. split.
  - intros k p Hk Hp Ht. apply (Hacc k p); auto. lia.
  - intros k Hk Hcase.
    destruct (Hframe k) as (E11 & E22 & E21).
    { destruct Hcase as [Hc|Hc]; [left; lia|right; exact Hc]. }
    rewrite E11, E22, E21. apply zero_moments_lookup. exact Hk.
Qed.


(** ** The calculator on the example spectrum *)

Lemma example_bins :
  frequency_bin example_psd (fLower example_moment_template) = Some 1%nat
  /\ frequency_bin example_psd
       (fdiv (tSampling example_moment_template) (Fin 2)) = Some 4%nat.
Proof.
  split.
  - apply (frequency_bin_fin example_psd 0 1 1 1); try reflexivity;
      try lra; unfold UINT4_MAX1; lia.
  - cbn [example_moment_template tSampling].
    rewrite (fdiv_fin 8 2) by lra.
    apply (frequency_bin_fin example_psd 0 1 (8 / 2) 4); try reflexivity;
      try lra; unfold UINT4_MAX1; lia.
Qed.

Lemma example_invalid_bins :
  frequency_bin example_psd (fLower example_invalid_template) = Some 3%nat
  /\ frequency_bin example_psd
       (fdiv (tSampling example_invalid_template) (Fin 2)) = Some 2%nat.
Proof.
  split.
  - apply (frequency_bin_fin example_psd 0 1 3 3); try reflexivity;
      try lra; unfold UINT4_MAX1; lia.
  - cbn [example_invalid_template tSampling].
    rewrite (fdiv_fin 4 2) by lra.
    apply (frequency_bin_fin example_psd 0 1 (4 / 2) 2); try reflexivity;
      try lra; unfold UINT4_MAX1; lia.
Qed.

Lemma example_bounds :
  (1 <= half_length 8)%nat /\ (4 <= half_length 8)%nat
  /\ (3 <= half_length 8)%nat /\ (2 <= half_length 8)%nat
  /\ (4 <= length (data example_psd))%nat
  /\ (2 <= length (data example_psd))%nat.
Proof. vm_compute. repeat split; lia. Qed.




(** ** Zero-power bins and an empty accumulation range *)

(** At a bin whose PSD is zero the loop body changes nothing. *)
Lemma moment_body_zero_bin (psd : REAL8FrequencySeries) (norm : REAL)
    (k : nat) (st : MomentLoop) :
  data psd !! k = Some (Fin 0) -> moment_body psd norm k st = Some st.
Proof.
  intros Hk. unfold moment_body, load. rewrite Hk.
  cbn [mbind option_bind].
  replace (ftruth (Fin 0)) with false; [reflexivity|].
  symmetry. apply ftruth_false. reflexivity.
Qed.

(** A loop over a range that contains a zero-power bin is the loop over
    the bins before it followed by the loop over the bins after it. *)
Lemma moment_loop_skips_zero_bin (psd : REAL8FrequencySeries) (norm : REAL)
    (kMin kMax k : nat) (st : MomentLoop) :
  (kMin <= k < kMax)%nat -> data psd !! k = Some (Fin 0) ->
  for_range (moment_body psd norm) kMin kMax st
  = for_range (moment_body psd norm) kMin k st
      ≫= for_range (moment_body psd norm) (S k) kMax.
Proof.
  intros Hk Hz. unfold for_range.
  replace (kMax - kMin)%nat with ((k - kMin) + S (kMax - S k))%nat by lia.
  rewrite for_loop_app.
  destruct (for_loop (moment_body psd norm) kMin (k - kMin) st) as [s1|];
    [|reflexivity].
  cbn [mbind option_bind for_loop].
  replace (kMin + (k - kMin))%nat with k by lia.
  rewrite moment_body_zero_bin by exact Hz. reflexivity.
Qed.

Lemma moment_sum_zero_bin (psd : REAL8FrequencySeries) (norm e : REAL)
    (kMin k : nat) :
  (kMin <= k)%nat -> data psd !! k = Some (Fin 0) ->
  moment_sum psd norm e kMin (S k - kMin)
  = moment_sum psd norm e kMin (k - kMin).
Proof.
  intros Hk Hz. replace (S k - kMin)%nat with (S (k - kMin)) by lia.
  rewrite moment_sum_S. unfold moment_sum_step, load.
  replace (kMin + (k - kMin))%nat with k by lia. rewrite Hz.
  replace (ftruth (Fin 0)) with false; [reflexivity|].
  symmetry. apply ftruth_false. reflexivity.
Qed.

(** C6.  A bin [k] of [kMin, kMax] whose PSD is zero is skipped: the loop
    body leaves the running sums and the three vectors as they are, the
    cumulative sums up to [k] are those up to [k - 1], the entries
    [a11[k]], [a21[k]], [a22[k]] of the result are the finite value zero,
    and the whole accumulation equals the accumulation over the bins
    before [k] followed by the one over the bins after [k], so that the
    zero bin contributes nothing to any later entry. *)
Theorem LALCreateMomentVector_zero_bin (psd : REAL8FrequencySeries)
    (params : InspiralTemplate) (len : Z) (kMin kMax k : nat) :
  frequency_bin psd (fLower params) = Some kMin ->
  frequency_bin psd (fdiv (tSampling params) (Fin 2)) = Some kMax ->
  (kMin <= half_length len)%nat -> (kMax <= half_length len)%nat ->
  (kMax <= length (data psd))%nat ->
  (kMin <= k <= kMax)%nat -> (k < half_length len)%nat ->
  data psd !! k = Some (Fin 0) ->
  (forall st, moment_body psd (moment_norm params) k st = Some st)
  /\ (forall e,
        moment_sum psd (moment_norm params) e kMin (S k - kMin)
        = moment_sum psd (moment_norm params) e kMin (k - kMin))
  /\ (exists mo x11 x21 x22,
        LALCreateMomentVector psd params len = Some mo
        /\ a11 mo !! k = Some x11 /\ a21 mo !! k = Some x21
        /\ a22 mo !! k = Some x22
        /\ x11 = fzero /\ x21 = fzero /\ x22 = fzero
        /\ is_finite x11 = true /\ is_finite x21 = true
        /\ is_finite x22 = true)
  /\ (forall st, (k < kMax)%nat ->
        for_range (moment_body psd (moment_norm params)) kMin kMax st
        = for_range (moment_body psd (moment_norm params)) kMin k st
            ≫= for_range (moment_body psd (moment_norm params)) (S k) kMax).
Proof.
  intros Hmin Hmax Lmin Lmax Lpsd Hk Hkn Hz.
  split; [intros st; apply moment_body_zero_bin; exact Hz|].
  split; [intros e; apply moment_sum_zero_bin; [lia|exact Hz]|].
  split.
  - destruct (LALCreateMomentVector_spec psd params len kMin kMax
                Hmin Hmax Lmin Lmax Lpsd)
      as (mo & Hmo & _ & _ & _ & _ & Hzero).
    destruct (Hzero k Hkn) as (Z11 & Z22 & Z21); [right; exact Hz|].
    exists mo, fzero, fzero, fzero. repeat split; assumption.
  - intros st Hlt. apply moment_loop_skips_zero_bin; [lia|exact Hz].
Qed.

(** The hypotheses of [LALCreateMomentVector_zero_bin] hold for bin 2 of
    the example spectrum. *)
Lemma LALCreateMomentVector_zero_bin_witness :
  data example_psd !! 2%nat = Some (Fin 0)
  /\ exists mo,
       LALCreateMomentVector example_psd example_moment_template 8 = Some mo
       /\ a11 mo !! 2%nat = Some fzero /\ a21 mo !! 2%nat = Some fzero
       /\ a22 mo !! 2%nat = Some fzero.
Proof.
  destruct example_bins as [Hmin Hmax].
  destruct example_bounds as (B1 & B4 & _ & _ & P4 & _).
  assert (Hk : (1 <= 2 <= 4)%nat) by lia.
  assert (Hkn : (2 < half_length 8)%nat) by (vm_compute; lia).
  split; [reflexivity|].
  destruct (LALCreateMomentVector_zero_bin example_psd
              example_moment_template 8 1 4 2 Hmin Hmax B1 B4 P4 Hk Hkn
              eq_refl)
    as (_ & _ & (mo & x11 & x21 & x22 & Hmo & E11 & E21 & E22
                 & -> & -> & -> & _) & _).
  exists mo. auto.
Defined.

(** When the cutoff bin is at or beyond the Nyquist bin the calculator
    returns the freshly allocated zero vectors. *)
Lemma LALCreateMomentVector_empty_range (psd : REAL8FrequencySeries)
    (params : InspiralTemplate) (len : Z) (kMin kMax : nat) :
  frequency_bin psd (fLower params) = Some kMin ->
  frequency_bin psd (fdiv (tSampling params) (Fin 2)) = Some kMax ->
  (kMax <= kMin)%nat -> (kMin <= half_length len)%nat ->
  LALCreateMomentVector psd params len = Some (zero_moments (half_length len)).
Proof.
  intros Hmin Hmax Hle Hn.
  rewrite (LALCreateMomentVector_unfold _ _ _ _ _ Hmin Hmax).
  unfold moment_loops, for_range. fold (zero_moments (half_length len)).
  rewrite moment_skip_loop by lia. cbn [mbind option_bind].
  replace (kMax - kMin)%nat with 0%nat by lia. reflexivity.
Qed.

(** C7, as the code has it.  [LALCreateMomentVector] has no error channel
    and checks nothing: when the computed cutoff bin [kMin] is at or
    beyond the Nyquist bin [kMax] (and inside the vectors) it returns
    normally, and the vectors a11, a22, a21 it returns are all zero. *)
Theorem LALCreateMomentVector_cutoff_beyond_nyquist
    (psd : REAL8FrequencySeries) (params : InspiralTemplate) (len : Z)
    (kMin kMax : nat) :
  frequency_bin psd (fLower params) = Some kMin ->
  frequency_bin psd (fdiv (tSampling params) (Fin 2)) = Some kMax ->
  (kMax <= kMin)%nat -> (kMin <= half_length len)%nat ->
  exists mo,
    LALCreateMomentVector psd params len = Some mo
    /\ a11 mo = replicate (half_length len) fzero
    /\ a22 mo = replicate (half_length len) fzero
    /\ a21 mo = replicate (half_length len) fzero.
Proof.
  intros Hmin Hmax Hle Hn.
  exists (zero_moments (half_length len)).
  split; [|repeat split].
  apply (LALCreateMomentVector_empty_range _ _ _ kMin kMax); assumption.
Qed.

(** The hypotheses of [LALCreateMomentVector_cutoff_beyond_nyquist] hold
    for the template whose cutoff 3 is beyond its Nyquist frequency 2. *)
Lemma LALCreateMomentVector_cutoff_beyond_nyquist_witness :
  frequency_bin example_psd (fLower example_invalid_template) = Some 3%nat
  /\ frequency_bin example_psd
       (fdiv (tSampling example_invalid_template) (Fin 2)) = Some 2%nat
  /\ exists mo,
       LALCreateMomentVector example_psd example_invalid_template 8 = Some mo
       /\ a11 mo = replicate 4 fzero /\ a22 mo = replicate 4 fzero
       /\ a21 mo = replicate 4 fzero.
Proof.
  destruct example_invalid_bins as [Hmin Hmax].
  destruct example_bounds as (_ & _ & B3 & _).
  assert (Hle : (2 <= 3)%nat) by lia.
  split; [exact Hmin|]. split; [exact Hmax|].
  exact (LALCreateMomentVector_cutoff_beyond_nyquist example_psd
           example_invalid_template 8 3 2 Hmin Hmax Hle B3).
Defined.

(** C7 as stated fails: with the lower cutoff 3 beyond the Nyquist
    frequency 2 ([kMin = 3 > kMax = 2]) the calculator does not fail; it
    returns, and what it returns is the all-zero moment vectors. *)
Lemma LALCreateMomentVector_no_failure_counterexample :
  frequency_bin example_psd (fLower example_invalid_template) = Some 3%nat
  /\ frequency_bin example_psd
       (fdiv (tSampling example_invalid_template) (Fin 2)) = Some 2%nat
  /\ (2 < 3)%nat
  /\ LALCreateMomentVector example_psd example_invalid_template 8
     = Some {| a11 := replicate 4 fzero; a22 := replicate 4 fzero;
               a21 := replicate 4 fzero |}.
Proof.
  destruct example_invalid_bins as [Hmin Hmax].
  destruct example_bounds as (_ & _ & B3 & _).
  split; [exact Hmin|]. split; [exact Hmax|]. split; [lia|].
  rewrite (LALCreateMomentVector_empty_range _ _ _ 3%nat 2%nat Hmin Hmax);
    [reflexivity|lia|exact B3].
Qed.

(** * Further properties of the code *)

(** ** The orthogonalizer on every vector *)

Lemma LALGetOrthogonalFilterBCV2_lookup (f g : list REAL) :
  LALGetOrthogonalFilterBCV2 f = Some g ->
  length g = length f /\ forall t, g !! t = orthogonalized f t.
Proof.
  intros Hg.
  destruct (LALGetOrthogonalFilterBCV2_spec f) as (g' & Hg' & Hl & Ht).
  assert (g' = g) by congruence. subst g'.
  split; [exact Hl|]. intros t. rewrite Ht.
  unfold orthogonal_upto, orthogonalized.
  set (n := length f). set (q := (n / 2)%nat).
  assert (Hq : (2 * q <= n)%nat).
  { pose proof (Nat.div_mod_eq n 2) as H. fold q in H. lia. }
  destruct (decide (1 <= t < Nat.max 1 q)%nat) as [H1|H1].
  - rewrite decide_True by lia. reflexivity.
  - rewrite (decide_False (P := (1 <= t < q)%nat)) by lia.
    destruct (decide (n - Nat.max 1 q < t < n)%nat) as [H2|H2].
    + rewrite decide_True by lia. reflexivity.
    + rewrite decide_False by lia. reflexivity.
Qed.

Lemma orthogonalized_twice (f g : list REAL) (t : nat) :
  length g = length f -> (forall u, g !! u = orthogonalized f u) ->
  orthogonalized g t
  = if swapped_bin (length f) t then fneg <$> f !! t else f !! t.
Proof.
  intros Hl Hg. unfold orthogonalized at 1. rewrite Hl.
  set (n := length f). set (q := (n / 2)%nat).
  assert (Hq : (2 * q <= n)%nat).
  { pose proof (Nat.div_mod_eq n 2) as H. fold q in H. lia. }
  unfold swapped_bin. fold n q.
  destruct (decide (1 <= t < q)%nat) as [H1|H1].
  - rewrite bool_decide_eq_true_2 by lia.
    rewrite Hg. unfold orthogonalized. fold n q.
    rewrite decide_False by lia. rewrite decide_True by lia.
    replace (n - (n - t))%nat with t by lia. reflexivity.
  - destruct (decide (n - q < t < n)%nat) as [H2|H2].
    + rewrite bool_decide_eq_true_2 by lia.
      rewrite Hg. unfold orthogonalized. fold n q.
      rewrite decide_True by lia.
      replace (n - (n - t))%nat with t by lia. reflexivity.
    + rewrite bool_decide_eq_false_2 by lia.
      rewrite Hg. unfold orthogonalized. fold n q.
      rewrite decide_False by lia. rewrite decide_False by lia.
      reflexivity.
Qed.

Lemma fneg_involutive (x : REAL) : fneg (fneg x) = x.
Proof. destruct x; cbn; try reflexivity. f_equal. lra. Qed.

(** X1.  The orthogonalizer never fails and never accesses its vector out
    of bounds, whatever the length (also 0 and 1); it keeps the length,
    and it leaves untouched bin 0 and the middle bins
    [n/2 <= t <= n - n/2]. *)
Theorem LALGetOrthogonalFilterBCV2_frame (f : list REAL) :
  exists g,
    LALGetOrthogonalFilterBCV2 f = Some g
    /\ length g = length f
    /\ g !! 0%nat = f !! 0%nat
    /\ forall t, (length f / 2 <= t <= length f - length f / 2)%nat ->
         g !! t = f !! t.
Proof.
  destruct (LALGetOrthogonalFilterBCV2_spec f) as (g & Hg & Hl & _).
  destruct (LALGetOrthogonalFilterBCV2_lookup f g Hg) as [_ Ht].
  exists g. split; [exact Hg|]. split; [exact Hl|].
  split.
  - rewrite Ht. unfold orthogonalized.
    rewrite decide_False by lia. rewrite decide_False by lia. reflexivity.
  - intros t Hmid. rewrite Ht. unfold orthogonalized.
    rewrite decide_False by lia. rewrite decide_False by lia. reflexivity.
Qed.

(** X2.  Four applications of the orthogonalizer give the vector back:
    it is a rotation by a quarter turn of every swapped pair of bins. *)
Theorem LALGetOrthogonalFilterBCV2_four_times (f : list REAL) :
  (g1 ← LALGetOrthogonalFilterBCV2 f;
   g2 ← LALGetOrthogonalFilterBCV2 g1;
   g3 ← LALGetOrthogonalFilterBCV2 g2;
   LALGetOrthogonalFilterBCV2 g3)
  = Some f.
Proof.
  destruct (LALGetOrthogonalFilterBCV2_spec f) as (g1 & Hg1 & _).
  destruct (LALGetOrthogonalFilterBCV2_spec g1) as (g2 & Hg2 & _).
  destruct (LALGetOrthogonalFilterBCV2_spec g2) as (g3 & Hg3 & _).
  destruct (LALGetOrthogonalFilterBCV2_spec g3) as (g4 & Hg4 & _).
  rewrite Hg1. cbn [mbind option_bind]. rewrite Hg2. cbn [mbind option_bind].
  rewrite Hg3. cbn [mbind option_bind]. rewrite Hg4. f_equal.
  destruct (LALGetOrthogonalFilterBCV2_lookup _ _ Hg1) as [Hl1 Ht1].
  destruct (LALGetOrthogonalFilterBCV2_lookup _ _ Hg2) as [Hl2 Ht2].
  destruct (LALGetOrthogonalFilterBCV2_lookup _ _ Hg3) as [Hl3 Ht3].
  destruct (LALGetOrthogonalFilterBCV2_lookup _ _ Hg4) as [Hl4 Ht4].
  assert (H2 : forall t, g2 !! t
            = if swapped_bin (length f) t then fneg <$> f !! t else f !! t).
  { intros t. rewrite Ht2. apply orthogonalized_twice; assumption. }
  assert (H4 : forall t, g4 !! t
            = if swapped_bin (length g2) t then fneg <$> g2 !! t else g2 !! t).
  { intros t. rewrite Ht4. apply orthogonalized_twice; assumption. }
  apply list_eq. intros t. rewrite H4, H2.
  replace (length g2) with (length f) by congruence.
  destruct (swapped_bin (length f) t); [|reflexivity].
  destruct (f !! t) as [x|]; cbn; [|reflexivity].
  rewrite fneg_involutive. reflexivity.
Qed.

(** Sums over a range of indices. *)
Section Sums.
Local Open Scope R_scope.

Lemma Rsum_snoc (h : nat -> R) (i c : nat) :
  Rsum h i (S c) = Rsum h i c + h (i + c)%nat.
Proof.
  revert i. induction c as [|c IH]; intros i.
  - unfold Rsum. cbn. rewrite Nat.add_0_r. lra.
  - change (Rsum h i (S (S c))) with (h i + Rsum h (S i) (S c)).
    rewrite IH. change (Rsum h i (S c)) with (h i + Rsum h (S i) c).
    replace (S i + c)%nat with (i + S c)%nat by lia. lra.
Qed.

Lemma Rsum_ext (h h' : nat -> R) (i c : nat) :
  (forall t, (i <= t < i + c)%nat -> h t = h' t) ->
  Rsum h i c = Rsum h' i c.
Proof.
  revert i. induction c as [|c IH]; intros i H; [reflexivity|].
  change (h i + Rsum h (S i) c = h' i + Rsum h' (S i) c).
  rewrite (H i) by lia. rewrite (IH (S i)); [reflexivity|].
  intros t Ht. apply H. lia.
Qed.

Lemma Rsum_shift (h : nat -> R) (i c : nat) :
  Rsum h (S i) c = Rsum (fun t => h (S t)) i c.
Proof.
  revert i. induction c as [|c IH]; intros i; [reflexivity|].
  change (h (S i) + Rsum h (S (S i)) c
          = h (S i) + Rsum (fun t => h (S t)) (S i) c).
  rewrite IH. reflexivity.
Qed.

Lemma Rsum_opp (h : nat -> R) (i c : nat) :
  Rsum (fun t => - h t) i c = - Rsum h i c.
Proof.
  revert i. induction c as [|c IH]; intros i.
  - unfold Rsum. cbn. lra.
  - change (- h i + Rsum (fun t => - h t) (S i) c = - (h i + Rsum h (S i) c)).
    rewrite IH. lra.
Qed.

Lemma Rsum_minus (h h' : nat -> R) (i c : nat) :
  Rsum (fun t => h t - h' t) i c = Rsum h i c - Rsum h' i c.
Proof.
  revert i. induction c as [|c IH]; intros i.
  - unfold Rsum. cbn. lra.
  - change (h i - h' i + Rsum (fun t => h t - h' t) (S i) c
            = h i + Rsum h (S i) c - (h' i + Rsum h' (S i) c)).
    rewrite IH. lra.
Qed.

Lemma Rsum_rev (h : nat -> R) (c : nat) :
  Rsum (fun t => h (c - 1 - t)%nat) 0 c = Rsum h 0 c.
Proof.
  induction c as [|c IH]; [reflexivity|].
  rewrite (Rsum_snoc h).
  change (Rsum (fun t => h (S c - 1 - t)%nat) 0 (S c))
    with (h (S c - 1 - 0)%nat + Rsum (fun t => h (S c - 1 - t)%nat) 1 c).
  rewrite Rsum_shift.
  rewrite (Rsum_ext _ (fun t => h (c - 1 - t)%nat)).
  - rewrite IH. replace (S c - 1 - 0)%nat with (0 + c)%nat by lia. lra.
  - intros t Ht. f_equal. lia.
Qed.

(** A summand that changes sign under the reflection [t -> n - t] sums to
    0. *)
Lemma Rsum_antisymmetric (q : nat -> R) (n : nat) :
  q 0%nat = 0 ->
  (forall t, (1 <= t < n)%nat -> q (n - t)%nat = - q t) ->
  Rsum q 0 n = 0.
Proof.
  intros H0 Hq. destruct n as [|m]; [reflexivity|].
  change (Rsum q 0 (S m)) with (q 0%nat + Rsum q 1 m).
  rewrite H0, Rsum_shift.
  pose proof (Rsum_rev (fun t => q (S t)) m) as Hrev.
  rewrite (Rsum_ext _ (fun t => - q (S t))) in Hrev.
  - rewrite Rsum_opp in Hrev. lra.
  - intros t Ht. cbn beta.
    replace (S (m - 1 - t))%nat with (S m - S t)%nat by lia.
    apply Hq. lia.
Qed.

Lemma real_at_cons (x : REAL) (v : list REAL) (t : nat) :
  real_at (x :: v) (S t) = real_at v t.
Proof. reflexivity. Qed.

Lemma inner_product_fin (u v : list REAL) :
  all_finite u -> all_finite v -> length u = length v ->
  inner_product u v
  = Fin (Rsum (fun t => real_at u t * real_at v t) 0 (length u)).
Proof.
  revert v. induction u as [|x u IH]; intros v Hu Hv Hl.
  - destruct v; [|discriminate]. reflexivity.
  - destruct v as [|y v]; [discriminate|].
    apply Forall_cons in Hu as [Hx Hu]. apply Forall_cons in Hv as [Hy Hv].
    destruct x as [a| | |]; try discriminate.
    destruct y as [b| | |]; try discriminate.
    cbn [length].
    change (Rsum (fun t => real_at (Fin a :: u) t * real_at (Fin b :: v) t)
              0 (S (length u)))
      with (a * b + Rsum (fun t => real_at (Fin a :: u) t
                                   * real_at (Fin b :: v) t) 1 (length u)).
    rewrite Rsum_shift.
    change (inner_product (Fin a :: u) (Fin b :: v))
      with (fadd (fmul (Fin a) (Fin b)) (inner_product u v)).
    rewrite IH; [reflexivity|assumption|assumption|].
    cbn in Hl. congruence.
Qed.

End Sums.

Lemma real_at_orthogonalized (f g : list REAL) (t : nat) :
  (forall u, g !! u = orthogonalized f u) ->
  real_at g t
  = if decide (1 <= t < length f / 2)%nat
    then (- real_at f (length f - t))%R
    else if decide (length f - length f / 2 < t < length f)%nat
         then real_at f (length f - t)
         else real_at f t.
Proof.
  intros Hg. unfold real_at at 1. rewrite Hg. unfold orthogonalized.
  destruct (decide (1 <= t < length f / 2)%nat).
  - unfold real_at.
    destruct (f !! (length f - t)%nat) as [[r| | |]|]; cbn; lra.
  - destruct (decide (length f - length f / 2 < t < length f)%nat);
      reflexivity.
Qed.

Lemma orthogonalized_finite (f g : list REAL) :
  (forall u, g !! u = orthogonalized f u) -> all_finite f -> all_finite g.
Proof.
  intros Hg Hf. apply Forall_lookup. intros t x Hx.
  rewrite Hg in Hx. unfold orthogonalized in Hx.
  pose proof (proj1 (Forall_lookup _ _) Hf) as Hfin.
  destruct (decide (1 <= t < length f / 2)%nat).
  - destruct (f !! (length f - t)%nat) as [y|] eqn:Hy; [|discriminate].
    cbn in Hx. injection Hx as <-. apply Hfin in Hy.
    destruct y; try discriminate. reflexivity.
  - destruct (decide (length f - length f / 2 < t < length f)%nat);
      eapply Hfin; exact Hx.
Qed.

(** The sums behind the norm and the inner product of a vector and its
    orthogonalized vector. *)
Lemma orthogonalized_sums (f g : list REAL) :
  (forall u, g !! u = orthogonalized f u) ->
  Rsum (fun t => real_at g t * real_at g t)%R 0 (length f)
  = Rsum (fun t => real_at f t * real_at f t)%R 0 (length f)
  /\ ((forall t, (t = 0 \/ length f / 2 <= t <= length f - length f / 2)%nat ->
         real_at f t = 0%R) ->
      Rsum (fun t => real_at f t * real_at g t)%R 0 (length f) = 0%R).
Proof.
  intros Ht.
  pose proof (fun t => real_at_orthogonalized f g t Ht) as Hr.
  set (n := length f) in *. set (q := (n / 2)%nat) in *.
  assert (Hq : (2 * q <= n)%nat).
  { pose proof (Nat.div_mod_eq n 2) as H. fold q in H. lia. }
  split.
  - apply Rminus_diag_uniq. rewrite <- Rsum_minus.
    apply Rsum_antisymmetric.
    + rewrite (Hr 0%nat).
      rewrite decide_False by lia. rewrite decide_False by lia. lra.
    + intros t Hrange. rewrite (Hr t), (Hr (n - t)%nat).
      destruct (decide (1 <= t < q)%nat) as [H1|H1].
      * rewrite (decide_False (P := (1 <= n - t < q)%nat)) by lia.
        rewrite decide_True by lia.
        replace (n - (n - t))%nat with t by lia. lra.
      * destruct (decide (n - q < t < n)%nat) as [H2|H2].
        -- rewrite (decide_True (P := (1 <= n - t < q)%nat)) by lia.
           replace (n - (n - t))%nat with t by lia. lra.
        -- rewrite (decide_False (P := (1 <= n - t < q)%nat)) by lia.
           rewrite decide_False by lia. lra.
  - intros Hz. apply Rsum_antisymmetric.
    + rewrite (Hz 0%nat) by lia. lra.
    + intros t Hrange. rewrite (Hr t), (Hr (n - t)%nat).
      destruct (decide (1 <= t < q)%nat) as [H1|H1].
      * rewrite (decide_False (P := (1 <= n - t < q)%nat)) by lia.
        rewrite decide_True by lia.
        replace (n - (n - t))%nat with t by lia. lra.
      * destruct (decide (n - q < t < n)%nat) as [H2|H2].
        -- rewrite (decide_True (P := (1 <= n - t < q)%nat)) by lia.
           replace (n - (n - t))%nat with t by lia. lra.
        -- rewrite (Hz t), (Hz (n - t)%nat) by lia. lra.
Qed.

(** X3.  For a vector without NaN or infinite entries the orthogonalizer
    keeps the norm, and when the bins it does not touch (bin 0 and the
    middle bins) are zero, as in a filter built in zeroed memory, its
    result is orthogonal to its argument: the inner product is 0. *)
Theorem LALGetOrthogonalFilterBCV2_orthogonal (f g : list REAL) :
  all_finite f ->
  LALGetOrthogonalFilterBCV2 f = Some g ->
  inner_product g g = inner_product f f
  /\ ((forall t x, f !! t = Some x -> swapped_bin (length f) t = false ->
         x = fzero) ->
      inner_product f g = Fin 0).
Proof.
  intros Hf Hg.
  destruct (LALGetOrthogonalFilterBCV2_lookup f g Hg) as [Hl Ht].
  pose proof (orthogonalized_finite f g Ht Hf) as Hgf.
  destruct (orthogonalized_sums f g Ht) as [Hnorm Horth].
  split.
  - rewrite (inner_product_fin g g), (inner_product_fin f f) by auto.
    rewrite Hl, Hnorm. reflexivity.
  - intros Hzero.
    rewrite (inner_product_fin f g) by auto. f_equal. apply Horth.
    intros t Hmid. unfold real_at.
    destruct (f !! t) as [x|] eqn:Hx; [|reflexivity].
    rewrite (Hzero t x Hx); [reflexivity|].
    unfold swapped_bin. apply bool_decide_eq_false_2.
    pose proof (Nat.div_mod_eq (length f) 2). lia.
Qed.

Lemma LALGetOrthogonalFilterBCV2_orthogonal_witness :
  let f := [Fin 0; Fin 1; Fin 0; Fin 2] in
  exists g,
    LALGetOrthogonalFilterBCV2 f = Some g
    /\ inner_product g g = inner_product f f
    /\ inner_product f g = Fin 0.
Proof.
  intros f.
  assert (Hf : all_finite f) by (repeat constructor).
  destruct (LALGetOrthogonalFilterBCV2_spec f) as (g & Hg & _).
  exists g. split; [exact Hg|].
  destruct (LALGetOrthogonalFilterBCV2_orthogonal f g Hf Hg) as [H1 H2].
  split; [exact H1|]. apply H2.
  intros t x Hx Hs.
  destruct t as [|[|[|[|t]]]]; cbn in Hx; try discriminate;
    try (injection Hx as <-; reflexivity);
    vm_compute in Hs; discriminate.
Defined.

(** ** The filter pair constructor on its filled bins *)

Lemma filters_fill_body_Some (pv : BEPowerVector) (n : nat)
    (c11 c21 c22 p0 p3 : REAL) (i : nat) (fs : list REAL * list REAL)
    (x53 x23 x76 x12 : REAL) :
  fm5_3 pv !! i = Some x53 -> fm2_3 pv !! i = Some x23 ->
  fm7_6 pv !! i = Some x76 -> fm1_2 pv !! i = Some x12 ->
  (i < length fs.1)%nat -> (n - i < length fs.1)%nat ->
  (i < length fs.2)%nat -> (n - i < length fs.2)%nat ->
  let ph := fadd (fmul p0 x53) (fmul p3 x23) in
  filters_fill_body pv n c11 c21 c22 p0 p3 i fs
  = Some (<[(n - i)%nat := fmul (fneg (fmul c11 x76)) (fsin ph)]>
            (<[i := fmul (fmul c11 x76) (fcos ph)]> fs.1),
          <[(n - i)%nat :=
              fmul (fneg (fadd (fmul c21 x76) (fmul c22 x12))) (fsin ph)]>
            (<[i := fmul (fadd (fmul c21 x76) (fmul c22 x12)) (fcos ph)]>
               fs.2)).
Proof.
  intros H53 H23 H76 H12 Hi1 Hm1 Hi2 Hm2 ph.
  unfold filters_fill_body, load.
  rewrite H53, H23, H76, H12. cbn [mbind option_bind].
  rewrite (store_Some fs.1 i) by assumption. cbn [mbind option_bind].
  rewrite (store_Some (<[i:=_]> fs.1) (n - i))
    by (rewrite length_insert; assumption).
  cbn [mbind option_bind].
  rewrite (store_Some fs.2 i) by assumption. cbn [mbind option_bind].
  rewrite (store_Some (<[i:=_]> fs.2) (n - i))
    by (rewrite length_insert; assumption).
  reflexivity.
Qed.

Lemma filters_fill_loop_values (pv : BEPowerVector) (n : nat)
    (c11 c21 c22 p0 p3 : REAL) (c i : nat) (fs : list REAL * list REAL) :
  (1 <= i)%nat -> (i + c <= n / 2)%nat ->
  length fs.1 = n -> length fs.2 = n ->
  (n / 2 <= length (fm5_3 pv))%nat -> (n / 2 <= length (fm2_3 pv))%nat ->
  (n / 2 <= length (fm7_6 pv))%nat -> (n / 2 <= length (fm1_2 pv))%nat ->
  exists gs,
    for_loop (filters_fill_body pv n c11 c21 c22 p0 p3) i c fs = Some gs
    /\ length gs.1 = n /\ length gs.2 = n
    /\ forall t x53 x23 x76 x12, (i <= t < i + c)%nat ->
         fm5_3 pv !! t = Some x53 -> fm2_3 pv !! t = Some x23 ->
         fm7_6 pv !! t = Some x76 -> fm1_2 pv !! t = Some x12 ->
         let ph := fadd (fmul p0 x53) (fmul p3 x23) in
         gs.1 !! t = Some (fmul (fmul c11 x76) (fcos ph))
         /\ gs.1 !! (n - t)%nat
            = Some (fmul (fneg (fmul c11 x76)) (fsin ph))
         /\ gs.2 !! t
            = Some (fmul (fadd (fmul c21 x76) (fmul c22 x12)) (fcos ph))
         /\ gs.2 !! (n - t)%nat
            = Some (fmul (fneg (fadd (fmul c21 x76) (fmul c22 x12)))
                      (fsin ph)).
Proof.
  intros Hi. revert fs. induction c as [|c IH]; intros fs Hc Hl1 Hl2 L53 L23 L76 L12.
  - exists fs. split; [reflexivity|]. split; [assumption|].
    split; [assumption|]. intros; lia.
  - assert (Hq : (2 * (n / 2) <= n)%nat).
    { pose proof (Nat.div_mod_eq n 2). lia. }
    destruct (IH fs) as (gs & Hgs & G1 & G2 & Hval); try assumption; [lia|].
    rewrite for_loop_snoc, Hgs. cbn [mbind option_bind].
    set (j := (i + c)%nat) in *.
    destruct (lookup_lt_is_Some_2 (fm5_3 pv) j) as [x53 H53]; [lia|].
    destruct (lookup_lt_is_Some_2 (fm2_3 pv) j) as [x23 H23]; [lia|].
    destruct (lookup_lt_is_Some_2 (fm7_6 pv) j) as [x76 H76]; [lia|].
    destruct (lookup_lt_is_Some_2 (fm1_2 pv) j) as [x12 H12]; [lia|].
    rewrite (filters_fill_body_Some pv n c11 c21 c22 p0 p3 j gs
               x53 x23 x76 x12) by (assumption || lia).
    eexists. split; [reflexivity|]. cbn [fst snd].
    rewrite !length_insert. split; [assumption|]. split; [assumption|].
    intros t y53 y23 y76 y12 Ht K53 K23 K76 K12.
    destruct (decide (t = j)) as [->|Hne].
    + rewrite H53 in K53. rewrite H23 in K23. rewrite H76 in K76.
      rewrite H12 in K12.
      injection K53 as <-. injection K23 as <-.
      injection K76 as <-. injection K12 as <-.
      rewrite !list_lookup_insert_eq by (rewrite ?length_insert; lia).
      rewrite !(list_lookup_insert_ne _ (n - j) j) by lia.
      rewrite !list_lookup_insert_eq by lia.
      repeat split; reflexivity.
    + destruct (Hval t y53 y23 y76 y12) as (V1 & V2 & V3 & V4);
        try assumption; [lia|].
      rewrite !(list_lookup_insert_ne _ (n - j) t) by lia.
      rewrite !(list_lookup_insert_ne _ j t) by lia.
      rewrite !(list_lookup_insert_ne _ (n - j) (n - t)) by lia.
      rewrite !(list_lookup_insert_ne _ j (n - t)) by lia.
      repeat split; assumption.
Qed.

Lemma filters_zero_loop_total (c i : nat) (fs : list REAL * list REAL) :
  (i + c <= length fs.1)%nat -> (i + c <= length fs.2)%nat ->
  exists gs, for_loop filters_zero_body i c fs = Some gs.
Proof.
  intros H1 H2.
  destruct (for_loop_invariant
              (fun gs : list REAL * list REAL =>
                 length gs.1 = length fs.1 /\ length gs.2 = length fs.2)
              filters_zero_body c i fs) as (gs & Hgs & _).
  - split; reflexivity.
  - intros j sj Hj [L1 L2]. unfold filters_zero_body.
    rewrite (store_Some sj.1 j) by lia. cbn [mbind option_bind].
    rewrite (store_Some sj.2 j) by lia. cbn [mbind option_bind].
    eexists. split; [reflexivity|]. cbn [fst snd].
    rewrite !length_insert. split; assumption.
  - exists gs. exact Hgs.
Qed.

Lemma LALCreateFilters_values (F1 F2 : list REAL) (pv : BEPowerVector)
    (mo : BEMoments) (kMin kMax : Z) (p0 p3 c11 c22 c21 : REAL) :
  length F2 = length F1 ->
  (1 <= kMin < UINT4_MAX1)%Z ->
  (Z.to_nat kMin <= length F1 / 2)%nat ->
  (length F1 / 2 <= length (fm5_3 pv))%nat ->
  (length F1 / 2 <= length (fm2_3 pv))%nat ->
  (length F1 / 2 <= length (fm7_6 pv))%nat ->
  (length F1 / 2 <= length (fm1_2 pv))%nat ->
  a11 mo !! Z.to_nat kMax = Some c11 ->
  a22 mo !! Z.to_nat kMax = Some c22 ->
  a21 mo !! Z.to_nat kMax = Some c21 ->
  exists G1 G2,
    LALCreateFilters F1 F2 pv mo kMin kMax p0 p3 = Some (G1, G2)
    /\ length G1 = length F1 /\ length G2 = length F1
    /\ (forall i x53 x23 x76 x12,
          (Z.to_nat kMin <= i < length F1 / 2)%nat ->
          fm5_3 pv !! i = Some x53 -> fm2_3 pv !! i = Some x23 ->
          fm7_6 pv !! i = Some x76 -> fm1_2 pv !! i = Some x12 ->
          let ph := fadd (fmul p0 x53) (fmul p3 x23) in
          G1 !! i = Some (fmul (fmul c11 x76) (fcos ph))
          /\ G1 !! (length F1 - i)%nat
             = Some (fmul (fneg (fmul c11 x76)) (fsin ph))
          /\ G2 !! i
             = Some (fmul (fadd (fmul c21 x76) (fmul c22 x12)) (fcos ph))
          /\ G2 !! (length F1 - i)%nat
             = Some (fmul (fneg (fadd (fmul c21 x76) (fmul c22 x12)))
                       (fsin ph)))
    /\ (forall t, (length F1 / 2 <= t)%nat ->
          (t <= length F1 - length F1 / 2
           \/ length F1 - Z.to_nat kMin < t)%nat ->
          G1 !! t = F1 !! t /\ G2 !! t = F2 !! t).
Proof.
  intros HF2 Hk Hkq L53 L23 L76 L12 H11 H22 H21.
  set (n := length F1) in *. set (q := (n / 2)%nat) in *.
  assert (Hq : (2 * q <= n)%nat).
  { pose proof (Nat.div_mod_eq n 2) as Hd. fold q in Hd. lia. }
  unfold LALCreateFilters, load, for_range.
  rewrite H11, H22, H21. cbn [mbind option_bind].
  rewrite Z.mod_small by (unfold UINT4_MAX1 in *; lia).
  destruct (filters_zero_loop_total (Z.to_nat (kMin - 1) - 0) 0 (F1, F2))
    as (fs & Hfs); cbn [fst snd]; [fold n; lia|lia|].
  rewrite Hfs. cbn [mbind option_bind].
  pose proof (filters_zero_loop _ _ _ _ Hfs) as (Z1 & Z2 & Zframe & _).
  cbn [fst snd] in Z1, Z2, Zframe.
  fold n. fold q.
  assert (Hstart : (1 <= Z.to_nat kMin)%nat) by lia.
  assert (Hend : (Z.to_nat kMin + (q - Z.to_nat kMin) <= n / 2)%nat)
    by (change (n / 2)%nat with q; lia).
  destruct (filters_fill_loop_values pv n c11 c21 c22 p0 p3
              (q - Z.to_nat kMin) (Z.to_nat kMin) fs
              Hstart Hend Z1 (eq_trans Z2 HF2) L53 L23 L76 L12)
    as (gs & Hgs & G1 & G2 & Hval).
  rewrite Hgs. destruct gs as [g1 g2]. cbn [fst snd] in *.
  exists g1, g2. split; [reflexivity|]. split; [assumption|].
  split; [assumption|]. split.
  - intros i x53 x23 x76 x12 Hi. apply Hval. lia.
  - intros t Ht1 Ht2.
    destruct (filters_fill_loop _ _ _ _ _ _ _ _ _ _ _ Hgs) with (t := t)
      as [E1 E2]; [lia|lia|lia|].
    cbn [fst snd] in E1, E2. rewrite E1, E2.
    apply Zframe. lia.
Qed.

(** X4.  The complete result of [LALCreateFilters] when
    [1 <= kMin <= n/2] and the power vectors cover the bins below [n/2]:
    the call succeeds and keeps the lengths; the bins below [kMin - 1]
    are zero; every bin [kMin <= i < n/2] and its mirror [n - i] hold the
    cosine and the negated sine of the phase
    [psi0 f^(-5/3) + psi3 f^(-2/3)] times the amplitude of the filter; and
    every other bin keeps what the buffers held: bin [kMin - 1], the
    middle bins, and the mirrors [n - kMin < t < n] of the low bins. *)
Theorem LALCreateFilters_closed_form (F1 F2 : list REAL) (pv : BEPowerVector)
    (mo : BEMoments) (kMin kMax : Z) (p0 p3 c11 c22 c21 : REAL) :
  length F2 = length F1 ->
  (1 <= kMin < UINT4_MAX1)%Z ->
  (Z.to_nat kMin <= length F1 / 2)%nat ->
  (length F1 / 2 <= length (fm5_3 pv))%nat ->
  (length F1 / 2 <= length (fm2_3 pv))%nat ->
  (length F1 / 2 <= length (fm7_6 pv))%nat ->
  (length F1 / 2 <= length (fm1_2 pv))%nat ->
  a11 mo !! Z.to_nat kMax = Some c11 ->
  a22 mo !! Z.to_nat kMax = Some c22 ->
  a21 mo !! Z.to_nat kMax = Some c21 ->
  exists G1 G2,
    LALCreateFilters F1 F2 pv mo kMin kMax p0 p3 = Some (G1, G2)
    /\ length G1 = length F1 /\ length G2 = length F1
    /\ (forall t, (Z.of_nat t < kMin - 1)%Z ->
          G1 !! t = Some fzero /\ G2 !! t = Some fzero)
    /\ (forall i x53 x23 x76 x12,
          (Z.to_nat kMin <= i < length F1 / 2)%nat ->
          fm5_3 pv !! i = Some x53 -> fm2_3 pv !! i = Some x23 ->
          fm7_6 pv !! i = Some x76 -> fm1_2 pv !! i = Some x12 ->
          let ph := fadd (fmul p0 x53) (fmul p3 x23) in
          G1 !! i = Some (fmul (fmul c11 x76) (fcos ph))
          /\ G1 !! (length F1 - i)%nat
             = Some (fmul (fneg (fmul c11 x76)) (fsin ph))
          /\ G2 !! i
             = Some (fmul (fadd (fmul c21 x76) (fmul c22 x12)) (fcos ph))
          /\ G2 !! (length F1 - i)%nat
             = Some (fmul (fneg (fadd (fmul c21 x76) (fmul c22 x12)))
                       (fsin ph)))
    /\ (forall t,
          (t = Z.to_nat (kMin - 1)
           \/ length F1 / 2 <= t <= length F1 - length F1 / 2
           \/ length F1 - Z.to_nat kMin < t)%nat ->
          G1 !! t = F1 !! t /\ G2 !! t = F2 !! t).
Proof.
  intros HF2 Hk Hkq L53 L23 L76 L12 H11 H22 H21.
  destruct (LALCreateFilters_values F1 F2 pv mo kMin kMax p0 p3 c11 c22 c21
              HF2 Hk Hkq L53 L23 L76 L12 H11 H22 H21)
    as (G1 & G2 & HG & LG1 & LG2 & Hval & Hframe).
  destruct (LALCreateFilters_below_kMin F1 F2 pv mo kMin kMax p0 p3 G1 G2
              Hk HG) as (Hzero & Hk1 & Hk2).
  exists G1, G2. split; [exact HG|]. split; [exact LG1|].
  split; [exact LG2|]. split; [exact Hzero|]. split; [exact Hval|].
  intros t [->|[Hmid|Hhigh]].
  - split; assumption.
  - apply Hframe; lia.
  - assert (Hq : (2 * (length F1 / 2) <= length F1)%nat).
    { pose proof (Nat.div_mod_eq (length F1) 2). lia. }
    apply Hframe; lia.
Qed.

Lemma LALCreateFilters_closed_form_witness :
  exists G1 G2,
    LALCreateFilters example_filter example_filter example_powers
      example_unit_moments 2 3 (Fin 0) (Fin 0) = Some (G1, G2)
    /\ G1 !! 2%nat
       = Some (fmul (fmul (Fin 1) (Fin 1))
                 (fcos (fadd (fmul (Fin 0) (Fin 1)) (fmul (Fin 0) (Fin 1)))))
    /\ G1 !! 4%nat = Some (Fin 7) /\ G1 !! 7%nat = Some (Fin 7).
Proof.
  destruct (LALCreateFilters_closed_form example_filter example_filter
              example_powers example_unit_moments 2 3 (Fin 0) (Fin 0)
              (Fin 1) (Fin 1) (Fin 1))
    as (G1 & G2 & HG & _ & _ & _ & Hval & Hframe);
    try reflexivity; try (unfold UINT4_MAX1; lia); try (vm_compute; lia).
  exists G1, G2. split; [exact HG|].
  split.
  - apply (Hval 2%nat (Fin 1) (Fin 1) (Fin 1) (Fin 1));
      try reflexivity. vm_compute. lia.
  - split.
    + apply (Hframe 4%nat). right. left. vm_compute. lia.
    + apply (Hframe 7%nat). right. right. vm_compute. lia.
Defined.



Lemma filters_zero_loop_overflow (c i : nat) (fs : list REAL * list REAL) :
  (i <= length fs.1)%nat -> (length fs.1 < i + c)%nat ->
  for_loop filters_zero_body i c fs = None.
Proof.
  revert i fs. induction c as [|c IH]; intros i fs Hi Hc; [lia|].
  cbn [for_loop].
  destruct (filters_zero_body i fs) as [gs|] eqn:Hb; [|reflexivity].
  apply filters_zero_body_inv in Hb as (H1 & H2 & ->).
  apply IH; cbn [fst snd]; rewrite length_insert; lia.
Qed.

(** X6.  With [kMin = 0] the bound [kMin - 1] of the first loop of
    [LALCreateFilters] wraps around to [2^32 - 1]: the loop writes past
    the end of every filter shorter than that, so the call is
    undefined. *)
Theorem LALCreateFilters_kMin_zero (F1 F2 : list REAL) (pv : BEPowerVector)
    (mo : BEMoments) (kMax : Z) (p0 p3 : REAL) :
  (Z.of_nat (length F1) < UINT4_MAX1 - 1)%Z ->
  LALCreateFilters F1 F2 pv mo 0 kMax p0 p3 = None.
Proof.
  intros Hlen. unfold LALCreateFilters, load, for_range.
  destruct (a11 mo !! Z.to_nat kMax) as [c11|]; [|reflexivity].
  destruct (a22 mo !! Z.to_nat kMax) as [c22|]; [|reflexivity].
  destruct (a21 mo !! Z.to_nat kMax) as [c21|]; [|reflexivity].
  cbn [mbind option_bind].
  assert (E : ((0 - 1) mod UINT4_MAX1)%Z = (UINT4_MAX1 - 1)%Z) by reflexivity.
  rewrite E.
  rewrite filters_zero_loop_overflow; [reflexivity| |]; cbn [fst snd]; lia.
Qed.

Lemma LALCreateFilters_kMin_zero_witness :
  LALCreateFilters example_filter example_filter example_powers
    example_unit_moments 0 3 (Fin 0) (Fin 0) = None.
Proof.
  apply LALCreateFilters_kMin_zero. vm_compute. reflexivity.
Defined.

(** ** The noise-moment calculator: bounds and orthonormality *)

(** X7.  When the bin of the lower cutoff lies beyond the [length / 2]
    elements of the moment vectors, the first loop of
    [LALCreateMomentVector], which zeroes the bins below the cutoff,
    writes past their end: the call is undefined. *)
Theorem LALCreateMomentVector_cutoff_overflow (psd : REAL8FrequencySeries)
    (params : InspiralTemplate) (len : Z) (kMin kMax : nat) :
  frequency_bin psd (fLower params) = Some kMin ->
  frequency_bin psd (fdiv (tSampling params) (Fin 2)) = Some kMax ->
  (half_length len < kMin)%nat ->
  LALCreateMomentVector psd params len = None.
Proof.
  intros Hmin Hmax Hover.
  rewrite (LALCreateMomentVector_unfold psd params len kMin kMax Hmin Hmax).
  unfold moment_loops.
  change {| a11 := LALCalloc (half_length len);
            a22 := LALCalloc (half_length len);
            a21 := LALCalloc (half_length len) |}
    with (zero_moments (half_length len)).
  rewrite moment_skip_loop_overflow by exact Hover. reflexivity.
Qed.

Lemma LALCreateMomentVector_cutoff_overflow_witness :
  (half_length 4 < 3)%nat
  /\ LALCreateMomentVector example_psd example_invalid_template 4 = None.
Proof.
  destruct example_invalid_bins as [Hmin Hmax].
  assert (Hover : (half_length 4 < 3)%nat) by (vm_compute; lia).
  split; [exact Hover|].
  exact (LALCreateMomentVector_cutoff_overflow example_psd
           example_invalid_template 4 3 2 Hmin Hmax Hover).
Defined.




(** ** The frequency-power vectors on empty vectors *)

Lemma half_length_zero (N : Z) :
  (- 2 ^ 31 <= N < 2 ^ 31)%Z ->
  half_length N = 0%nat <-> (- 1 <= N <= 1)%Z.
Proof.
  intros HN. unfold half_length, UINT4_MAX1.
  assert (H : Z.to_nat ((N ÷ 2) mod 2 ^ 32) = 0%nat
              <-> ((N ÷ 2) mod 2 ^ 32 = 0)%Z).
  { pose proof (Z.mod_pos_bound (N ÷ 2) (2 ^ 32) ltac:(lia)). lia. }
  rewrite H. clear H.
  change (2 ^ 31)%Z with 2147483648%Z in HN.
  change (2 ^ 32)%Z with 4294967296%Z.
  Z.to_euclidean_division_equations. lia.
Qed.

(** X9.  [LALCreateVectorFreqPower] writes element 0 without looking at
    the length: on an empty vector the write is out of bounds.
    [BECreatePowerVector] allocates [length / 2] elements, so it is
    undefined for the lengths -1, 0 and 1; for every other length all
    its writes stay inside the vectors it allocated. *)
Theorem BECreatePowerVector_empty (param : InspiralTemplate) (N : Z) :
  (- 2 ^ 31 <= N < 2 ^ 31)%Z ->
  (forall a b, LALCreateVectorFreqPower [] param a b = None)
  /\ (BECreatePowerVector param N = None <-> (- 1 <= N <= 1)%Z).
Proof.
  intros HN. split; [reflexivity|].
  rewrite <- (half_length_zero N HN). unfold BECreatePowerVector.
  destruct (half_length N) as [|n] eqn:Hn.
  - split; reflexivity.
  - rewrite !LALCreateVectorFreqPower_closed_form
      by (unfold LALCalloc; rewrite length_replicate; lia).
    cbn [mbind option_bind]. split; discriminate.
Qed.

Lemma BECreatePowerVector_empty_witness :
  BECreatePowerVector example_template 1 = None
  /\ BECreatePowerVector example_template 2 <> None.
Proof.
  assert (H1 : (- 2 ^ 31 <= 1 < 2 ^ 31)%Z) by lia.
  assert (H2 : (- 2 ^ 31 <= 2 < 2 ^ 31)%Z) by lia.
  split.
  - apply (BECreatePowerVector_empty example_template 1 H1). lia.
  - intros H.
    apply (BECreatePowerVector_empty example_template 2 H2) in H. lia.
Defined.

(** ** The noise curve of the VIRGO detector *)

Section VirgoPsd.
Local Open Scope R_scope.

Lemma virgo_s0_pos : 0 < 102 / 10 ^ 47.
Proof. apply Rdiv_lt_0_compat; [lra|]. apply pow_lt. lra. Qed.

Lemma virgo_exponent_not_integer : is_integer (- (48 / 10)) = false.
Proof.
  unfold is_integer.
  destruct (Req_dec_T (IZR (Int_part (- (48 / 10)))) (- (48 / 10)))
    as [E|_]; [|reflexivity].
  exfalso.
  assert (E10 : IZR (Int_part (- (48 / 10)) * 10) = IZR (- 48)).
  { rewrite mult_IZR, E. lra. }
  apply eq_IZR in E10. lia.
Qed.

End VirgoPsd.

(** X11.  At every positive frequency the VIRGO noise curve is at least
    [s0 = 10.2e-46], since the sum that [s0] multiplies is at least 1:
    the value is positive and is never NaN or zero, so the moment
    calculator never skips such a bin and never divides by zero there.
    (The comparisons also hold of +Inf, the value of the curve where
    one of its terms is too large for a [REAL8].) *)
Theorem LALVIRGOPsd_positive (f : R) :
  (0 < f)%R ->
  fle (Fin (102 / 10 ^ 47)) (LALVIRGOPsd (Fin f)) = true
  /\ flt (Fin 0) (LALVIRGOPsd (Fin f)) = true
  /\ ftruth (LALVIRGOPsd (Fin f)) = true.
Proof.
  intros Hf. unfold LALVIRGOPsd.
  pose proof virgo_s0_pos as Hs0. set (s0 := (102 / 10 ^ 47)%R) in *.
  assert (Hx : (0 < f / 500)%R) by lra.
  rewrite (fdiv_fin f 500) by lra. set (x := (f / 500)%R) in *.
  cbn [fmul]. rewrite fpow_fin by lra.
  rewrite (fdiv_fin 6 17) by lra. rewrite (fdiv_fin (6 / 17) x) by lra.
  cbn [fadd fmul].
  pose proof (exp_pos (- (48 / 10) * ln (787 / 100 * x))) as HP.
  fold (Rpower (787 / 100 * x) (- (48 / 10))) in HP.
  set (P := Rpower (787 / 100 * x) (- (48 / 10))) in *.
  assert (Hq : (0 < 6 / 17 / x)%R) by (apply Rdiv_lt_0_compat; lra).
  assert (Hsum : (1 <= P + 6 / 17 / x + 1 + x * x)%R) by nra.
  assert (Hbound : (s0 <= s0 * (P + 6 / 17 / x + 1 + x * x))%R) by nra.
  split; [apply fle_fin; exact Hbound|].
  split; [apply flt_fin; lra|]. apply ftruth_fin. lra.
Qed.

Lemma LALVIRGOPsd_positive_witness :
  fle (Fin (102 / 10 ^ 47)) (LALVIRGOPsd (Fin 500)) = true
  /\ ftruth (LALVIRGOPsd (Fin 500)) = true.
Proof.
  assert (H : (0 < 500)%R) by lra.
  destruct (LALVIRGOPsd_positive 500 H) as (Hle & _ & Ht).
  split; assumption.
Defined.

(** X12.  Outside the positive frequencies the VIRGO noise curve is not a
    number to divide by: at frequency 0 it is +Inf (both [pow (0, -4.8)]
    and [6./17./0] are), and at every negative frequency it is NaN, the
    power of a negative number with the exponent -4.8. *)
Theorem LALVIRGOPsd_edge :
  LALVIRGOPsd (Fin 0) = PInf
  /\ forall f : R, (f < 0)%R -> LALVIRGOPsd (Fin f) = NaN.
Proof.
  pose proof virgo_s0_pos as Hs0.
  split.
  - unfold LALVIRGOPsd.
    rewrite (fdiv_fin 0 500) by lra. cbn [fmul].
    replace (787 / 100 * (0 / 500))%R with 0%R by lra.
    replace (0 / 500)%R with 0%R by lra.
    unfold fpow. destruct (Req_dec_T (- (48 / 10)) 0) as [E|_]; [lra|].
    rewrite Rsgn_zero. destruct (Rlt_dec (- (48 / 10)) 0) as [_|N]; [|lra].
    rewrite (fdiv_fin 6 17) by lra. unfold fdiv.
    destruct (Req_dec_T 0 0) as [_|N]; [|lra].
    rewrite (Rsgn_pos (6 / 17)) by lra. cbn [signed_inf fadd fmul].
    rewrite Rsgn_pos by exact Hs0. reflexivity.
  - intros f Hf. unfold LALVIRGOPsd.
    rewrite (fdiv_fin f 500) by lra. cbn [fmul].
    unfold fpow at 1.
    destruct (Req_dec_T (- (48 / 10)) 0) as [E|_]; [lra|].
    rewrite Rsgn_neg by lra. rewrite virgo_exponent_not_integer.
    reflexivity.
Qed.

Lemma LALVIRGOPsd_edge_witness :
  LALVIRGOPsd (Fin 0) = PInf /\ LALVIRGOPsd (Fin (- (1))) = NaN.
Proof.
  destruct LALVIRGOPsd_edge as [H0 Hneg].
  split; [exact H0|]. apply Hneg. lra.
Defined.

(** ** The best-match tracker over a bank *)

Lemma flt_irrefl (x : REAL) : flt x x = false.
Proof.
  destruct x; cbn; try reflexivity.
  destruct (Rlt_dec r r) as [H|_]; [lra|reflexivity].
Qed.

Lemma flt_trans (a b c : REAL) :
  flt a b = true -> flt b c = true -> flt a c = true.
Proof.
  destruct a, b, c; cbn; try discriminate; try reflexivity.
  decide_reals; intros; try discriminate; try reflexivity; lra.
Qed.

Lemma flt_trans_false (b b' c : REAL) :
  flt b b' = true -> flt b c = false -> flt b' c = false.
Proof.
  destruct b, b', c; cbn; try discriminate; try reflexivity.
  decide_reals; intros; try discriminate; try reflexivity; lra.
Qed.

Lemma flt_fle (a b : REAL) : flt a b = true -> fle a b = true.
Proof.
  destruct a, b; cbn; try discriminate; try reflexivity.
  decide_reals; intros; try discriminate; try reflexivity; lra.
Qed.

Lemma KeepHighestValues_parts (this best : OverlapOutputIn) :
  rhoMax (KeepHighestValues this best)
  = (if fgt (rhoMax this) (rhoMax best) then rhoMax this else rhoMax best)
  /\ constrained_part (KeepHighestValues this best)
     = (if fgt (rhoMax this) (rhoMax best)
        then constrained_part this else constrained_part best)
  /\ rhoMaxU (KeepHighestValues this best)
     = (if fgt (rhoMaxU this) (rhoMaxU best)
        then rhoMaxU this else rhoMaxU best)
  /\ unconstrained_part (KeepHighestValues this best)
     = (if fgt (rhoMaxU this) (rhoMaxU best)
        then unconstrained_part this else unconstrained_part best).
Proof.
  unfold KeepHighestValues, constrained_part, unconstrained_part.
  destruct (fgt (rhoMax this) (rhoMax best)); cbn;
    destruct (fgt (rhoMaxU this) (rhoMaxU best)); cbn;
    repeat split; reflexivity.
Qed.

(** A running maximum: [step this best] replaces the key and the part of
    [best] by those of [this] exactly when the key of [this] is greater. *)
Section RunningMaximum.

Variables (St P : Type) (key : St -> REAL) (part : St -> P).
Variable step : St -> St -> St.

Hypothesis Hkey : forall c b,
  key (step c b) = if fgt (key c) (key b) then key c else key b.
Hypothesis Hpart : forall c b,
  part (step c b) = if fgt (key c) (key b) then part c else part b.

Lemma running_maximum (rs : list St) (b0 : St) :
  let b := foldl (fun best this => step this best) b0 rs in
  (key b = key b0 \/ flt (key b0) (key b) = true)
  /\ (forall c, c ∈ rs -> fgt (key c) (key b) = false)
  /\ (part b = part b0 \/ exists c, c ∈ rs /\ part b = part c).
Proof.
  revert b0. induction rs as [|c rs IH]; intros b0; cbn [foldl].
  - split; [left; reflexivity|]. split; [|left; reflexivity].
    intros c Hc. inversion Hc.
  - destruct (IH (step c b0)) as (M & Hmax & Hp).
    set (b := foldl (fun best this => step this best) (step c b0) rs) in *.
    assert (M0 : key (step c b0) = key b0
                 \/ flt (key b0) (key (step c b0)) = true).
    { rewrite Hkey. unfold fgt.
      destruct (flt (key b0) (key c)) eqn:E; [right; exact E|left; reflexivity]. }
    assert (Hc1 : fgt (key c) (key (step c b0)) = false).
    { rewrite Hkey. unfold fgt.
      destruct (flt (key b0) (key c)) eqn:E; [apply flt_irrefl|exact E]. }
    split; [|split].
    + destruct M as [M|M], M0 as [M0|M0].
      * left. congruence.
      * right. rewrite M. exact M0.
      * right. rewrite <- M0. exact M.
      * right. eapply flt_trans; eassumption.
    + intros c' Hc'. apply elem_of_cons in Hc' as [->|Hc'].
      * destruct M as [M|M]; [rewrite M; exact Hc1|].
        unfold fgt in *. eapply flt_trans_false; eassumption.
      * apply Hmax. exact Hc'.
    + destruct Hp as [Hp|(c' & Hc' & Hp)].
      * rewrite Hp, Hpart.
        destruct (fgt (key c) (key b0)); [right|left; reflexivity].
        exists c. split; [apply elem_of_cons; left; reflexivity|reflexivity].
      * right. exists c'.
        split; [apply elem_of_cons; right; exact Hc'|exact Hp].
Qed.

End RunningMaximum.

(** X13.  Offering the results of the templates of a bank to
    [KeepHighestValues] one after the other, from the initial record,
    leaves a best match that no candidate beats, in the constrained and
    in the unconstrained SNR; each of its two sub-records is the one of a
    candidate or still the initial one, whose SNR is the sentinel -1; its
    two SNR are never NaN and never below -1; an empty bank leaves the
    initial record. *)
Theorem KeepHighestValues_scan (results : list OverlapOutputIn) :
  let best := best_of results in
  (forall c, c ∈ results ->
     fgt (rhoMax c) (rhoMax best) = false
     /\ fgt (rhoMaxU c) (rhoMaxU best) = false)
  /\ (constrained_part best = constrained_part BEInitOverlapOutputIn
      \/ exists c, c ∈ results /\ constrained_part best = constrained_part c)
  /\ (unconstrained_part best = unconstrained_part BEInitOverlapOutputIn
      \/ exists c, c ∈ results
                   /\ unconstrained_part best = unconstrained_part c)
  /\ fle (Fin (-1)) (rhoMax best) = true
  /\ fle (Fin (-1)) (rhoMaxU best) = true
  /\ best_of [] = BEInitOverlapOutputIn.
Proof.
  intros best.
  destruct (running_maximum OverlapOutputIn _ rhoMax constrained_part
              KeepHighestValues
              (fun c b => proj1 (KeepHighestValues_parts c b))
              (fun c b => proj1 (proj2 (KeepHighestValues_parts c b)))
              results BEInitOverlapOutputIn) as (M & Hmax & Hp).
  destruct (running_maximum OverlapOutputIn _ rhoMaxU unconstrained_part
              KeepHighestValues
              (fun c b => proj1 (proj2 (proj2 (KeepHighestValues_parts c b))))
              (fun c b => proj2 (proj2 (proj2 (KeepHighestValues_parts c b))))
              results BEInitOverlapOutputIn) as (MU & HmaxU & HpU).
  subst best. fold (best_of results) in M, Hmax, Hp, MU, HmaxU, HpU.
  split; [intros c Hc; split; [apply Hmax|apply HmaxU]; exact Hc|].
  split; [exact Hp|]. split; [exact HpU|].
  split; [|split; [|reflexivity]].
  - destruct M as [M|M]; [|apply flt_fle; exact M].
    rewrite M. cbn. destruct (Rle_dec (-1) (-1)) as [_|N]; [reflexivity|lra].
  - destruct MU as [MU|MU]; [|apply flt_fle; exact MU].
    rewrite MU. cbn. destruct (Rle_dec (-1) (-1)) as [_|N]; [reflexivity|lra].
Qed.

(** X14.  Offering the same candidate twice changes nothing: the second
    call of [KeepHighestValues] leaves the best match as the first call
    made it. *)
Theorem KeepHighestValues_idempotent (this best : OverlapOutputIn) :
  KeepHighestValues this (KeepHighestValues this best)
  = KeepHighestValues this best.
Proof.
  unfold KeepHighestValues at 1.
  destruct (KeepHighestValues_parts this best) as (K & _ & KU & _).
  rewrite K.
  assert (E : fgt (rhoMax this)
                (if fgt (rhoMax this) (rhoMax best)
                 then rhoMax this else rhoMax best) = false).
  { destruct (fgt (rhoMax this) (rhoMax best)) eqn:E; [|exact E].
    apply flt_irrefl. }
  rewrite E. rewrite KU.
  assert (EU : fgt (rhoMaxU this)
                 (if fgt (rhoMaxU this) (rhoMaxU best)
                  then rhoMaxU this else rhoMaxU best) = false).
  { destruct (fgt (rhoMaxU this) (rhoMaxU best)) eqn:E'; [|exact E'].
    apply flt_irrefl. }
  rewrite EU. reflexivity.
Qed.

(** ** The maximization loop *)

(** What one iteration of the loop does to the running maxima and to the
    correlation vector. *)
Lemma overlap_body_step (otherIn : OtherParamIn)
    (x1 x2 x3 x4 : list REAL) (c11 c21 c22 tb fp23 : REAL) (i : nat)
    (st st' : MaxLoop) :
  overlap_body otherIn x1 x2 x3 x4 c11 c21 c22 tb fp23 i st = Returned st' ->
  exists thetav rho rhoU aF,
    sample_thetav x1 x2 x3 x4 i = Some thetav
    /\ sample_constrained_snr x1 x2 x3 x4 tb i = Returned rho
    /\ sample_unconstrained_snr x1 x2 x3 x4 i = Some rhoU
    /\ sample_alphaF x1 x2 x3 x4 c11 c21 c22 fp23 i = Some aF
    /\ sector_decision tb thetav <> SectorNone
    /\ (rhoMaxConstraint st', rhoBinConstraint st', phaseConstraint st')
       = (if fgt rho (rhoMaxConstraint st)
          then (rho, Z.of_nat i, fmul (Fin (1 / 2)) thetav)
          else (rhoMaxConstraint st, rhoBinConstraint st, phaseConstraint st))
    /\ (rhoMaxUnconstraint st', rhoBinUnconstraint st', phaseUnconstraint st')
       = (if fgt rhoU (rhoMaxUnconstraint st) && fle aF (Fin 1)
          then (rhoU, Z.of_nat i, fmul (Fin (1 / 2)) thetav)
          else (rhoMaxUnconstraint st, rhoBinUnconstraint st,
                phaseUnconstraint st))
    /\ length (correlation st') = length (correlation st)
    /\ (printBestOverlap otherIn || printSNRHisto otherIn = false ->
        correlation st' = correlation st).
Proof.
  unfold overlap_body, sample_thetav, sample_constrained_snr,
    sample_unconstrained_snr, sample_alphaF, sample_thetav.
  intros H.
  apply outcome_bind_returned in H as (s1 & H1 & H).
  apply outcome_bind_returned in H as (s2 & H2 & H).
  apply outcome_bind_returned in H as (s3 & H3 & H).
  apply outcome_bind_returned in H as (s4 & H4 & H).
  apply outcome_bind_returned in H as (rho & Hrho & H).
  apply outcome_bind_returned in H as (corr & Hcorr & H).
  rewrite H1, H2, H3, H4. cbn [mbind outcome_mbind outcome_bind].
  apply defined_returned in H1, H2, H3, H4.
  rewrite H1, H2, H3, H4. cbn [mbind option_bind].
  do 4 eexists.
  split; [reflexivity|]. split; [exact Hrho|].
  split; [reflexivity|]. split; [reflexivity|].
  split; [exact (proj1 (constrained_snr_returned _ _ _ _ _ _ _ Hrho))|].
  assert (Hlen : length corr = length (correlation st)
                 /\ (printBestOverlap otherIn || printSNRHisto otherIn = false
                     -> corr = correlation st)).
  { destruct (alphaFConstraint otherIn);
      destruct (printBestOverlap otherIn || printSNRHisto otherIn);
      try (injection Hcorr as <-; split; [reflexivity|intros _; reflexivity]).
    - apply defined_returned, store_inv in Hcorr as [_ ->].
      rewrite length_insert. split; [reflexivity|discriminate].
    - destruct (fle _ (Fin 1));
        apply defined_returned, store_inv in Hcorr as [_ ->];
        rewrite length_insert; (split; [reflexivity|discriminate]). }
  injection H as <-.
  destruct (fgt rho (rhoMaxConstraint st)); cbn;
    destruct (fgt _ (rhoMaxUnconstraint st) && fle _ (Fin 1)); cbn;
    repeat split; try reflexivity; apply Hlen.
Qed.

(** An invariant that the returning iterations of a loop preserve holds
    when the loop returns. *)
Lemma for_loop_outcome_preserves {St : Type} (Inv : nat -> St -> Prop)
    (body : nat -> St -> outcome St) (c i : nat) (s s' : St) :
  Inv i s ->
  (forall j sj sj', (i <= j < i + c)%nat -> Inv j sj ->
     body j sj = Returned sj' -> Inv (S j) sj') ->
  for_loop_outcome body i c s = Returned s' ->
  Inv (i + c)%nat s'.
Proof.
  revert i s. induction c as [|c IH]; intros i s H0 Hstep H.
  - cbn in H. injection H as <-. rewrite Nat.add_0_r. exact H0.
  - cbn [for_loop_outcome] in H.
    apply outcome_bind_returned in H as (s1 & Hb & H).
    replace (i + S c)%nat with (S i + c)%nat by lia.
    apply (IH (S i) s1); [|intros j sj sj' Hj; apply Hstep; lia|exact H].
    apply (Hstep i s s1); [lia|exact H0|exact Hb].
Qed.

Lemma flt_fle_false (m r c : REAL) :
  flt m r = true -> flt m c = false -> fle r c = false.
Proof.
  destruct m, r, c; cbn; try discriminate; try reflexivity.
  decide_reals; intros; try discriminate; try reflexivity; lra.
Qed.

Lemma pair3_eq {A B C : Type} (a a' : A) (b b' : B) (c c' : C) :
  (a, b, c) = (a', b', c') -> a = a' /\ b = b' /\ c = c'.
Proof. intros H. injection H as -> -> ->. auto. Qed.

Lemma overlap_loop_constrained (otherIn : OtherParamIn)
    (x1 x2 x3 x4 : list REAL) (c11 c21 c22 tb fp23 : REAL) (a c : nat)
    (st0 st' : MaxLoop) :
  for_loop_outcome (overlap_body otherIn x1 x2 x3 x4 c11 c21 c22 tb fp23)
    a c st0 = Returned st' ->
  constrained_maximum_upto x1 x2 x3 x4 tb a st0 (a + c) st'.
Proof.
  apply (for_loop_outcome_preserves
           (constrained_maximum_upto x1 x2 x3 x4 tb a st0)).
  - split; [intros i Hi; lia|]. left. auto.
  - intros j sj sj' Hj [I1 I2] Hb.
    apply overlap_body_step in Hb
      as (thetav & rho & rhoU & aF & Htv & Hrho & _ & _ & Hsec & Hc & _).
    assert (Hmono : rhoMaxConstraint sj = rhoMaxConstraint st0
                    \/ flt (rhoMaxConstraint st0) (rhoMaxConstraint sj) = true).
    { destruct I2 as [(E & _)|(i & tv & _ & _ & _ & _ & _ & _ & M & _)];
        [left; exact E|right; exact M]. }
    destruct (fgt rho (rhoMaxConstraint sj)) eqn:Hgt;
      apply pair3_eq in Hc as (Emax & Ebin & Eph); unfold fgt in *.
    + split.
      * intros i Hi. destruct (decide (i = j)) as [->|Hne].
        -- exists rho. split; [exact Hrho|]. rewrite Emax. apply flt_irrefl.
        -- destruct (I1 i) as (r & Hr & Hle); [lia|].
           exists r. split; [exact Hr|]. rewrite Emax.
           eapply flt_trans_false; eassumption.
      * right. exists j, thetav. rewrite Emax, Ebin, Eph.
        split; [lia|]. split; [exact Hrho|]. split; [reflexivity|].
        split; [exact Htv|]. split; [reflexivity|]. split; [exact Hsec|].
        split.
        -- destruct Hmono as [E|M]; [rewrite <- E; exact Hgt|].
           eapply flt_trans; eassumption.
        -- intros i' Hi'. destruct (I1 i') as (r & Hr & Hle); [lia|].
           exists r. split; [exact Hr|].
           eapply flt_fle_false; eassumption.
    + split.
      * intros i Hi. rewrite Emax. destruct (decide (i = j)) as [->|Hne].
        -- exists rho. split; [exact Hrho|exact Hgt].
        -- apply I1. lia.
      * rewrite Emax, Ebin, Eph.
        destruct I2 as [I2|(i & tv & Hi & I2)]; [left; exact I2|].
        right. exists i, tv. split; [lia|exact I2].
Qed.

Lemma overlap_loop_unconstrained (otherIn : OtherParamIn)
    (x1 x2 x3 x4 : list REAL) (c11 c21 c22 tb fp23 : REAL) (a c : nat)
    (st0 st' : MaxLoop) :
  for_loop_outcome (overlap_body otherIn x1 x2 x3 x4 c11 c21 c22 tb fp23)
    a c st0 = Returned st' ->
  unconstrained_maximum_upto x1 x2 x3 x4 c11 c21 c22 tb fp23 a st0
    (a + c) st'.
Proof.
  apply (for_loop_outcome_preserves
           (unconstrained_maximum_upto x1 x2 x3 x4 c11 c21 c22 tb fp23 a st0)).
  - split; [intros i Hi; lia|]. left. auto.
  - intros j sj sj' Hj [I1 I2] Hb.
    apply overlap_body_step in Hb
      as (thetav & rho & rhoU & aF & Htv & _ & HrhoU & HaF & Hsec & _ & Hc & _).
    assert (Hmono : rhoMaxUnconstraint sj = rhoMaxUnconstraint st0
                    \/ flt (rhoMaxUnconstraint st0) (rhoMaxUnconstraint sj)
                       = true).
    { destruct I2 as [(E & _)|(i & tv & af & _ & _ & _ & _ & _ & _ & _ & _ & M)];
        [left; exact E|right; exact M]. }
    destruct (fgt rhoU (rhoMaxUnconstraint sj)) eqn:Hgt;
      destruct (fle aF (Fin 1)) eqn:Hcut; cbn [andb] in Hc;
      apply pair3_eq in Hc as (Emax & Ebin & Eph); unfold fgt in *.
    + split.
      * intros i Hi. destruct (decide (i = j)) as [->|Hne].
        -- exists rhoU, aF. split; [exact HrhoU|]. split; [exact HaF|].
           intros _. rewrite Emax. apply flt_irrefl.
        -- destruct (I1 i) as (r & af & Hr & Haf & Hle); [lia|].
           exists r, af. split; [exact Hr|]. split; [exact Haf|].
           intros Hc1. rewrite Emax.
           eapply flt_trans_false; [exact Hgt|]. apply Hle. exact Hc1.
      * right. exists j, thetav, aF. rewrite Emax, Ebin, Eph.
        split; [lia|]. split; [exact HrhoU|]. split; [exact HaF|].
        split; [exact Hcut|]. split; [reflexivity|].
        split; [exact Htv|]. split; [reflexivity|]. split; [exact Hsec|].
        destruct Hmono as [E|M]; [rewrite <- E; exact Hgt|].
        eapply flt_trans; eassumption.
    + split.
      * intros i Hi. rewrite Emax. destruct (decide (i = j)) as [->|Hne].
        -- exists rhoU, aF. split; [exact HrhoU|]. split; [exact HaF|].
           rewrite Hcut. discriminate.
        -- apply I1. lia.
      * rewrite Emax, Ebin, Eph.
        destruct I2 as [I2|(i & tv & af & Hi & I2)]; [left; exact I2|].
        right. exists i, tv, af. split; [lia|exact I2].
    + split.
      * intros i Hi. rewrite Emax. destruct (decide (i = j)) as [->|Hne].
        -- exists rhoU, aF. split; [exact HrhoU|]. split; [exact HaF|].
           intros _. exact Hgt.
        -- apply I1. lia.
      * rewrite Emax, Ebin, Eph.
        destruct I2 as [I2|(i & tv & af & Hi & I2)]; [left; exact I2|].
        right. exists i, tv, af. split; [lia|exact I2].
    + split.
      * intros i Hi. rewrite Emax. destruct (decide (i = j)) as [->|Hne].
        -- exists rhoU, aF. split; [exact HrhoU|]. split; [exact HaF|].
           intros _. exact Hgt.
        -- apply I1. lia.
      * rewrite Emax, Ebin, Eph.
        destruct I2 as [I2|(i & tv & af & Hi & I2)]; [left; exact I2|].
        right. exists i, tv, af. split; [lia|exact I2].
Qed.

Lemma overlap_loop_correlation (otherIn : OtherParamIn)
    (x1 x2 x3 x4 : list REAL) (c11 c21 c22 tb fp23 : REAL) (a c : nat)
    (st0 st' : MaxLoop) :
  for_loop_outcome (overlap_body otherIn x1 x2 x3 x4 c11 c21 c22 tb fp23)
    a c st0 = Returned st' ->
  length (correlation st') = length (correlation st0)
  /\ (printBestOverlap otherIn || printSNRHisto otherIn = false ->
      correlation st' = correlation st0).
Proof.
  apply (for_loop_outcome_preserves
           (fun (_ : nat) st =>
              length (correlation st) = length (correlation st0)
              /\ (printBestOverlap otherIn || printSNRHisto otherIn = false ->
                  correlation st = correlation st0))).
  - split; [reflexivity|intros _; reflexivity].
  - intros j sj sj' Hj [I1 I2] Hb.
    apply overlap_body_step in Hb
      as (thetav & rho & rhoU & aF & _ & _ & _ & _ & _ & _ & _ & Hl & Hk).
    split; [congruence|]. intros Hf. rewrite (Hk Hf). apply I2. exact Hf.
Qed.

(** ** The overlap maximizer as a whole *)

Lemma correlate_checked_returned
    (correlate : InspiralWaveCorrelateIn -> bool * list REAL)
    (c : InspiralWaveCorrelateIn) (x : list REAL) :
  correlate_checked correlate c = Returned x ->
  (correlate c).1 = true /\ x = (correlate c).2.
Proof.
  unfold correlate_checked. destruct (correlate c).1; [|discriminate].
  intros H. injection H as <-. auto.
Qed.

(** What a returning call of [LALWaveOverlapBCV] has gone through. *)
Lemma LALWaveOverlapBCV_inv
    (correlate : InspiralWaveCorrelateIn -> bool * list REAL)
    (s s' : OverlapState) (otherIn : OtherParamIn) (mo : BEMoments) :
  LALWaveOverlapBCV correlate s otherIn mo = Returned s' ->
  exists F1 F2 k c11 c22 c21 st,
    let cin := correlation_input (st_overlapin s) in
    let fFinal_ := fFinal (param (st_overlapin s)) in
    ((correlate (cin (st_FilterBCV1 s))).1 = true
     /\ (correlate (cin F1)).1 = true
     /\ (correlate (cin (st_FilterBCV2 s))).1 = true)
    /\ LALGetOrthogonalFilterBCV2 (st_FilterBCV1 s) = Some F1
    /\ LALGetOrthogonalFilterBCV2 (st_FilterBCV2 s) = Some F2
    /\ (a11 mo !! Z.to_nat k = Some c11 /\ a22 mo !! Z.to_nat k = Some c22
        /\ a21 mo !! Z.to_nat k = Some c21)
    /\ for_range_outcome
         (overlap_body otherIn
            (correlate (cin (st_FilterBCV1 s))).2
            (correlate (cin (st_FilterBCV2 s))).2
            (correlate (cin F1)).2 (correlate (cin F2)).2
            c11 c21 c22 (overlap_thetab c11 c21 c22 fFinal_)
            (fpow fFinal_ (fdiv (Fin 2) (Fin 3))))
         (Z.to_nat (nBegin (st_overlapin s) mod UINT4_MAX1))
         (Z.to_nat ((Z.of_nat (length F1) - nEnd (st_overlapin s))
                    mod UINT4_MAX1))
         (initial_maxima (st_correlation s)) = Returned st
    /\ st_OverlapOutput s'
       = {| rhoMax := rhoMaxConstraint st;
            phase := phaseConstraint st;
            alpha := alphaConstraint st;
            rhoBin := rhoBinConstraint st;
            freq := freq (st_OverlapOutput s);
            layer := layer (st_OverlapOutput s);
            templateNumber := templateNumber (st_OverlapOutput s);
            rhoMaxU := rhoMaxUnconstraint st;
            phaseU := phaseUnconstraint st;
            alphaU := alphaUnconstraint st;
            rhoBinU := rhoBinUnconstraint st;
            freqU := freqU (st_OverlapOutput s);
            layerU := layerU (st_OverlapOutput s);
            templateNumberU := templateNumberU (st_OverlapOutput s) |}
    /\ st_overlapin s'
       = with_param (st_overlapin s)
           {| fLower := fLower (param (st_overlapin s));
              tSampling := tSampling (param (st_overlapin s));
              fFinal := fFinal (param (st_overlapin s));
              fCutoff := fCutoff (param (st_overlapin s));
              psi0 := psi0 (param (st_overlapin s));
              psi3 := psi3 (param (st_overlapin s));
              nStartPad := 0;
              startPhase := Fin 0 |}
    /\ (if printing otherIn
        then for_range
               (combine_body (Fin 0) (Fin 0)
                  (correlate (cin (st_FilterBCV1 s))).2
                  (correlate (cin (st_FilterBCV2 s))).2
                  (correlate (cin F1)).2 (correlate (cin F2)).2)
               0 (length (st_correlation s)) (correlation st)
             = Some (st_correlation s')
             /\ LALGetOrthogonalFilterBCV2 F1 = Some (st_FilterBCV1 s')
             /\ LALGetOrthogonalFilterBCV2 F2 = Some (st_FilterBCV2 s')
        else st_correlation s' = correlation st
             /\ st_FilterBCV1 s' = F1 /\ st_FilterBCV2 s' = F2).
Proof.
  intros H. unfold LALWaveOverlapBCV in H.
  apply outcome_bind_returned in H as (x1 & Hx1 & H).
  apply outcome_bind_returned in H as (F1 & HF1 & H).
  apply outcome_bind_returned in H as (x3 & Hx3 & H).
  apply outcome_bind_returned in H as (x2 & Hx2 & H).
  apply outcome_bind_returned in H as (F2 & HF2 & H).
  apply outcome_bind_returned in H as (k & Hk & H).
  apply outcome_bind_returned in H as (c11 & H11 & H).
  apply outcome_bind_returned in H as (c22 & H22 & H).
  apply outcome_bind_returned in H as (c21 & H21 & H).
  apply outcome_bind_returned in H as (st & Hst & H).
  apply correlate_checked_returned in Hx1 as [T1 ->].
  apply correlate_checked_returned in Hx3 as [T3 ->].
  apply correlate_checked_returned in Hx2 as [T2 ->].
  apply defined_returned in HF1, HF2, Hk, H11, H22, H21.
  exists F1, F2, k, c11, c22, c21, st. cbn zeta.
  split; [split; [exact T1|split; [exact T3|exact T2]]|].
  split; [exact HF1|]. split; [exact HF2|].
  split; [split; [exact H11|split; [exact H22|exact H21]]|].
  split; [exact Hst|].
  destruct (printing otherIn).
  - apply outcome_bind_returned in H as (corr & Hcorr & H).
    apply outcome_bind_returned in H as (F1' & HF1' & H).
    apply outcome_bind_returned in H as (F2' & HF2' & H).
    apply defined_returned in Hcorr, HF1', HF2'.
    injection H as <-. cbn.
    split; [reflexivity|]. split; [reflexivity|].
    split; [exact Hcorr|]. split; assumption.
  - injection H as <-. cbn. repeat split; reflexivity.
Qed.

(** The maxima start at 0 and only grow. *)
Lemma overlap_loop_nonnegative (otherIn : OtherParamIn)
    (x1 x2 x3 x4 : list REAL) (c11 c21 c22 tb fp23 : REAL) (a c : nat)
    (corr : list REAL) (st : MaxLoop) :
  for_loop_outcome (overlap_body otherIn x1 x2 x3 x4 c11 c21 c22 tb fp23)
    a c (initial_maxima corr) = Returned st ->
  fle (Fin 0) (rhoMaxConstraint st) = true
  /\ fle (Fin 0) (rhoMaxUnconstraint st) = true.
Proof.
  intros Hst.
  pose proof (overlap_loop_constrained _ _ _ _ _ _ _ _ _ _ _ _ _ _ Hst)
    as [_ HC].
  pose proof (overlap_loop_unconstrained _ _ _ _ _ _ _ _ _ _ _ _ _ _ Hst)
    as [_ HU].
  assert (Hzero : fle (Fin 0) (Fin 0) = true) by (apply fle_fin; lra).
  split.
  - destruct HC as [(E & _)|(i & tv & _ & _ & _ & _ & _ & _ & M & _)].
    + rewrite E. exact Hzero.
    + apply flt_fle. exact M.
  - destruct HU as [(E & _)|(i & tv & af & _ & _ & _ & _ & _ & _ & _ & _ & M)].
    + rewrite E. exact Hzero.
    + apply flt_fle. exact M.
Qed.

(** X15.  Whenever [LALWaveOverlapBCV] returns, the two maxima it reports
    are numbers that are not negative: the loop starts them at 0 and only
    replaces them by greater values, so whatever the output record held
    before the call, such as the -1 the caller stores as "unset", is
    overwritten, and NaN is never reported. *)
Theorem LALWaveOverlapBCV_maxima_nonnegative
    (correlate : InspiralWaveCorrelateIn -> bool * list REAL)
    (s s' : OverlapState) (otherIn : OtherParamIn) (mo : BEMoments) :
  LALWaveOverlapBCV correlate s otherIn mo = Returned s' ->
  fle (Fin 0) (rhoMax (st_OverlapOutput s')) = true
  /\ fle (Fin 0) (rhoMaxU (st_OverlapOutput s')) = true.
Proof.
  intros H.
  apply LALWaveOverlapBCV_inv in H
    as (F1 & F2 & k & c11 & c22 & c21 & st & _ & _ & _ & _ & Hst & Hout & _).
  cbn zeta in Hst. unfold for_range_outcome in Hst.
  apply overlap_loop_nonnegative in Hst.
  rewrite Hout. exact Hst.
Qed.

Lemma LALWaveOverlapBCV_maxima_nonnegative_witness :
  exists s',
    LALWaveOverlapBCV example_correlate example_overlap_state example_otherIn
      example_moments = Returned s'
    /\ fle (Fin 0) (rhoMax (st_OverlapOutput s')) = true
    /\ fle (Fin 0) (rhoMaxU (st_OverlapOutput s')) = true.
Proof.
  destruct example_overlap_returns as (s' & Hs').
  exists s'. split; [exact Hs'|].
  exact (LALWaveOverlapBCV_maxima_nonnegative _ _ _ _ _ Hs').
Defined.

(** X16.  When [LALWaveOverlapBCV] returns, the constrained maximum it
    reports is the maximum over the samples of the window
    [nBegin <= i < length - nEnd]: every sample of the window has a
    constrained SNR (no sample made the program exit) and none is greater
    than the reported [rhoMax]; and either no sample is above 0 and the
    function reports the maximum 0 at bin 0, or [rhoMax] is the
    constrained SNR of the sample [rhoBin], which lies in the window and
    is the first one that reaches this value. *)
Theorem LALWaveOverlapBCV_constrained_maximum
    (correlate : InspiralWaveCorrelateIn -> bool * list REAL)
    (s s' : OverlapState) (otherIn : OtherParamIn) (mo : BEMoments) :
  LALWaveOverlapBCV correlate s otherIn mo = Returned s' ->
  exists F1 F2 k c11 c22 c21,
    LALGetOrthogonalFilterBCV2 (st_FilterBCV1 s) = Some F1
    /\ LALGetOrthogonalFilterBCV2 (st_FilterBCV2 s) = Some F2
    /\ (a11 mo !! Z.to_nat k = Some c11 /\ a22 mo !! Z.to_nat k = Some c22
        /\ a21 mo !! Z.to_nat k = Some c21)
    /\ let cin := correlation_input (st_overlapin s) in
       let x1 := (correlate (cin (st_FilterBCV1 s))).2 in
       let x2 := (correlate (cin (st_FilterBCV2 s))).2 in
       let x3 := (correlate (cin F1)).2 in
       let x4 := (correlate (cin F2)).2 in
       let thetab :=
         overlap_thetab c11 c21 c22 (fFinal (param (st_overlapin s))) in
       let first := Z.to_nat (nBegin (st_overlapin s) mod UINT4_MAX1) in
       let last :=
         Z.to_nat ((Z.of_nat (length (st_FilterBCV1 s))
                    - nEnd (st_overlapin s)) mod UINT4_MAX1) in
       let out := st_OverlapOutput s' in
       (forall i, (first <= i < last)%nat ->
          exists rho,
            sample_constrained_snr x1 x2 x3 x4 thetab i = Returned rho
            /\ fgt rho (rhoMax out) = false)
       /\ ((rhoMax out = Fin 0 /\ rhoBin out = 0%Z)
           \/ exists i, (first <= i < last)%nat
                /\ sample_constrained_snr x1 x2 x3 x4 thetab i
                   = Returned (rhoMax out)
                /\ rhoBin out = Z.of_nat i
                /\ fgt (rhoMax out) (Fin 0) = true
                /\ forall i', (first <= i' < i)%nat ->
                     exists rho',
                       sample_constrained_snr x1 x2 x3 x4 thetab i'
                       = Returned rho'
                       /\ fle (rhoMax out) rho' = false).
Proof.
  intros H.
  apply LALWaveOverlapBCV_inv in H
    as (F1 & F2 & k & c11 & c22 & c21 & st & _ & HF1 & HF2 & Hmo & Hst
        & Hout & _).
  exists F1, F2, k, c11, c22, c21.
  split; [exact HF1|]. split; [exact HF2|]. split; [exact Hmo|].
  cbn zeta in *. unfold for_range_outcome in Hst.
  destruct (LALGetOrthogonalFilterBCV2_lookup _ _ HF1) as [Hlen _].
  rewrite Hlen in Hst.
  set (first := Z.to_nat (nBegin (st_overlapin s) mod UINT4_MAX1)) in *.
  set (last := Z.to_nat ((Z.of_nat (length (st_FilterBCV1 s))
                          - nEnd (st_overlapin s)) mod UINT4_MAX1)) in *.
  pose proof (overlap_loop_constrained _ _ _ _ _ _ _ _ _ _ _ _ _ _ Hst)
    as [I1 I2].
  rewrite Hout. cbn [rhoMax rhoBin].
  split.
  - intros i Hi. apply I1. lia.
  - destruct I2 as [(E & Eb & _)|(i & tv & Hi & Hs & Hb & _ & _ & _ & M & Hf)].
    + left. split; [exact E|exact Eb].
    + right. exists i. split; [lia|]. split; [exact Hs|].
      split; [exact Hb|]. split; [exact M|exact Hf].
Qed.

Lemma LALWaveOverlapBCV_constrained_maximum_witness :
  exists s',
    LALWaveOverlapBCV example_correlate example_overlap_state example_otherIn
      example_moments = Returned s'
    /\ ((rhoMax (st_OverlapOutput s') = Fin 0
         /\ rhoBin (st_OverlapOutput s') = 0%Z)
        \/ exists i, (0 <= i < 4)%nat
             /\ rhoBin (st_OverlapOutput s') = Z.of_nat i).
Proof.
  destruct example_overlap_returns as (s' & Hs').
  exists s'. split; [exact Hs'|].
  destruct (LALWaveOverlapBCV_constrained_maximum _ _ _ _ _ Hs')
    as (F1 & F2 & k & c11 & c22 & c21 & _ & _ & _ & _ & Hmax).
  destruct Hmax as [Hz|(i & Hi & _ & Hb & _)].
  - left. exact Hz.
  - right. exists i. split; [|exact Hb].
    vm_compute in Hi. lia.
Defined.

(** X17.  The unconstrained maximum [LALWaveOverlapBCV] reports only
    takes the samples whose [alphaF] is at most 1: no such sample of the
    window has an unconstrained SNR above the reported [rhoMaxU], and
    either the function reports the maximum 0 at bin 0, or [rhoMaxU] is
    the unconstrained SNR of the sample [rhoBinU], a sample of the window
    whose [alphaF] is at most 1. *)
Theorem LALWaveOverlapBCV_unconstrained_maximum
    (correlate : InspiralWaveCorrelateIn -> bool * list REAL)
    (s s' : OverlapState) (otherIn : OtherParamIn) (mo : BEMoments) :
  LALWaveOverlapBCV correlate s otherIn mo = Returned s' ->
  exists F1 F2 k c11 c22 c21,
    LALGetOrthogonalFilterBCV2 (st_FilterBCV1 s) = Some F1
    /\ LALGetOrthogonalFilterBCV2 (st_FilterBCV2 s) = Some F2
    /\ (a11 mo !! Z.to_nat k = Some c11 /\ a22 mo !! Z.to_nat k = Some c22
        /\ a21 mo !! Z.to_nat k = Some c21)
    /\ let cin := correlation_input (st_overlapin s) in
       let x1 := (correlate (cin (st_FilterBCV1 s))).2 in
       let x2 := (correlate (cin (st_FilterBCV2 s))).2 in
       let x3 := (correlate (cin F1)).2 in
       let x4 := (correlate (cin F2)).2 in
       let fp23 :=
         fpow (fFinal (param (st_overlapin s))) (fdiv (Fin 2) (Fin 3)) in
       let first := Z.to_nat (nBegin (st_overlapin s) mod UINT4_MAX1) in
       let last :=
         Z.to_nat ((Z.of_nat (length (st_FilterBCV1 s))
                    - nEnd (st_overlapin s)) mod UINT4_MAX1) in
       let out := st_OverlapOutput s' in
       (forall i, (first <= i < last)%nat ->
          exists rhoU aF,
            sample_unconstrained_snr x1 x2 x3 x4 i = Some rhoU
            /\ sample_alphaF x1 x2 x3 x4 c11 c21 c22 fp23 i = Some aF
            /\ (fle aF (Fin 1) = true -> fgt rhoU (rhoMaxU out) = false))
       /\ ((rhoMaxU out = Fin 0 /\ rhoBinU out = 0%Z)
           \/ exists i aF, (first <= i < last)%nat
                /\ sample_unconstrained_snr x1 x2 x3 x4 i
                   = Some (rhoMaxU out)
                /\ sample_alphaF x1 x2 x3 x4 c11 c21 c22 fp23 i = Some aF
                /\ fle aF (Fin 1) = true
                /\ rhoBinU out = Z.of_nat i
                /\ fgt (rhoMaxU out) (Fin 0) = true).
Proof.
  intros H.
  apply LALWaveOverlapBCV_inv in H
    as (F1 & F2 & k & c11 & c22 & c21 & st & _ & HF1 & HF2 & Hmo & Hst
        & Hout & _).
  exists F1, F2, k, c11, c22, c21.
  split; [exact HF1|]. split; [exact HF2|]. split; [exact Hmo|].
  cbn zeta in *. unfold for_range_outcome in Hst.
  destruct (LALGetOrthogonalFilterBCV2_lookup _ _ HF1) as [Hlen _].
  rewrite Hlen in Hst.
  set (first := Z.to_nat (nBegin (st_overlapin s) mod UINT4_MAX1)) in *.
  set (last := Z.to_nat ((Z.of_nat (length (st_FilterBCV1 s))
                          - nEnd (st_overlapin s)) mod UINT4_MAX1)) in *.
  pose proof (overlap_loop_unconstrained _ _ _ _ _ _ _ _ _ _ _ _ _ _ Hst)
    as [I1 I2].
  rewrite Hout. cbn [rhoMaxU rhoBinU].
  split.
  - intros i Hi. apply I1. lia.
  - destruct I2 as [(E & Eb & _)
                   |(i & tv & af & Hi & Hs & Ha & Hc & Hb & _ & _ & _ & M)].
    + left. split; [exact E|exact Eb].
    + right. exists i, af. split; [lia|]. split; [exact Hs|].
      split; [exact Ha|]. split; [exact Hc|]. split; [exact Hb|exact M].
Qed.

Lemma LALWaveOverlapBCV_unconstrained_maximum_witness :
  exists s',
    LALWaveOverlapBCV example_correlate example_overlap_state example_otherIn
      example_moments = Returned s'
    /\ ((rhoMaxU (st_OverlapOutput s') = Fin 0
         /\ rhoBinU (st_OverlapOutput s') = 0%Z)
        \/ exists i, (0 <= i < 4)%nat
             /\ rhoBinU (st_OverlapOutput s') = Z.of_nat i).
Proof.
  destruct example_overlap_returns as (s' & Hs').
  exists s'. split; [exact Hs'|].
  destruct (LALWaveOverlapBCV_unconstrained_maximum _ _ _ _ _ Hs')
    as (F1 & F2 & k & c11 & c22 & c21 & _ & _ & _ & _ & Hmax).
  destruct Hmax as [Hz|(i & af & Hi & _ & _ & _ & Hb & _)].
  - left. exact Hz.
  - right. exists i. split; [|exact Hb].
    vm_compute in Hi. lia.
Defined.

(** The sector tests admit no angle beyond [PI + 1e-4] in magnitude: the
    bounds of the first two sectors lie inside that range when the
    boundary angle is within [-PI/2, PI/2], those of the third sector
    are that range, and an infinite or NaN angle fails every test. *)
Lemma sector_decision_bounds (th : R) (tv : REAL) :
  (- PI / 2 <= th <= PI / 2)%R ->
  sector_decision (Fin th) tv <> SectorNone ->
  exists v, tv = Fin v /\ (- (PI + 1 / 10000) <= v <= PI + 1 / 10000)%R.
Proof.
  intros Hth H. pose proof PI_RGT_0 as Hpi.
  destruct tv as [v| | |].
  - exists v. split; [reflexivity|].
    destruct (Rle_dec (- (PI + 1 / 10000)) v) as [L|L];
      destruct (Rle_dec v (PI + 1 / 10000)) as [U|U];
      try (split; assumption);
      exfalso; apply H;
      unfold sector_decision, fge, fle, flt, fmul, fsub, fadd, fneg, LAL_PI,
        tolerance;
      decide_reals; try reflexivity; lra.
  - exfalso. apply H.
    unfold sector_decision, fge, fle, flt, fmul, fsub, fadd, fneg, LAL_PI,
      tolerance.
    decide_reals; reflexivity.
  - exfalso. apply H.
    unfold sector_decision, fge, fle, flt, fmul, fsub, fadd, fneg, LAL_PI,
      tolerance.
    decide_reals; reflexivity.
  - exfalso. apply H.
    unfold sector_decision, fge, fle, flt, fmul, fsub, fadd, fneg, LAL_PI,
      tolerance.
    decide_reals; reflexivity.
Qed.

Lemma half_thetav_range (t thetav : REAL) :
  sector_decision (fatan t) thetav <> SectorNone ->
  exists p, fmul (Fin (1 / 2)) thetav = Fin p
            /\ (- (PI + 1 / 10000) / 2 <= p <= (PI + 1 / 10000) / 2)%R.
Proof.
  intros Hsec.
  destruct (fatan_cases t) as [E|(th & E & Hth)]; rewrite E in Hsec.
  - exfalso. apply Hsec. apply sector_decision_nan.
  - destruct (sector_decision_bounds th thetav Hth Hsec) as (v & -> & Hv).
    cbn [fmul]. eexists. split; [reflexivity|]. lra.
Qed.

(** X18.  The two phases [LALWaveOverlapBCV] reports are finite angles of
    magnitude at most [(PI + 1e-4) / 2]: the initial 0, or half the angle
    [thetav] of the sample that gave the maximum.  That angle passed the
    sector tests of the loop, and with a boundary angle that comes from
    [atan] these tests admit no angle beyond [PI + 1e-4] in magnitude.
    (The bound is the one of the tests, not the range of [atan2]: the
    angle is stored in a [REAL4], where the nearest value to PI is above
    PI.) *)
Theorem LALWaveOverlapBCV_phase_range
    (correlate : InspiralWaveCorrelateIn -> bool * list REAL)
    (s s' : OverlapState) (otherIn : OtherParamIn) (mo : BEMoments) :
  LALWaveOverlapBCV correlate s otherIn mo = Returned s' ->
  exists p pU,
    phase (st_OverlapOutput s') = Fin p
    /\ phaseU (st_OverlapOutput s') = Fin pU
    /\ (- (PI + 1 / 10000) / 2 <= p <= (PI + 1 / 10000) / 2)%R
    /\ (- (PI + 1 / 10000) / 2 <= pU <= (PI + 1 / 10000) / 2)%R.
Proof.
  intros H. pose proof PI_RGT_0 as Hpi.
  apply LALWaveOverlapBCV_inv in H
    as (F1 & F2 & k & c11 & c22 & c21 & st & _ & _ & _ & _ & Hst & Hout & _).
  cbn zeta in Hst. unfold for_range_outcome in Hst.
  pose proof (overlap_loop_constrained _ _ _ _ _ _ _ _ _ _ _ _ _ _ Hst)
    as [_ HC].
  pose proof (overlap_loop_unconstrained _ _ _ _ _ _ _ _ _ _ _ _ _ _ Hst)
    as [_ HU].
  rewrite Hout. cbn [phase phaseU].
  assert (HP : exists p, phaseConstraint st = Fin p
                 /\ (- (PI + 1 / 10000) / 2 <= p <= (PI + 1 / 10000) / 2)%R).
  { destruct HC as [(_ & _ & E)|(i & tv & _ & _ & _ & _ & E & Hsec & _)];
      rewrite E.
    - exists 0%R. split; [reflexivity|lra].
    - unfold overlap_thetab in Hsec. eapply half_thetav_range; eassumption. }
  assert (HPU : exists p, phaseUnconstraint st = Fin p
                  /\ (- (PI + 1 / 10000) / 2 <= p <= (PI + 1 / 10000) / 2)%R).
  { destruct HU as [(_ & _ & E)
                   |(i & tv & af & _ & _ & _ & _ & _ & _ & E & Hsec & _)];
      rewrite E.
    - exists 0%R. split; [reflexivity|lra].
    - unfold overlap_thetab in Hsec. eapply half_thetav_range; eassumption. }
  destruct HP as (p & Ep & Hp). destruct HPU as (pU & EpU & HpU).
  exists p, pU. auto.
Qed.

Lemma LALWaveOverlapBCV_phase_range_witness :
  exists s' p,
    LALWaveOverlapBCV example_correlate example_overlap_state example_otherIn
      example_moments = Returned s'
    /\ phase (st_OverlapOutput s') = Fin p
    /\ (- (PI + 1 / 10000) / 2 <= p <= (PI + 1 / 10000) / 2)%R.
Proof.
  destruct example_overlap_returns as (s' & Hs').
  destruct (LALWaveOverlapBCV_phase_range _ _ _ _ _ Hs')
    as (p & pU & Hp & _ & Hr & _).
  exists s', p. auto.
Defined.

Lemma combine_loop_length (ph phi : REAL) (x1 x2 x3 x4 : list REAL)
    (c i : nat) (corr corr' : list REAL) :
  for_loop (combine_body ph phi x1 x2 x3 x4) i c corr = Some corr' ->
  length corr' = length corr.
Proof.
  revert i corr. induction c as [|c IH]; intros i corr H.
  - cbn in H. injection H as <-. reflexivity.
  - cbn [for_loop] in H.
    destruct (combine_body ph phi x1 x2 x3 x4 i corr) as [corr1|] eqn:Hb;
      [|discriminate].
    apply IH in H. rewrite H. unfold combine_body, load in Hb.
    destruct (x1 !! i); [|discriminate]. destruct (x2 !! i); [|discriminate].
    destruct (x3 !! i); [|discriminate]. destruct (x4 !! i); [|discriminate].
    cbn [mbind option_bind] in Hb. apply store_inv in Hb as [_ ->].
    apply length_insert.
Qed.

(** X19.  What [LALWaveOverlapBCV] leaves alone when it returns: the
    three vectors keep their lengths; without the options
    [printBestOverlap] and [printSNRHisto] the correlation vector is not
    written at all; the fields [freq], [layer] and [templateNumber] of
    the output record, constrained and unconstrained, are not written;
    and of the caller's [overlapin] only [param.nStartPad] and
    [param.startPhase] change, both reset to 0. *)
Theorem LALWaveOverlapBCV_frame
    (correlate : InspiralWaveCorrelateIn -> bool * list REAL)
    (s s' : OverlapState) (otherIn : OtherParamIn) (mo : BEMoments) :
  LALWaveOverlapBCV correlate s otherIn mo = Returned s' ->
  let out := st_OverlapOutput s in
  let out' := st_OverlapOutput s' in
  (length (st_correlation s') = length (st_correlation s)
   /\ length (st_FilterBCV1 s') = length (st_FilterBCV1 s)
   /\ length (st_FilterBCV2 s') = length (st_FilterBCV2 s))
  /\ (printBestOverlap otherIn = false -> printSNRHisto otherIn = false ->
      st_correlation s' = st_correlation s)
  /\ (freq out' = freq out /\ layer out' = layer out
      /\ templateNumber out' = templateNumber out
      /\ freqU out' = freqU out /\ layerU out' = layerU out
      /\ templateNumberU out' = templateNumberU out)
  /\ st_overlapin s'
     = {| nBegin := nBegin (st_overlapin s);
          nEnd := nEnd (st_overlapin s);
          psd := psd (st_overlapin s);
          signal := signal (st_overlapin s);
          param :=
            {| fLower := fLower (param (st_overlapin s));
               tSampling := tSampling (param (st_overlapin s));
               fFinal := fFinal (param (st_overlapin s));
               fCutoff := fCutoff (param (st_overlapin s));
               psi0 := psi0 (param (st_overlapin s));
               psi3 := psi3 (param (st_overlapin s));
               nStartPad := 0;
               startPhase := Fin 0 |} |}.
Proof.
  intros H out out'. subst out out'.
  apply LALWaveOverlapBCV_inv in H
    as (F1 & F2 & k & c11 & c22 & c21 & st & _ & HF1 & HF2 & _ & Hst
        & Hout & Hin & Hend).
  cbn zeta in Hst, Hend. unfold for_range_outcome in Hst.
  destruct (overlap_loop_correlation _ _ _ _ _ _ _ _ _ _ _ _ _ _ Hst)
    as [Hlen Hkeep].
  cbn [initial_maxima correlation] in Hlen, Hkeep.
  destruct (LALGetOrthogonalFilterBCV2_lookup _ _ HF1) as [L1 _].
  destruct (LALGetOrthogonalFilterBCV2_lookup _ _ HF2) as [L2 _].
  rewrite Hout, Hin. cbn.
  split; [|split; [|split; [repeat split; reflexivity|reflexivity]]].
  - destruct (printing otherIn).
    + destruct Hend as (Hc & G1 & G2).
      apply combine_loop_length in Hc.
      destruct (LALGetOrthogonalFilterBCV2_lookup _ _ G1) as [L1' _].
      destruct (LALGetOrthogonalFilterBCV2_lookup _ _ G2) as [L2' _].
      repeat split; congruence.
    + destruct Hend as (-> & -> & ->). auto.
  - intros Hp Hh.
    assert (Hpr : printing otherIn = false)
      by (unfold printing; rewrite Hp; reflexivity).
    rewrite Hpr in Hend. destruct Hend as (-> & _).
    apply Hkeep. rewrite Hp, Hh. reflexivity.
Qed.

Lemma LALWaveOverlapBCV_frame_witness :
  exists s',
    LALWaveOverlapBCV example_correlate example_overlap_state example_otherIn
      example_moments = Returned s'
    /\ st_correlation s' = replicate 4 (Fin 0)
    /\ nStartPad (param (st_overlapin s')) = 0%Z
    /\ startPhase (param (st_overlapin s')) = Fin 0.
Proof.
  destruct example_overlap_returns as (s' & Hs').
  exists s'. split; [exact Hs'|].
  destruct (LALWaveOverlapBCV_frame _ _ _ _ _ Hs') as (_ & Hc & _ & Hin).
  split; [exact (Hc eq_refl eq_refl)|].
  rewrite Hin. split; reflexivity.
Defined.

(** X20.  How [LALWaveOverlapBCV] treats the status of the correlation
    engine: an error reported by any of the first three correlations
    (filter 1, its orthogonal filter, filter 2) makes the function return
    at once with an error status; the status of the fourth correlation,
    with the orthogonal filter 2, is never looked at, so the outcome only
    depends on the vectors the engine returns and on its status for the
    first three correlations. *)
Theorem LALWaveOverlapBCV_status
    (correlate : InspiralWaveCorrelateIn -> bool * list REAL)
    (s : OverlapState) (otherIn : OtherParamIn) (mo : BEMoments) :
  let cin := correlation_input (st_overlapin s) in
  (forall F1, LALGetOrthogonalFilterBCV2 (st_FilterBCV1 s) = Some F1 ->
     (correlate (cin (st_FilterBCV1 s))).1 && (correlate (cin F1)).1
       && (correlate (cin (st_FilterBCV2 s))).1 = false ->
     LALWaveOverlapBCV correlate s otherIn mo = StatusError)
  /\ (forall correlate' : InspiralWaveCorrelateIn -> bool * list REAL,
        (forall c, (correlate' c).2 = (correlate c).2) ->
        (forall F, F = st_FilterBCV1 s \/ F = st_FilterBCV2 s
                   \/ LALGetOrthogonalFilterBCV2 (st_FilterBCV1 s) = Some F ->
           (correlate' (cin F)).1 = (correlate (cin F)).1) ->
        LALWaveOverlapBCV correlate' s otherIn mo
        = LALWaveOverlapBCV correlate s otherIn mo).
Proof.
  intros cin. split.
  - intros F1 HF1 Hfail. unfold LALWaveOverlapBCV.
    match goal with
    | |- context [correlate_checked correlate ?c] =>
        change (correlate_checked correlate c)
          with (if (correlate (cin (st_FilterBCV1 s))).1
                then Returned (correlate c).2 else @StatusError (list REAL))
    end.
    destruct (correlate (cin (st_FilterBCV1 s))).1; [|reflexivity].
    cbn [mbind outcome_mbind outcome_bind].
    rewrite HF1. cbn [defined mbind outcome_mbind outcome_bind].
    match goal with
    | |- context [correlate_checked correlate ?c] =>
        change (correlate_checked correlate c)
          with (if (correlate (cin F1)).1
                then Returned (correlate c).2 else @StatusError (list REAL))
    end.
    destruct (correlate (cin F1)).1; [|reflexivity].
    cbn [mbind outcome_mbind outcome_bind].
    match goal with
    | |- context [correlate_checked correlate ?c] =>
        change (correlate_checked correlate c)
          with (if (correlate (cin (st_FilterBCV2 s))).1
                then Returned (correlate c).2 else @StatusError (list REAL))
    end.
    destruct (correlate (cin (st_FilterBCV2 s))).1; [|reflexivity].
    discriminate.
  - intros correlate' Hvec Hflag. unfold LALWaveOverlapBCV.
    match goal with
    | |- context [correlate_checked correlate' ?c] =>
        assert (E1 : correlate_checked correlate' c
                     = correlate_checked correlate c)
          by (unfold correlate_checked; cbv zeta; rewrite (Hvec c);
              rewrite (Hflag (st_FilterBCV1 s) (or_introl eq_refl)
                       : (correlate' c).1 = (correlate c).1);
              reflexivity);
        rewrite E1; destruct (correlate_checked correlate c) as [x1| | |];
        try reflexivity
    end.
    cbn [mbind outcome_mbind outcome_bind].
    destruct (LALGetOrthogonalFilterBCV2 (st_FilterBCV1 s)) as [F1|] eqn:HF1;
      [|reflexivity].
    cbn [defined mbind outcome_mbind outcome_bind].
    match goal with
    | |- context [correlate_checked correlate' ?c] =>
        assert (E3 : correlate_checked correlate' c
                     = correlate_checked correlate c)
          by (unfold correlate_checked; cbv zeta; rewrite (Hvec c);
              rewrite (Hflag F1 (or_intror (or_intror eq_refl))
                       : (correlate' c).1 = (correlate c).1);
              reflexivity);
        rewrite E3; destruct (correlate_checked correlate c) as [x3| | |];
        try reflexivity
    end.
    cbn [mbind outcome_mbind outcome_bind].
    match goal with
    | |- context [correlate_checked correlate' ?c] =>
        assert (E2 : correlate_checked correlate' c
                     = correlate_checked correlate c)
          by (unfold correlate_checked; cbv zeta; rewrite (Hvec c);
              rewrite (Hflag (st_FilterBCV2 s)
                         (or_intror (or_introl eq_refl))
                       : (correlate' c).1 = (correlate c).1);
              reflexivity);
        rewrite E2; destruct (correlate_checked correlate c) as [x2| | |];
        try reflexivity
    end.
    cbn [mbind outcome_mbind outcome_bind].
    destruct (LALGetOrthogonalFilterBCV2 (st_FilterBCV2 s)) as [F2|];
      [|reflexivity].
    cbn [defined mbind outcome_mbind outcome_bind].
    rewrite Hvec. reflexivity.
Qed.

Lemma LALWaveOverlapBCV_status_witness :
  exists s',
    LALWaveOverlapBCV example_failing_correlate example_overlap_state
      example_otherIn example_moments = Returned s'
    /\ (example_failing_correlate
          (correlation_input (st_overlapin example_overlap_state)
             [Fin 5; Fin (- 8); Fin 7; Fin 6])).1 = false
    /\ LALGetOrthogonalFilterBCV2 (st_FilterBCV2 example_overlap_state)
       = Some [Fin 5; Fin (- 8); Fin 7; Fin 6].
Proof.
  destruct example_overlap_returns as (s' & Hs').
  exists s'. split; [|split].
  - rewrite <- Hs'.
    apply (proj2 (LALWaveOverlapBCV_status example_correlate
                    example_overlap_state example_otherIn example_moments)).
    + intros c. reflexivity.
    + intros F [->|[->|HF]]; cbn.
      * destruct (Req_dec_T 4 6) as [E|_]; [lra|reflexivity].
      * destruct (Req_dec_T 8 6) as [E|_]; [lra|reflexivity].
      * assert (E : LALGetOrthogonalFilterBCV2
                      (st_FilterBCV1 example_overlap_state)
                    = Some [Fin 1; Fin (- 4); Fin 3; Fin 2]) by reflexivity.
        rewrite E in HF. injection HF as <-. cbn.
        destruct (Req_dec_T 2 6) as [E'|_]; [lra|reflexivity].
  - cbn. destruct (Req_dec_T 6 6) as [_|N]; [reflexivity|lra].
  - reflexivity.
Defined.

(** ** The caller of the filter constructor and of the maximizer *)

Lemma to_INT4_floor (r : R) (z : Z) :
  (- 2 ^ 31 <= z < 2 ^ 31)%Z -> (IZR z <= r < IZR z + 1)%R ->
  to_INT4 (ffloor (Fin r)) = Some z.
Proof.
  intros Hz Hr. unfold ffloor, to_INT4.
  assert (E : Int_part r = z).
  { symmetry. apply Int_part_spec. lra. }
  rewrite E. unfold Rtrunc.
  destruct (Rlt_dec (IZR z) 0) as [Hneg|Hpos].
  - rewrite <- opp_IZR, Int_part_IZR, Z.opp_involutive.
    destruct ((- 2 ^ 31 <=? z) && (z <? 2 ^ 31))%Z eqn:Hb; [reflexivity|].
    apply andb_false_iff in Hb as [Hb|Hb]; lia.
  - rewrite Int_part_IZR.
    destruct ((- 2 ^ 31 <=? z) && (z <? 2 ^ 31))%Z eqn:Hb; [reflexivity|].
    apply andb_false_iff in Hb as [Hb|Hb]; lia.
Qed.



(** X22.  What a returning call of [LALInspiralOverlapBCV] leaves behind.
    The bank is unchanged except that, when the signal is a BCV signal,
    the final frequency of the template is overwritten by the one of the
    signal.  The parameters handed to the maximizer are a copy of the
    template's, made after the two assignments of [fendBCV] to
    [overlapin->param], which it overwrites: [fCutoff] is the template's
    own.  The value -1 stored in [rhoMax] before the maximization never
    comes back: both reported maxima are at least 0. *)
Theorem LALInspiralOverlapBCV_returned
    (correlate : InspiralWaveCorrelateIn -> bool * list REAL)
    (s s' : BankState) (pv : BEPowerVector) (otherIn : OtherParamIn)
    (signal_is_BCV : bool) (randIn_param : InspiralTemplate)
    (templateNumber : Z) (mo : BEMoments) :
  LALInspiralOverlapBCV correlate s pv otherIn signal_is_BCV randIn_param
    templateNumber mo = Returned s' ->
  exists entry,
    bank_entry (bank_list s) templateNumber = Some entry
    /\ let entry' :=
         if signal_is_BCV
         then {| params := with_fFinal (params entry) (fFinal randIn_param) |}
         else entry in
       bank_list s' = <[Z.to_nat templateNumber := entry']> (bank_list s)
       /\ (signal_is_BCV = false -> bank_list s' = bank_list s)
       /\ param (st_overlapin (bank_overlap s'))
          = {| fLower := fLower (params entry');
               tSampling := tSampling (params entry');
               fFinal := fFinal (params entry');
               fCutoff := fCutoff (params entry');
               psi0 := psi0 (params entry');
               psi3 := psi3 (params entry');
               nStartPad := 0;
               startPhase := Fin 0 |}
       /\ fle (Fin 0) (rhoMax (st_OverlapOutput (bank_overlap s'))) = true
       /\ fle (Fin 0) (rhoMaxU (st_OverlapOutput (bank_overlap s'))) = true.
Proof.
  intros H. unfold LALInspiralOverlapBCV in H.
  apply outcome_bind_returned in H as (kMin & _ & H).
  apply outcome_bind_returned in H as (entry & Hentry & H).
  apply outcome_bind_returned in H as (kMax & _ & H).
  apply outcome_bind_returned in H as (fs & _ & H).
  apply outcome_bind_returned in H as (o' & Ho' & H).
  apply defined_returned in Hentry.
  injection H as <-. cbn [bank_list bank_overlap].
  exists entry. split; [exact Hentry|]. cbn zeta.
  split; [reflexivity|].
  split.
  - intros ->. apply list_insert_id.
    unfold bank_entry in Hentry.
    destruct (templateNumber <? 0)%Z; [discriminate|exact Hentry].
  - apply LALWaveOverlapBCV_inv in Ho'
      as (F1 & F2 & k & c11 & c22 & c21 & st & _ & _ & _ & _ & Hst & Hout
          & Hin & _).
    cbn zeta in Hst. unfold for_range_outcome in Hst.
    apply overlap_loop_nonnegative in Hst.
    rewrite Hin, Hout. cbn.
    split; [reflexivity|]. exact Hst.
Qed.

Lemma example_bank_returns :
  exists s',
    LALInspiralOverlapBCV example_correlate example_bank_state example_powers
      example_otherIn false example_template 0 example_moments = Returned s'.
Proof.
  unfold LALInspiralOverlapBCV.
  assert (Ek : to_INT4
                 (ffloor (fdiv (Fin 1) (fdiv (fdiv (Fin 4) (of_Z 2)) (Fin 2))))
               = Some 1%Z).
  { unfold of_Z. rewrite (fdiv_fin 4 2) by lra.
    rewrite (fdiv_fin (4 / 2) 2) by lra.
    rewrite (fdiv_fin 1 (4 / 2 / 2)) by lra.
    apply to_INT4_floor; [lia|lra]. }
  change (to_INT4 (ffloor (fdiv (Fin 1) (fdiv (fdiv (Fin 4) (of_Z 2)) (Fin 2))))
          = Some 1%Z) in Ek.
  match goal with
  | |- context [defined (to_INT4 ?x)] =>
      change (to_INT4 x)
        with (to_INT4
                (ffloor (fdiv (Fin 1) (fdiv (fdiv (Fin 4) (of_Z 2)) (Fin 2)))))
  end.
  rewrite Ek. cbn [defined mbind outcome_mbind outcome_bind].
  change (bank_entry (bank_list example_bank_state) 0)
    with (Some {| params := example_template |}).
  cbn [defined mbind outcome_mbind outcome_bind].
  match goal with
  | |- context [defined (to_INT4 ?x)] =>
      change (to_INT4 x)
        with (to_INT4
                (ffloor (fdiv (Fin 1) (fdiv (fdiv (Fin 4) (of_Z 2)) (Fin 2)))))
  end.
  rewrite Ek. cbn [defined mbind outcome_mbind outcome_bind].
  change (1 mod UINT4_MAX1)%Z with 1%Z.
  assert (Hk : (1 <= 1 < UINT4_MAX1)%Z) by (unfold UINT4_MAX1; lia).
  assert (Hq : (Z.to_nat 1 <= 4 / 2)%nat) by (vm_compute; lia).
  assert (Hp : (4 / 2 <= 4)%nat) by (vm_compute; lia).
  destruct (LALCreateFilters_values
              (st_FilterBCV1 (bank_overlap example_bank_state))
              (st_FilterBCV2 (bank_overlap example_bank_state))
              example_powers example_moments 1 1
              (psi0 example_template) (psi3 example_template)
              (Fin 1) (Fin 1) (Fin 0)
              eq_refl Hk Hq Hp Hp Hp Hp eq_refl eq_refl eq_refl)
    as (G1 & G2 & HG & L1 & L2 & _).
  match goal with
  | |- context [defined (LALCreateFilters ?a ?b ?c ?d ?e ?f ?g ?h)] =>
      change (LALCreateFilters a b c d e f g h)
        with (LALCreateFilters
                (st_FilterBCV1 (bank_overlap example_bank_state))
                (st_FilterBCV2 (bank_overlap example_bank_state))
                example_powers example_moments 1 1
                (psi0 example_template) (psi3 example_template))
  end.
  rewrite HG. cbn [defined mbind outcome_mbind outcome_bind fst snd].
  match goal with
  | |- context [LALWaveOverlapBCV example_correlate ?st _ _] =>
      destruct (LALWaveOverlapBCV_returns example_correlate st
                  example_otherIn example_moments 1 (Fin 1) (Fin 0) (Fin 1)
                  (atan (- (1 * Rpower 1 (-2 / 3))
                         / (1 + 0 * Rpower 1 (-2 / 3)))))
        as (o' & Ho')
  end.
  - reflexivity.
  - intros c. split; [reflexivity|]. split; [|reflexivity].
    repeat constructor.
  - cbn [st_overlapin st_correlation with_param param fFinal tSampling
           params example_template example_bank_state bank_overlap
           example_overlap_state length replicate].
    unfold of_Z. change (Z.of_nat 4) with 4%Z.
    rewrite (fdiv_fin 4 2) by lra.
    rewrite (fdiv_fin 4 (4 / 2)) by lra.
    rewrite (fdiv_fin (4 / (4 / 2)) 2) by lra.
    rewrite (fdiv_fin 1 (4 / (4 / 2) / 2)) by lra.
    apply to_unsigned_floor; [lia|lra].
  - reflexivity.
  - reflexivity.
  - reflexivity.
  - cbn [st_overlapin with_param param fFinal params example_template].
    rewrite (fdiv_fin (-2) 3) by lra.
    rewrite fpow_fin by lra.
    cbn [fmul fneg fadd].
    rewrite fdiv_fin by lra. reflexivity.
  - cbn [st_FilterBCV1 st_overlapin with_param nEnd st_correlation].
    rewrite L1. vm_compute. lia.
  - rewrite Ho'. cbn [mbind outcome_mbind outcome_bind]. eexists. reflexivity.
Qed.

Lemma LALInspiralOverlapBCV_returned_witness :
  exists s',
    LALInspiralOverlapBCV example_correlate example_bank_state example_powers
      example_otherIn false example_template 0 example_moments = Returned s'
    /\ bank_list s' = bank_list example_bank_state
    /\ fle (Fin 0) (rhoMax (st_OverlapOutput (bank_overlap s'))) = true.
Proof.
  destruct example_bank_returns as (s' & Hs').
  exists s'. split; [exact Hs'|].
  destruct (LALInspiralOverlapBCV_returned _ _ _ _ _ _ _ _ _ Hs')
    as (entry & _ & _ & Hkeep & _ & Hpos & _).
  split; [exact (Hkeep eq_refl)|exact Hpos].
Defined.

(** ** A filter built in zeroed memory and its orthogonal filter *)




(** ** The noise-moment calculator and the length of the PSD *)

Lemma for_loop_fails {St : Type} (body : nat -> St -> option St)
    (c i j : nat) (s : St) :
  (i <= j < i + c)%nat -> (forall sj, body j sj = None) ->
  for_loop body i c s = None.
Proof.
  revert i s. induction c as [|c IH]; intros i s Hj Hfail; [lia|].
  cbn [for_loop]. destruct (decide (i = j)) as [->|Hne].
  - rewrite Hfail. reflexivity.
  - destruct (body i s) as [s1|]; [|reflexivity].
    apply IH; [lia|exact Hfail].
Qed.

(** X25.  [LALCreateMomentVector] never looks at the length of the PSD:
    when the PSD has fewer samples than the Nyquist bin [kMax] its second
    loop, which runs from the cutoff bin up to [kMax], reads the PSD past
    its end, so the call is undefined. *)
Theorem LALCreateMomentVector_short_psd (psd : REAL8FrequencySeries)
    (params : InspiralTemplate) (len : Z) (kMin kMax : nat) :
  frequency_bin psd (fLower params) = Some kMin ->
  frequency_bin psd (fdiv (tSampling params) (Fin 2)) = Some kMax ->
  (kMin <= length (data psd) < kMax)%nat ->
  LALCreateMomentVector psd params len = None.
Proof.
  intros Hmin Hmax Hshort.
  rewrite (LALCreateMomentVector_unfold psd params len kMin kMax Hmin Hmax).
  unfold moment_loops.
  destruct (for_range moment_skip_body 0 kMin _) as [mo1|]; [|reflexivity].
  cbn [mbind option_bind]. unfold for_range.
  rewrite (for_loop_fails _ _ _ (length (data psd))); [reflexivity|lia|].
  intros sj. unfold moment_body, load.
  rewrite lookup_ge_None_2 by lia. reflexivity.
Qed.

Lemma LALCreateMomentVector_short_psd_witness :
  (1 <= length (data example_psd) < 8)%nat
  /\ LALCreateMomentVector example_psd example_fast_template 16 = None.
Proof.
  assert (Hmin : frequency_bin example_psd (fLower example_fast_template)
                 = Some 1%nat).
  { apply (frequency_bin_fin example_psd 0 1 1 1); try reflexivity;
      try lra; unfold UINT4_MAX1; lia. }
  assert (Hmax : frequency_bin example_psd
                   (fdiv (tSampling example_fast_template) (Fin 2))
                 = Some 8%nat).
  { cbn [example_fast_template tSampling].
    rewrite (fdiv_fin 16 2) by lra.
    apply (frequency_bin_fin example_psd 0 1 (16 / 2) 8); try reflexivity;
      try lra; unfold UINT4_MAX1; lia. }
  assert (Hshort : (1 <= length (data example_psd) < 8)%nat)
    by (vm_compute; lia).
  split; [exact Hshort|].
  exact (LALCreateMomentVector_short_psd example_psd example_fast_template
           16 1 8 Hmin Hmax Hshort).
Defined.
